(** * r6-dissect: the header decoder and the player scanner of reader/header.go

    A shallow embedding of [readHeaderMagic], [readHeaderString], [readHeader]
    and [readPlayers], with the byte cursor they run on, and the properties
    of the decoder stated over it. *)

From Stdlib Require Import ZArith Lia List Bool.
From Stdlib Require Import Strings.String Strings.Ascii Strings.Byte.
From stdpp Require Import base option list gmap strings.

Import ListNotations.
Local Open Scope string_scope.
Local Open Scope Z_scope.
Local Open Scope list_scope.

#[global] Instance byte_eq_dec : EqDecision byte := Byte.byte_eq_dec.

(** ** Errors

    The error values that can come out of the reader: the package's own
    sentinels, the one sentinel of the decompressor that [readPlayers]
    compares against, the end-of-stream errors of package io, and the
    [*NumError] of strconv. [ErrOther] stands for any other error value of
    a collaborator (a decompressor fault, a failure of time.Parse). *)
Inductive error : Type :=
| ErrInvalidFile
| ErrInvalidStringSep
| ErrMagicMismatch
| EOF
| ErrUnexpectedEOF
| ErrSyntax
| ErrRange
| NumError (Func Num : string) (Err : error)
| ErrOther (msg : string).

#[global] Instance error_eq_dec : EqDecision error.
Proof. solve_decision. Defined.

(** What a Go call [v, err := f()] hands back when [v] is only meaningful
    without an error. *)
Inductive result (A : Type) : Type :=
| Ok (a : A)
| Err (e : error).
Arguments Ok {A} a.
Arguments Err {A} e.

(** ** Data model

    The records of package types are declared outside header.go; they are
    modelled from §3 of the spec and from the fields header.go assigns. *)

(** Modelled from the spec: [types.Player]. Player: identifier, profile
    identifier, username, team index, hero identifier, alliance, role-image
    id, role-name, role-portrait id. *)
Record Player : Type := mkPlayer {
  ID : string;
  ProfileID : string;
  Username : string;
  TeamIndex : Z;
  HeroName : Z;
  Alliance : Z;
  RoleImage : Z;
  RoleName : string;
  RolePortrait : Z
}.

(** [types.Player{}] *)
Definition Player0 : Player := mkPlayer "" "" "" 0 0 0 0 "" 0.

Definition set_ID (v : string) (p : Player) : Player :=
  mkPlayer v (ProfileID p) (Username p) (TeamIndex p) (HeroName p) (Alliance p)
           (RoleImage p) (RoleName p) (RolePortrait p).
Definition set_ProfileID (v : string) (p : Player) : Player :=
  mkPlayer (ID p) v (Username p) (TeamIndex p) (HeroName p) (Alliance p)
           (RoleImage p) (RoleName p) (RolePortrait p).
Definition set_Username (v : string) (p : Player) : Player :=
  mkPlayer (ID p) (ProfileID p) v (TeamIndex p) (HeroName p) (Alliance p)
           (RoleImage p) (RoleName p) (RolePortrait p).
Definition set_TeamIndex (v : Z) (p : Player) : Player :=
  mkPlayer (ID p) (ProfileID p) (Username p) v (HeroName p) (Alliance p)
           (RoleImage p) (RoleName p) (RolePortrait p).
Definition set_HeroName (v : Z) (p : Player) : Player :=
  mkPlayer (ID p) (ProfileID p) (Username p) (TeamIndex p) v (Alliance p)
           (RoleImage p) (RoleName p) (RolePortrait p).
Definition set_Alliance (v : Z) (p : Player) : Player :=
  mkPlayer (ID p) (ProfileID p) (Username p) (TeamIndex p) (HeroName p) v
           (RoleImage p) (RoleName p) (RolePortrait p).
Definition set_RoleImage (v : Z) (p : Player) : Player :=
  mkPlayer (ID p) (ProfileID p) (Username p) (TeamIndex p) (HeroName p) (Alliance p)
           v (RoleName p) (RolePortrait p).
Definition set_RoleName (v : string) (p : Player) : Player :=
  mkPlayer (ID p) (ProfileID p) (Username p) (TeamIndex p) (HeroName p) (Alliance p)
           (RoleImage p) v (RolePortrait p).
Definition set_RolePortrait (v : Z) (p : Player) : Player :=
  mkPlayer (ID p) (ProfileID p) (Username p) (TeamIndex p) (HeroName p) (Alliance p)
           (RoleImage p) (RoleName p) v.

(** Modelled from the spec: [types.Team]. Team: name (string), score
    (integer). *)
Record Team : Type := mkTeam {
  Name : string;
  Score : Z
}.

(** Modelled from the spec: [types.Header], the MatchHeader of §3. [Teams]
    is a [[2]types.Team]: a pair. [Timestamp] is a time.Time, kept as the
    instant it denotes (nanoseconds after the zero time); the enumerated
    integers keep their raw value. *)
Record Header : Type := mkHeader {
  GameVersion : string;
  CodeVersion : Z;
  Timestamp : Z;
  MatchType : Z;
  Map : Z;
  RecordingPlayerID : string;
  RecordingProfileID : string;
  AdditionalTags : string;
  GameMode : Z;
  RoundsPerMatch : Z;
  RoundsPerMatchOvertime : Z;
  RoundNumber : Z;
  OvertimeRoundNumber : Z;
  Teams : Team * Team;
  PlaylistCategory : Z;
  MatchID : string;
  GMSettings : list Z;
  Players : list Player
}.

(** [types.Header{}] *)
Definition Header0 : Header :=
  mkHeader "" 0 0 0 0 "" "" "" 0 0 0 0 0 (mkTeam "" 0, mkTeam "" 0) 0 "" [] [].

(** Field assignments [h.F = v]. *)
Definition set_GameVersion (v : string) (h : Header) : Header :=
  mkHeader v (CodeVersion h) (Timestamp h) (MatchType h) (Map h)
          (RecordingPlayerID h) (RecordingProfileID h) (AdditionalTags h)
          (GameMode h) (RoundsPerMatch h) (RoundsPerMatchOvertime h)
          (RoundNumber h) (OvertimeRoundNumber h) (Teams h)
          (PlaylistCategory h) (MatchID h) (GMSettings h) (Players h).
Definition set_CodeVersion (v : Z) (h : Header) : Header :=
  mkHeader (GameVersion h) v (Timestamp h) (MatchType h) (Map h)
          (RecordingPlayerID h) (RecordingProfileID h) (AdditionalTags h)
          (GameMode h) (RoundsPerMatch h) (RoundsPerMatchOvertime h)
          (RoundNumber h) (OvertimeRoundNumber h) (Teams h)
          (PlaylistCategory h) (MatchID h) (GMSettings h) (Players h).
Definition set_Timestamp (v : Z) (h : Header) : Header :=
  mkHeader (GameVersion h) (CodeVersion h) v (MatchType h) (Map h)
          (RecordingPlayerID h) (RecordingProfileID h) (AdditionalTags h)
          (GameMode h) (RoundsPerMatch h) (RoundsPerMatchOvertime h)
          (RoundNumber h) (OvertimeRoundNumber h) (Teams h)
          (PlaylistCategory h) (MatchID h) (GMSettings h) (Players h).
Definition set_MatchType (v : Z) (h : Header) : Header :=
  mkHeader (GameVersion h) (CodeVersion h) (Timestamp h) v (Map h)
          (RecordingPlayerID h) (RecordingProfileID h) (AdditionalTags h)
          (GameMode h) (RoundsPerMatch h) (RoundsPerMatchOvertime h)
          (RoundNumber h) (OvertimeRoundNumber h) (Teams h)
          (PlaylistCategory h) (MatchID h) (GMSettings h) (Players h).
Definition set_Map (v : Z) (h : Header) : Header :=
  mkHeader (GameVersion h) (CodeVersion h) (Timestamp h) (MatchType h) v
          (RecordingPlayerID h) (RecordingProfileID h) (AdditionalTags h)
          (GameMode h) (RoundsPerMatch h) (RoundsPerMatchOvertime h)
          (RoundNumber h) (OvertimeRoundNumber h) (Teams h)
          (PlaylistCategory h) (MatchID h) (GMSettings h) (Players h).
Definition set_RecordingPlayerID (v : string) (h : Header) : Header :=
  mkHeader (GameVersion h) (CodeVersion h) (Timestamp h) (MatchType h) (Map h)
          v (RecordingProfileID h) (AdditionalTags h) (GameMode h)
          (RoundsPerMatch h) (RoundsPerMatchOvertime h) (RoundNumber h)
          (OvertimeRoundNumber h) (Teams h) (PlaylistCategory h) (MatchID h)
          (GMSettings h) (Players h).
Definition set_RecordingProfileID (v : string) (h : Header) : Header :=
  mkHeader (GameVersion h) (CodeVersion h) (Timestamp h) (MatchType h) (Map h)
          (RecordingPlayerID h) v (AdditionalTags h) (GameMode h)
          (RoundsPerMatch h) (RoundsPerMatchOvertime h) (RoundNumber h)
          (OvertimeRoundNumber h) (Teams h) (PlaylistCategory h) (MatchID h)
          (GMSettings h) (Players h).
Definition set_AdditionalTags (v : string) (h : Header) : Header :=
  mkHeader (GameVersion h) (CodeVersion h) (Timestamp h) (MatchType h) (Map h)
          (RecordingPlayerID h) (RecordingProfileID h) v (GameMode h)
          (RoundsPerMatch h) (RoundsPerMatchOvertime h) (RoundNumber h)
          (OvertimeRoundNumber h) (Teams h) (PlaylistCategory h) (MatchID h)
          (GMSettings h) (Players h).
Definition set_GameMode (v : Z) (h : Header) : Header :=
  mkHeader (GameVersion h) (CodeVersion h) (Timestamp h) (MatchType h) (Map h)
          (RecordingPlayerID h) (RecordingProfileID h) (AdditionalTags h) v
          (RoundsPerMatch h) (RoundsPerMatchOvertime h) (RoundNumber h)
          (OvertimeRoundNumber h) (Teams h) (PlaylistCategory h) (MatchID h)
          (GMSettings h) (Players h).
Definition set_RoundsPerMatch (v : Z) (h : Header) : Header :=
  mkHeader (GameVersion h) (CodeVersion h) (Timestamp h) (MatchType h) (Map h)
          (RecordingPlayerID h) (RecordingProfileID h) (AdditionalTags h)
          (GameMode h) v (RoundsPerMatchOvertime h) (RoundNumber h)
          (OvertimeRoundNumber h) (Teams h) (PlaylistCategory h) (MatchID h)
          (GMSettings h) (Players h).
Definition set_RoundsPerMatchOvertime (v : Z) (h : Header) : Header :=
  mkHeader (GameVersion h) (CodeVersion h) (Timestamp h) (MatchType h) (Map h)
          (RecordingPlayerID h) (RecordingProfileID h) (AdditionalTags h)
          (GameMode h) (RoundsPerMatch h) v (RoundNumber h)
          (OvertimeRoundNumber h) (Teams h) (PlaylistCategory h) (MatchID h)
          (GMSettings h) (Players h).
Definition set_RoundNumber (v : Z) (h : Header) : Header :=
  mkHeader (GameVersion h) (CodeVersion h) (Timestamp h) (MatchType h) (Map h)
          (RecordingPlayerID h) (RecordingProfileID h) (AdditionalTags h)
          (GameMode h) (RoundsPerMatch h) (RoundsPerMatchOvertime h) v
          (OvertimeRoundNumber h) (Teams h) (PlaylistCategory h) (MatchID h)
          (GMSettings h) (Players h).
Definition set_OvertimeRoundNumber (v : Z) (h : Header) : Header :=
  mkHeader (GameVersion h) (CodeVersion h) (Timestamp h) (MatchType h) (Map h)
          (RecordingPlayerID h) (RecordingProfileID h) (AdditionalTags h)
          (GameMode h) (RoundsPerMatch h) (RoundsPerMatchOvertime h)
          (RoundNumber h) v (Teams h) (PlaylistCategory h) (MatchID h)
          (GMSettings h) (Players h).
Definition set_Teams (v : Team * Team) (h : Header) : Header :=
  mkHeader (GameVersion h) (CodeVersion h) (Timestamp h) (MatchType h) (Map h)
          (RecordingPlayerID h) (RecordingProfileID h) (AdditionalTags h)
          (GameMode h) (RoundsPerMatch h) (RoundsPerMatchOvertime h)
          (RoundNumber h) (OvertimeRoundNumber h) v (PlaylistCategory h)
          (MatchID h) (GMSettings h) (Players h).
Definition set_PlaylistCategory (v : Z) (h : Header) : Header :=
  mkHeader (GameVersion h) (CodeVersion h) (Timestamp h) (MatchType h) (Map h)
          (RecordingPlayerID h) (RecordingProfileID h) (AdditionalTags h)
          (GameMode h) (RoundsPerMatch h) (RoundsPerMatchOvertime h)
          (RoundNumber h) (OvertimeRoundNumber h) (Teams h) v (MatchID h)
          (GMSettings h) (Players h).
Definition set_MatchID (v : string) (h : Header) : Header :=
  mkHeader (GameVersion h) (CodeVersion h) (Timestamp h) (MatchType h) (Map h)
          (RecordingPlayerID h) (RecordingProfileID h) (AdditionalTags h)
          (GameMode h) (RoundsPerMatch h) (RoundsPerMatchOvertime h)
          (RoundNumber h) (OvertimeRoundNumber h) (Teams h)
          (PlaylistCategory h) v (GMSettings h) (Players h).
Definition set_Players (v : list Player) (h : Header) : Header :=
  mkHeader (GameVersion h) (CodeVersion h) (Timestamp h) (MatchType h) (Map h)
          (RecordingPlayerID h) (RecordingProfileID h) (AdditionalTags h)
          (GameMode h) (RoundsPerMatch h) (RoundsPerMatchOvertime h)
          (RoundNumber h) (OvertimeRoundNumber h) (Teams h)
          (PlaylistCategory h) (MatchID h) (GMSettings h) v.

(** [h.Teams[0].Name = v] and its three siblings. *)
Definition set_Teams0_Name (v : string) (h : Header) : Header :=
  set_Teams (mkTeam v (Score (fst (Teams h))), snd (Teams h)) h.
Definition set_Teams1_Name (v : string) (h : Header) : Header :=
  set_Teams (fst (Teams h), mkTeam v (Score (snd (Teams h)))) h.
Definition set_Teams0_Score (v : Z) (h : Header) : Header :=
  set_Teams (mkTeam (Name (fst (Teams h))) v, snd (Teams h)) h.
Definition set_Teams1_Score (v : Z) (h : Header) : Header :=
  set_Teams (fst (Teams h), mkTeam (Name (snd (Teams h))) v) h.

(** ** The byte cursor *)

(** The decompressed stream behind [r.compressed], an io.Reader: the bytes
    it still yields, and what a read past them reports, [None] for a clean
    end of the stream, [Some e] for a fault [e] of the decompressor. *)
Record Source : Type := mkSource {
  avail : list byte;
  fault : option error
}.

(** Modelled from the spec: [DissectReader], declared in reader.go, with
    the fields header.go uses: the stream, the offset into it, and the
    header (the field [Header] of the source). *)
Record DissectReader : Type := mkReader {
  compressed : Source;
  offset : Z;
  header : Header
}.

(** Code that runs on the reader: it returns a value and the reader as it
    left it, also when it fails. *)
Definition M (A : Type) : Type := DissectReader -> A * DissectReader.

Definition ret {A} (a : A) : M A := fun r => (a, r).
Definition bind {A B} (m : M A) (k : A -> M B) : M B :=
  fun r => let '(a, r1) := m r in k a r1.

Notation "x <- m ;; k" := (bind m (fun x => k))
  (at level 100, m at next level, right associativity).
(** [x, err := f(); if err != nil { return err }]: run [m], go on with its
    value, or stop with its error. *)
Definition try {A B} (m : M (result A)) (k : A -> M (result B)) : M (result B) :=
  fun r => match m r with
           | (Ok a, r1) => k a r1
           | (Err e, r1) => (Err e, r1)
           end.

Notation "x <-? m ;; k" := (try m (fun x => k))
  (at level 100, m at next level, right associativity).

(** [r.compressed.Read(b)] of package io on a buffer of [n] bytes: the bytes
    copied and the error. The count is the length of the bytes. The
    decompressor fills the buffer while bytes remain and reports its end
    (io.EOF on a clean end) when it has none; it never returns no byte and
    no error, so the test [len != 1] of [readHeaderMagic] is kept but never
    fires on this stream. *)
Definition compressed_Read (n : nat) : M (list byte * option error) := fun r =>
  let s := compressed r in
  match avail s with
  | [] => (([], Some (default EOF (fault s))), r)
  | _ => ((take n (avail s), None),
          mkReader (mkSource (drop n (avail s)) (fault s)) (offset r) (header r))
  end.

(** [r.offset += len] *)
Definition add_offset (len : Z) : M unit := fun r =>
  (tt, mkReader (compressed r) (offset r + len) (header r)).

(** Modelled from the spec: [Read] of reader.go, which is not among the
    sources. `read(n)`: returns exactly `n` bytes, advances offset by `n`;
    fails with `UnexpectedEOF` if fewer than `n` bytes remain upstream. A
    fault of the decompressor is handed on as it is. *)
Definition Read (n : nat) : M (result (list byte)) := fun r =>
  let s := compressed r in
  if decide (n ≤ length (avail s))%nat then
    (Ok (take n (avail s)),
     mkReader (mkSource (drop n (avail s)) (fault s)) (offset r + Z.of_nat n) (header r))
  else
    (Err (default ErrUnexpectedEOF (fault s)),
     mkReader (mkSource [] (fault s)) (offset r + Z.of_nat (length (avail s))) (header r)).

(** Modelled from the spec: the search of [Seek] (reader.go is not among the
    sources). `seek(pattern)`: scans forward byte-by-byte (consuming, not
    peeking) until the most recent `len(pattern)` bytes read equal `pattern`
    exactly. [seen] holds the bytes this search has consumed so far; the
    result is the bytes consumed up to and including the match, and the
    bytes left. *)
Fixpoint seek_scan (pattern seen bs : list byte) : option (list byte * list byte) :=
  match bs with
  | [] => None
  | b :: bs' =>
      let seen' := seen ++ [b] in
      if decide (drop (length seen' - length pattern)%nat seen' = pattern)
      then Some (seen', bs')
      else seek_scan pattern seen' bs'
  end.

(** Modelled from the spec: [Seek] of reader.go. It advances offset by
    however many bytes were consumed including the match, and fails with
    `PatternNotFound` if the underlying source exhausts before a match;
    the distinguished value is the one [readPlayers] compares against,
    zstd.ErrMagicMismatch. A fault of the decompressor is the normal error
    of §8. *)
Definition Seek (pattern : list byte) : M (result unit) := fun r =>
  let s := compressed r in
  match seek_scan pattern [] (avail s) with
  | Some (seen, rest) =>
      (Ok tt, mkReader (mkSource rest (fault s)) (offset r + Z.of_nat (length seen)) (header r))
  | None =>
      (Err (default ErrMagicMismatch (fault s)),
       mkReader (mkSource [] (fault s)) (offset r + Z.of_nat (length (avail s))) (header r))
  end.

Definition byte_Z (b : byte) : Z := Z.of_N (Byte.to_N b).

(** A 4-byte little-endian two's complement integer. *)
Definition int32_le (b : list byte) : Z :=
  let u := Z.lor (byte_Z (nth 0 b x00))
          (Z.lor (Z.shiftl (byte_Z (nth 1 b x00)) 8)
          (Z.lor (Z.shiftl (byte_Z (nth 2 b x00)) 16)
                 (Z.shiftl (byte_Z (nth 3 b x00)) 24))) in
  if u <? 2 ^ 31 then u else u - 2 ^ 32.

(** Modelled from the spec: [ReadInt] of reader.go. `readInt`: decodes a
    fixed-width (4-byte) little-endian signed integer from the cursor. *)
Definition ReadInt : M (result Z) :=
  b <-? Read 4 ;;
  ret (Ok (int32_le b)).

(** Modelled from the spec: [ReadString] of reader.go, the body variant: a
    length-prefixed string read directly from the cursor without the 7-byte
    separator (length byte immediately followed by payload). *)
Definition ReadString : M (result string) :=
  b <-? Read 1 ;;
  p <-? Read (Byte.to_nat (nth 0 b x00)) ;;
  ret (Ok (string_of_list_byte p)).

(** ** strconv.Atoi

    The standard library's parser on a 64-bit platform, through ParseInt
    and ParseUint in base 10 (the fast path of Atoi for short strings gives
    the same answers). It returns a number also next to an error: 0 with a
    syntax error, the nearest bound with a range error. *)
Definition digit_of (c : ascii) : option Z :=
  let n := Z.of_nat (nat_of_ascii c) in
  if (48 <=? n) && (n <=? 57) then Some (n - 48) else None.

Definition maxUint64 : Z := 2 ^ 64 - 1.

Fixpoint ParseUint_digits (s : string) (n : Z) : Z * option error :=
  match s with
  | EmptyString => (n, None)
  | String c s' =>
      match digit_of c with
      | None => (0, Some ErrSyntax)
      | Some d =>
          if n >=? maxUint64 / 10 + 1 then (maxUint64, Some ErrRange)
          else
            let n1 := n * 10 + d in
            if n1 >? maxUint64 then (maxUint64, Some ErrRange)
            else ParseUint_digits s' n1
      end
  end.

Definition ParseUint (s : string) : Z * option error :=
  match s with
  | EmptyString => (0, Some ErrSyntax)
  | _ => ParseUint_digits s 0
  end.

Definition ParseInt (s0 : string) : Z * option error :=
  match s0 with
  | EmptyString => (0, Some ErrSyntax)
  | String c s' =>
      let neg := bool_decide (c = "-"%char) in
      let s := if bool_decide (c = "+"%char) || neg then s' else s0 in
      match ParseUint s with
      | (_, Some ErrSyntax) => (0, Some ErrSyntax)
      | (un, _) =>
          if negb neg && (un >=? 2 ^ 63) then (2 ^ 63 - 1, Some ErrRange)
          else if neg && (un >? 2 ^ 63) then (- 2 ^ 63, Some ErrRange)
          else (if neg then - un else un, None)
      end
  end.

Definition Atoi (s : string) : Z * option error :=
  match ParseInt s with
  | (n, Some e) => (n, Some (NumError "Atoi" s e))
  | (n, None) => (n, None)
  end.

(** ** readHeaderMagic *)

(** The loop [for t != 2 { ... }] of [readHeaderMagic]. Every turn that does
    not return consumes a byte of the stream, so [fuel] beyond the bytes
    available is never used up ([readHeaderMagic_loop_scan]). *)
Fixpoint readHeaderMagic_loop (fuel : nat) (n t : Z) (r : DissectReader)
  : option (result unit * DissectReader) :=
  if decide (t ≠ 2) then
    match fuel with
    | O => None
    | S fuel' =>
        let '((b, err), r) := compressed_Read 1 r in
        let len := Z.of_nat (length b) in
        let '(_, r) := add_offset len r in
        match err with
        | Some e => Some (Err e, r)
        | None =>
            if decide (len ≠ 1) then Some (Err ErrInvalidFile, r)
            else if decide (nth 0 b x00 = x00) then
              if decide (n ≠ 6) then readHeaderMagic_loop fuel' (n + 1) t r
              else readHeaderMagic_loop fuel' 0 (t + 1) r
            else if decide (n > 0) then readHeaderMagic_loop fuel' 0 t r
            else readHeaderMagic_loop fuel' n t r
        end
    end
  else Some (Ok tt, r).

Definition readHeaderMagic (r : DissectReader) : option (result unit * DissectReader) :=
  match Read 7 r with
  | (Err e, r) => Some (Err e, r)
  | (Ok b, r) =>
      if decide (string_of_list_byte (take 7 b) ≠ "dissect") then Some (Err ErrInvalidFile, r)
      else readHeaderMagic_loop (S (length (avail (compressed r)))) 0 0 r
  end.

(** The scan of [readHeaderMagic_loop] on the bytes alone: how many bytes
    it consumes before it returns without an error, [None] when the bytes
    run out first. *)
Fixpoint scan_zeros (bs : list byte) (n t : Z) : option nat :=
  if decide (t ≠ 2) then
    match bs with
    | [] => None
    | b :: bs' =>
        S <$> (if decide (b = x00) then
                 if decide (n ≠ 6) then scan_zeros bs' (n + 1) t
                 else scan_zeros bs' 0 (t + 1)
               else if decide (n > 0) then scan_zeros bs' 0 t
               else scan_zeros bs' n t)
    end
  else Some 0%nat.

(** A block of the scan, [n] zero bytes having been counted before it: a
    byte sequence with which the count reaches seven, and no shorter
    prefix of which does. *)
Definition block_after (n : nat) (p : list byte) : Prop :=
  repeat x00 7 `suffix_of` repeat x00 n ++ p
  ∧ ∀ q, q `prefix_of` p → q ≠ p → ¬ repeat x00 7 `suffix_of` repeat x00 n ++ q.

(** A block from a fresh count: the shortest prefix that ends in seven zero
    bytes. *)
Definition block (p : list byte) : Prop := block_after 0 p.

(** Following the words of the spec, "runs of exactly 7 zero bytes": the
    runs of zero bytes of a byte sequence, as the lengths of its maximal
    stretches of consecutive zero bytes, in order. [run] is the length of
    the stretch under way. *)
Fixpoint zero_runs_from (run : nat) (bs : list byte) : list nat :=
  match bs with
  | [] => if decide (run = 0%nat) then [] else [run]
  | b :: bs' =>
      if decide (b = x00) then zero_runs_from (S run) bs'
      else (if decide (run = 0%nat) then [] else [run]) ++ zero_runs_from 0 bs'
  end.

Definition zero_runs (bs : list byte) : list nat := zero_runs_from 0 bs.

(** ** readHeader: the property loop *)

(** The locals of [readHeader] that live across the turns of its loop. *)
Record hstate : Type := mkHstate {
  props : gmap string string;
  gmSettings : list Z;
  players : list Player;
  currentPlayer : Player;
  playerData : bool
}.

Definition hstate0 : hstate := mkHstate ∅ [] [] Player0 false.

(** One turn of the loop once the pair [k], [v] has been read: lines 71
    to 131. *)
Definition header_pair (k v : string) (s : hstate) : result hstate :=
  let s :=
    if decide (k = "playerid") then
      mkHstate (props s) (gmSettings s)
               (if playerData s then players s ++ [currentPlayer s] else players s)
               Player0 true
    else s in
  let s :=
    if (bool_decide (k = "playlistcategory") || bool_decide (k = "id")) && playerData s then
      mkHstate (props s) (gmSettings s) (players s ++ [currentPlayer s])
               (currentPlayer s) false
    else s in
  let set_current (p : Player) :=
    Ok (mkHstate (props s) (gmSettings s) (players s) p (playerData s)) in
  let atoi_current (set : Z -> Player -> Player) :=
    match Atoi v with
    | (_, Some e) => Err e
    | (n, None) => set_current (set n (currentPlayer s))
    end in
  if negb (playerData s) then
    if decide (k ≠ "gmsetting") then
      Ok (mkHstate (<[k := v]> (props s)) (gmSettings s) (players s)
                   (currentPlayer s) (playerData s))
    else
      match Atoi v with
      | (_, Some e) => Err e
      | (n, None) =>
          Ok (mkHstate (props s) (gmSettings s ++ [n]) (players s)
                       (currentPlayer s) (playerData s))
      end
  else
    if decide (k = "playerid") then set_current (set_ID v (currentPlayer s))
    else if decide (k = "playername") then set_current (set_Username v (currentPlayer s))
    else if decide (k = "team") then atoi_current set_TeamIndex
    else if decide (k = "heroname") then atoi_current set_HeroName
    else if decide (k = "alliance") then atoi_current set_Alliance
    else if decide (k = "roleimage") then atoi_current set_RoleImage
    else if decide (k = "rolename") then set_current (set_RoleName v (currentPlayer s))
    else if decide (k = "roleportrait") then atoi_current set_RolePortrait
    else Ok s.

(** [_, lastProp = props["teamscore1"]] *)
Definition lastProp (s : hstate) : bool :=
  bool_decide (is_Some (props s !! "teamscore1")).

(** ** readHeader: assembling the header *)

(** [n, err := f(); if err != nil { return h, err }] *)
Definition orReturn {A} (x : A * option error) (h : Header)
    (k : A -> Header * option error) : Header * option error :=
  match x with
  | (_, Some e) => (h, Some e)
  | (a, None) => k a
  end.

Notation "n <~ x 'otherwise' h ;; k" := (orReturn x h (fun n => k))
  (at level 100, x at next level, h at next level, right associativity).

(** [props[k]]: the empty string when the key is absent. *)
Definition prop (props : gmap string string) (k : string) : string :=
  default "" (props !! k).

(** ** readPlayers *)

Definition indicator : list byte := [x22; x95; x1c; x16; x50; x08].
Definition profileIDIndicator : list byte := [x8a; x50; x9b; xd0].
Definition unknownIndicator : list byte := [x22; xee; xd4; x45; xc8; x08].

(** The [for i, player := range r.Header.Players] of lines 264 to 271: the
    flag [found] and the list as the loop leaves it. *)
Fixpoint reconcile_range (ps : list Player) (username profileID : string) (teamIndex : Z)
  : bool * list Player :=
  match ps with
  | [] => (false, [])
  | player :: ps' =>
      if decide (Username player = username) then
        (true, set_TeamIndex teamIndex (set_ProfileID profileID player) :: ps')
      else
        let '(found, ps'') := reconcile_range ps' username profileID teamIndex in
        (found, player :: ps'')
  end.

(** Lines 258 to 274 on the list of players. *)
Definition reconcile (ps : list Player) (username profileID : string) (teamIndex : Z)
  : list Player :=
  let player := mkPlayer "" profileID username teamIndex 0 0 0 "" 0 in
  let '(found, ps) := reconcile_range ps username profileID teamIndex in
  if negb found then ps ++ [player] else ps.

(** The same lines on the reader, whose header holds the list. *)
Definition reconcile_players (username profileID : string) (teamIndex : Z) : M unit :=
  fun r =>
    (tt, mkReader (compressed r) (offset r)
           (set_Players (reconcile (Players (header r)) username profileID teamIndex)
                        (header r))).

(** Modelled from the spec: the diagnostic collector [HexEventComparison],
    declared outside header.go. It accepts `(username, 30 raw bytes)` per
    call and never fails the decode: it is what has been pushed to it,
    oldest first. *)
Definition HexEventComparison : Type := list (string * list byte).

(** The loop of [readPlayers] with [todo] turns left, [todo = 10 - i]. It
    returns the collector next to the error, for the turns to be counted. *)
Fixpoint readPlayers_loop (todo : nat) (unknownComparison : HexEventComparison)
  : M (result HexEventComparison) :=
  match todo with
  | O => ret (Ok unknownComparison)
  | S todo' => fun r =>
      match Seek indicator r with
      | (Err err, r) =>
          if decide (err ≠ ErrMagicMismatch) then (Err err, r)
          else (Ok unknownComparison, r)
      | (Ok _, r) =>
          (teamIndicator <-? ReadInt ;;
           let teamIndex := if decide (Z.rem teamIndicator 2 = 0) then 1 else 0 in
           _ <-? Read 12 ;;
           username <-? ReadString ;;
           _ <-? Seek profileIDIndicator ;;
           profileID <-? ReadString ;;
           _ <- reconcile_players username profileID teamIndex ;;
           _ <-? Seek unknownIndicator ;;
           unknown <-? Read 30 ;;
           readPlayers_loop todo' (unknownComparison ++ [(username, unknown)])) r
      end
  end.

Definition readPlayers : M (result unit) := fun r =>
  match readPlayers_loop 10 [] r with
  | (Ok _, r) => (Ok tt, r)
  | (Err e, r) => (Err e, r)
  end.

Section Decoder.

(** The separator of header strings, [strSep]: a constant of the package
    declared outside header.go. *)
Variable strSep : list byte.

(** time.Parse of the standard library. *)
Variable time_Parse : string -> string -> Z * option error.

(** ** readHeaderString *)

Definition readHeaderString : M (result string) :=
  b <-? Read 1 ;;
  let len := Byte.to_nat (nth 0 b x00) in
  b <-? Read 7 ;;
  if decide (b ≠ strSep) then ret (Err ErrInvalidStringSep)
  else
    b <-? Read len ;;
    ret (Ok (string_of_list_byte b)).

(** ** readHeader *)

(** The loop [for lastProp := false; !lastProp; { ... }]. Every turn that
    does not return reads two header strings, so [fuel] beyond the bytes
    available is never used up ([readHeader_loop_total]). *)
Fixpoint readHeader_loop (fuel : nat) (s : hstate) (r : DissectReader)
  : option (result hstate * DissectReader) :=
  match fuel with
  | O => None
  | S fuel' =>
      match readHeaderString r with
      | (Err e, r) => Some (Err e, r)
      | (Ok k, r) =>
          match readHeaderString r with
          | (Err e, r) => Some (Err e, r)
          | (Ok v, r) =>
              match header_pair k v s with
              | Err e => Some (Err e, r)
              | Ok s => if lastProp s then Some (Ok s, r) else readHeader_loop fuel' s r
              end
          end
      end
  end.

(** Lines 134 to 222. *)
Definition readHeader_assemble (props : gmap string string) (players : list Player)
    (gmSettings : list Z) : Header * option error :=
  let h := mkHeader "" 0 0 0 0 "" "" "" 0 0 0 0 0 (mkTeam "" 0, mkTeam "" 0) 0 ""
                    gmSettings players in
  let h := set_GameVersion (prop props "version") h in
  n <~ Atoi (prop props "code") otherwise h ;;
  let h := set_CodeVersion n h in
  t <~ time_Parse "2006-01-02-15-04-05" (prop props "datetime") otherwise h ;;
  let h := set_Timestamp t h in
  n <~ Atoi (prop props "matchtype") otherwise h ;;
  let h := set_MatchType n h in
  n <~ Atoi (prop props "worldid") otherwise h ;;
  let h := set_Map n h in
  let h := set_RecordingPlayerID (prop props "recordingplayerid") h in
  let h := set_RecordingProfileID (prop props "recordingprofileid") h in
  let h := set_AdditionalTags (prop props "additionaltags") h in
  n <~ Atoi (prop props "gamemodeid") otherwise h ;;
  let h := set_GameMode n h in
  n <~ Atoi (prop props "roundspermatch") otherwise h ;;
  let h := set_RoundsPerMatch n h in
  n <~ Atoi (prop props "roundspermatchovertime") otherwise h ;;
  let h := set_RoundsPerMatchOvertime n h in
  n <~ Atoi (prop props "roundnumber") otherwise h ;;
  let h := set_RoundNumber n h in
  n <~ Atoi (prop props "overtimeroundnumber") otherwise h ;;
  let h := set_OvertimeRoundNumber n h in
  let h := set_Teams0_Name (prop props "teamname0") h in
  let h := set_Teams1_Name (prop props "teamname1") h in
  let '(n, _) := Atoi (prop props "playlistcategory") in
  let h := set_PlaylistCategory n h in
  let h := set_MatchID (prop props "id") h in
  n <~ Atoi (prop props "teamscore0") otherwise h ;;
  let h := set_Teams0_Score n h in
  n <~ Atoi (prop props "teamscore1") otherwise h ;;
  let h := set_Teams1_Score n h in
  (h, None).

Definition readHeader (r : DissectReader)
  : option ((Header * option error) * DissectReader) :=
  match readHeader_loop (S (length (avail (compressed r)))) hstate0 r with
  | None => None
  | Some (Err e, r) => Some ((Header0, Some e), r)
  | Some (Ok s, r) => Some (readHeader_assemble (props s) (players s) (gmSettings s), r)
  end.

(** Modelled from the spec: the decode entry point, whose code is not among
    the sources. Raw bytes → ByteCursor → HeaderDecoder produces MatchHeader
    (with partial Player list) → PlayerScanner mutates/extends that Player
    list in place → caller receives completed MatchHeader; all errors
    propagate up through decode as a single typed error. *)
Definition decode (r : DissectReader) : option (result Header) :=
  match readHeaderMagic r with
  | None => None
  | Some (Err e, _) => Some (Err e)
  | Some (Ok _, r) =>
      match readHeader r with
      | None => None
      | Some ((_, Some e), _) => Some (Err e)
      | Some ((h, None), r) =>
          match readPlayers (mkReader (compressed r) (offset r) h) with
          | (Err e, _) => Some (Err e)
          | (Ok _, r) => Some (Ok (header r))
          end
      end
  end.

End Decoder.

(** ** The loop of readHeader on the pairs it reads

    The turns of the loop with the bytes set aside: what becomes of the
    locals over a list of pairs. The loop stops at the pair that brings
    teamscore1 into the property map, fails at a pair whose number does not
    parse, or is still running when the pairs are used up. *)
Inductive outcome : Type :=
| Stopped (s : hstate) (unread : list (string * string))
| Failed (e : error) (unread : list (string * string))
| Running (s : hstate).

Fixpoint header_pairs (kvs : list (string * string)) (s : hstate) : outcome :=
  match kvs with
  | [] => Running s
  | (k, v) :: kvs' =>
      match header_pair k v s with
      | Err e => Failed e kvs'
      | Ok s' => if lastProp s' then Stopped s' kvs' else header_pairs kvs' s'
      end
  end.

(** The reader [n] bytes further on. *)
Definition advance (n : nat) (r : DissectReader) : DissectReader :=
  mkReader (mkSource (drop n (avail (compressed r))) (fault (compressed r)))
           (offset r + Z.of_nat n) (header r).

(** ** Streams laid out by hand

    The byte layouts the decoder expects, written out for stating what it
    does on a well-formed stream, and the sample streams of the worked
    cases below. *)

(** Strings a length byte can announce. *)
Definition short_pair (kv : string * string) : Prop :=
  (String.length (fst kv) ≤ 255)%nat ∧ (String.length (snd kv) ≤ 255)%nat.


(** A fresh reader on the bytes [bs], the stream ending cleanly after
    them. *)
Definition reader_of (bs : list byte) : DissectReader :=
  mkReader (mkSource bs None) 0 Header0.

Definition len_byte (n : nat) : byte := default x00 (Byte.of_nat n).

(** The body variant of a string: its length in one byte, then its bytes. *)
Definition encode_string (s : string) : list byte :=
  len_byte (String.length s) :: list_byte_of_string s.

(** The header variant: the length, the separator, the bytes. *)
Definition encode_header_string (sep : list byte) (s : string) : list byte :=
  len_byte (String.length s) :: sep ++ list_byte_of_string s.

Definition encode_pair (sep : list byte) (kv : string * string) : list byte :=
  encode_header_string sep (fst kv) ++ encode_header_string sep (snd kv).

Definition encode_pairs (sep : list byte) (kvs : list (string * string)) : list byte :=
  concat (map (encode_pair sep) kvs).

(** One record of the scanner region: the team marker, the four bytes of
    the team indicator, twelve skipped bytes, the username, the profile-id
    marker, the profile id, the unknown marker and its thirty bytes. *)
Definition encode_record (teamIndicator : list byte) (username profileID : string)
  : list byte :=
  indicator ++ teamIndicator ++ repeat xff 12 ++ encode_string username
    ++ profileIDIndicator ++ encode_string profileID
    ++ unknownIndicator ++ repeat xaa 30.

(** Seven zero bytes: the separator of the worked cases. *)
Definition sample_strSep : list byte := repeat x00 7.

(** time.Parse on the one timestamp of the worked cases, 2023-01-02
    03:04:05 UTC, 63808225445 seconds after the zero time; any other text
    is refused here. *)
Definition sample_time_Parse (layout value : string) : Z * option error :=
  if decide (layout = "2006-01-02-15-04-05" ∧ value = "2023-01-02-03-04-05")
  then (63808225445 * 10 ^ 9, None)
  else (0, Some (ErrOther "parsing time")).

Definition sample_magic : list byte :=
  list_byte_of_string "dissect" ++ [x05; x00; x00; x00] ++ repeat x00 7
    ++ [x01] ++ repeat x00 7.

(** Fourteen zero bytes in a row, and eight zero bytes, a byte, seven zero
    bytes. *)
Definition sample_fourteen : list byte := repeat x00 14.
Definition sample_eight_seven : list byte := repeat x00 8 ++ [x01] ++ repeat x00 7.

(** The top-level properties every sample header starts with. *)
Definition sample_props : list (string * string) :=
  [("version", "Y8S1"); ("code", "7422506"); ("datetime", "2023-01-02-03-04-05");
   ("matchtype", "2"); ("worldid", "77"); ("gamemodeid", "1");
   ("roundspermatch", "4"); ("roundspermatchovertime", "1");
   ("roundnumber", "0"); ("overtimeroundnumber", "0");
   ("teamname0", "YOUR TEAM"); ("teamname1", "OPPONENTS")].

(** The sample headers end alike: the match id closes the last player
    record, then come the scores. *)
Definition sample_tail : list (string * string) :=
  [("id", "m-1"); ("teamscore0", "3"); ("teamscore1", "1")].

(** Two players of the header share the username alice; the scanner then
    meets a record of alice. *)
Definition sample_twins : list byte :=
  sample_magic
    ++ encode_pairs sample_strSep
         (sample_props
            ++ [("playerid", "p1"); ("playername", "alice"); ("team", "0");
                ("playerid", "p2"); ("playername", "alice"); ("team", "1")]
            ++ sample_tail)
    ++ [x00; x00] ++ encode_record [x04; x00; x00; x00] "alice" "prof-a".

(** A player of the header with the team value 5; the scanner then meets a
    record of bob. *)
Definition sample_team5 : list byte :=
  sample_magic
    ++ encode_pairs sample_strSep
         (sample_props
            ++ [("playerid", "p1"); ("playername", "alice"); ("team", "5")]
            ++ sample_tail)
    ++ [x00; x00] ++ encode_record [x07; x00; x00; x00] "bob" "prof-b".

Definition sample_alice : Player := mkPlayer "p1" "" "alice" 0 3 1 2 "ASH" 4.
Definition sample_bob : Player := mkPlayer "p2" "" "bob" 1 5 0 6 "MUTE" 7.
Definition sample_bob' : Player := mkPlayer "p3" "old" "bob" 0 8 1 9 "JAGER" 10.

(** The pairs of a header with two players, alice and bob, up to the pair
    before teamscore1. *)
Definition sample_two_players : list (string * string) :=
  sample_props
    ++ [("playerid", "p1"); ("playername", "alice"); ("team", "0");
        ("playerid", "p2"); ("playername", "bob"); ("team", "1")]
    ++ [("id", "m-1"); ("teamscore0", "3")].

(** The header of the two players on the stream, teamscore1 = 1 closing
    it, with a pair and a byte behind it. *)
Definition sample_header_stream : list byte :=
  encode_pairs sample_strSep
    (sample_two_players ++ ("teamscore1", "1") :: [("extra", "x")]) ++ [x07].



(** A reader past the header, with alice and bob in its list, before two
    records of the scanner region: bob, known, and carol, new. *)
Definition sample_scan_reader : DissectReader :=
  mkReader
    (mkSource ([x00] ++ encode_record [x03; x00; x00; x00] "bob" "prof-b"
                 ++ [x00; x01] ++ encode_record [x04; x00; x00; x00] "carol" "prof-c")
              None)
    0 (set_Players [sample_alice; sample_bob] Header0).

(** Eleven records of the scanner region, one after the other. *)
Definition sample_eleven : list byte :=
  concat (map (λ name, encode_record [x02; x00; x00; x00] name "prof")
              ["p0"; "p1"; "p2"; "p3"; "p4"; "p5"; "p6"; "p7"; "p8"; "p9"; "p10"]).

(** A record cut off after its username: the profile-id marker never
    comes. *)
Definition sample_cut_profile : list byte :=
  indicator ++ [x02; x00; x00; x00] ++ repeat xff 12 ++ encode_string "dave"
    ++ [x8a; x50; x9b].


(** A record cut off inside its thirty unknown bytes. *)
Definition sample_cut_block : list byte :=
  indicator ++ [x02; x00; x00; x00] ++ repeat xff 12 ++ encode_string "dave"
    ++ profileIDIndicator ++ encode_string "prof-d" ++ unknownIndicator
    ++ repeat xaa 29.

(** A whole file: magic, header, a full record of alice, then the record
    cut off after its username. *)
Definition sample_file_cut : list byte :=
  sample_magic
    ++ encode_pairs sample_strSep
         (sample_props
            ++ [("playerid", "p1"); ("playername", "alice"); ("team", "0")]
            ++ sample_tail)
    ++ encode_record [x04; x00; x00; x00] "alice" "prof-a"
    ++ sample_cut_profile.

(** ** Notions used to state the further properties *)
(** Two players agree on the fields that come from the header alone: all
    but ProfileID and TeamIndex. *)
Definition same_record_fields (p q : Player) : Prop :=
  ID p = ID q ∧ Username p = Username q ∧ HeroName p = HeroName q
  ∧ Alliance p = Alliance q ∧ RoleImage p = RoleImage q
  ∧ RoleName p = RoleName q ∧ RolePortrait p = RolePortrait q.

(** The values of the pairs with key [k], in the order of the pairs. *)
Definition values_of (k : string) (kvs : list (string * string)) : list string :=
  snd <$> filter (λ kv, fst kv = k) kvs.

(** The players of the loop of [readHeader]: those appended, and the one
    in progress when a record is open. *)
Definition open_players (s : hstate) : list Player :=
  players s ++ (if playerData s then [currentPlayer s] else []).

(** The keys that mean something inside a player record. *)
Definition record_keys : list string :=
  ["playerid"; "playername"; "team"; "heroname"; "alliance"; "roleimage";
   "rolename"; "roleportrait"; "playlistcategory"; "id"].

(** The fields of a player that [Atoi] must accept. *)
Definition record_ints : list string :=
  ["team"; "heroname"; "alliance"; "roleimage"; "roleportrait"].

(** The first error of a list of checks, if any. *)
Fixpoint first_error (checks : list (option error)) : option error :=
  match checks with
  | [] => None
  | Some e :: _ => Some e
  | None :: checks' => first_error checks'
  end.

Section Checks.

Variable time_Parse : string -> string -> Z * option error.

(** The conversions of lines 134 to 222 whose error is returned, in the
    order of the source. *)
Definition assemble_checks (props : gmap string string) : list (option error) :=
  [snd (Atoi (prop props "code"));
   snd (time_Parse "2006-01-02-15-04-05" (prop props "datetime"));
   snd (Atoi (prop props "matchtype"));
   snd (Atoi (prop props "worldid"));
   snd (Atoi (prop props "gamemodeid"));
   snd (Atoi (prop props "roundspermatch"));
   snd (Atoi (prop props "roundspermatchovertime"));
   snd (Atoi (prop props "roundnumber"));
   snd (Atoi (prop props "overtimeroundnumber"));
   snd (Atoi (prop props "teamscore0"));
   snd (Atoi (prop props "teamscore1"))].

End Checks.

(** The reader [r'] is the reader [r] some bytes further on, and nothing
    else has changed. *)
Definition moved (r r' : DissectReader) : Prop :=
  ∃ n, (n ≤ length (avail (compressed r)))%nat ∧ r' = advance n r.

(** The same, but for the list of players of the header. *)
Definition moved_players (r r' : DissectReader) : Prop :=
  ∃ n ps, (n ≤ length (avail (compressed r)))%nat
          ∧ r' = mkReader (compressed (advance n r)) (offset r + Z.of_nat n)
                          (set_Players ps (header r)).

(** The value of a text field of a player after the pairs [kvs] of its
    record: the value read last under the key [k], or [old]. *)
Definition field_text (k : string) (kvs : list (string * string)) (old : string) : string :=
  from_option id old (last (values_of k kvs)).

(** The same for a field that goes through [Atoi]. *)
Definition field_int (k : string) (kvs : list (string * string)) (old : Z) : Z :=
  from_option (λ v, fst (Atoi v)) old (last (values_of k kvs)).

(** ** Records on the stream *)

(** The marker [pattern] laid behind the bytes [g] is met there first: no
    shorter prefix of the two ends in it. *)
Definition first_behind (pattern g : list byte) : Prop :=
  ∀ q, q `prefix_of` g ++ pattern → q ≠ g ++ pattern → ¬ pattern `suffix_of` q.

(** The marker [pattern] does not occur in the bytes [bs]. *)
Definition absent (pattern bs : list byte) : Prop :=
  ∀ q, q `prefix_of` bs → ¬ pattern `suffix_of` q.

(** A record of the scanner region as laid out on the stream: the bytes
    before its team marker, the four bytes of its team indicator, the
    twelve bytes skipped, its username, the bytes before the profile-id
    marker, its profile id, the bytes before the unknown marker and the
    thirty bytes behind it. *)
Record scanned : Type := mkScanned {
  gap : list byte;
  team_bytes : list byte;
  skipped : list byte;
  scanned_username : string;
  profile_gap : list byte;
  scanned_profileID : string;
  unknown_gap : list byte;
  unknown_bytes : list byte
}.

Definition encode_scanned (x : scanned) : list byte :=
  gap x ++ indicator ++ team_bytes x ++ skipped x
    ++ encode_string (scanned_username x)
    ++ profile_gap x ++ profileIDIndicator ++ encode_string (scanned_profileID x)
    ++ unknown_gap x ++ unknownIndicator ++ unknown_bytes x.

(** Each marker is met first where the record puts it, the fixed-size
    parts have their sizes, and a length byte can announce the two
    strings. *)
Definition well_laid (x : scanned) : Prop :=
  first_behind indicator (gap x)
  ∧ length (team_bytes x) = 4%nat
  ∧ length (skipped x) = 12%nat
  ∧ (String.length (scanned_username x) ≤ 255)%nat
  ∧ first_behind profileIDIndicator (profile_gap x)
  ∧ (String.length (scanned_profileID x) ≤ 255)%nat
  ∧ first_behind unknownIndicator (unknown_gap x)
  ∧ length (unknown_bytes x) = 30%nat.

(** Lines 240 to 243 and 258 to 274 for a record read off the stream. *)
Definition reconcile_scanned (ps : list Player) (x : scanned) : list Player :=
  reconcile ps (scanned_username x) (scanned_profileID x)
            (if Z.even (int32_le (team_bytes x)) then 1 else 0).

(** The two records of [sample_scan_reader]. *)
Definition sample_scanned : list scanned :=
  [mkScanned [x00] [x03; x00; x00; x00] (repeat xff 12) "bob" [] "prof-b" []
             (repeat xaa 30);
   mkScanned [x00; x01] [x04; x00; x00; x00] (repeat xff 12) "carol" [] "prof-c" []
             (repeat xaa 30)].

(** A player record of the header: the value of its playerid key and the
    pairs behind it, up to the key that closes the record or opens the
    next. *)
Definition record_pairs (rec : string * list (string * string))
  : list (string * string) :=
  ("playerid", fst rec) :: snd rec.

(** Pairs that belong to one record, with numbers where Atoi is asked. *)
Definition record_fields_ok (fields : list (string * string)) : Prop :=
  Forall (λ kv, fst kv ≠ "playerid" ∧ fst kv ≠ "playlistcategory" ∧ fst kv ≠ "id"
                ∧ (fst kv ∈ record_ints → snd (Atoi (snd kv)) = None)) fields.

(** The player that lines 71 to 130 build from a record: every field from
    the pairs of the record, the zero value where no pair has its key. *)
Definition player_of_record (rec : string * list (string * string)) : Player :=
  mkPlayer (fst rec) ""
           (field_text "playername" (snd rec) "")
           (field_int "team" (snd rec) 0)
           (field_int "heroname" (snd rec) 0)
           (field_int "alliance" (snd rec) 0)
           (field_int "roleimage" (snd rec) 0)
           (field_text "rolename" (snd rec) "")
           (field_int "roleportrait" (snd rec) 0).

(** * Properties *)

(** ** The cursor leaves the header alone *)

Lemma Read_header n r : header (snd (Read n r)) = header r.
Proof. unfold Read. by case_decide. Qed.

Lemma Seek_header pattern r : header (snd (Seek pattern r)) = header r.
Proof. unfold Seek. by destruct (seek_scan _ _ _) as [[? ?]|]. Qed.

Lemma ReadInt_header r : header (snd (ReadInt r)) = header r.
Proof.
  unfold ReadInt, try, ret. pose proof (Read_header 4 r) as H.
  by destruct (Read 4 r) as [[?|?] ?].
Qed.

Lemma ReadString_header r : header (snd (ReadString r)) = header r.
Proof.
  unfold ReadString, try, ret. pose proof (Read_header 1 r) as H.
  destruct (Read 1 r) as [[b|?] r1]; [|done]. simpl in H.
  pose proof (Read_header (Byte.to_nat (nth 0 b x00)) r1) as H1.
  destruct (Read _ r1) as [[?|?] ?]; simpl in *; congruence.
Qed.

(** ** Reconciliation *)

Lemma reconcile_range_found ps u pid t :
  fst (reconcile_range ps u pid t) = bool_decide (u ∈ map Username ps).
Proof.
  induction ps as [|p ps IH]; simpl.
  - done.
  - destruct (decide (Username p = u)) as [Hu|Hu].
    + symmetry. apply bool_decide_eq_true_2. subst u. apply list_elem_of_here.
    + destruct (reconcile_range ps u pid t) as [found ps'']. simpl in *.
      rewrite IH. apply bool_decide_ext. rewrite elem_of_cons.
      split; [by right|]. by intros [->|?].
Qed.

Lemma reconcile_range_usernames ps u pid t :
  map Username (snd (reconcile_range ps u pid t)) = map Username ps.
Proof.
  induction ps as [|p ps IH]; simpl; [done|].
  destruct (decide (Username p = u)); [done|].
  destruct (reconcile_range ps u pid t) as [found ps'']. simpl in *. by rewrite IH.
Qed.

(** The usernames of the list after a scanned record: unchanged when the
    name is known, one more at the end when it is new. *)
Lemma reconcile_usernames ps u pid t :
  map Username (reconcile ps u pid t) =
  if bool_decide (u ∈ map Username ps) then map Username ps else map Username ps ++ [u].
Proof.
  unfold reconcile.
  pose proof (reconcile_range_found ps u pid t) as Hf.
  pose proof (reconcile_range_usernames ps u pid t) as Hu.
  destruct (reconcile_range ps u pid t) as [found ps']. simpl in *. subst found.
  destruct (bool_decide _); simpl; [done|].
  by rewrite map_app, Hu.
Qed.

Lemma reconcile_NoDup ps u pid t :
  NoDup (map Username ps) → NoDup (map Username (reconcile ps u pid t)).
Proof.
  intros Hnd. rewrite reconcile_usernames.
  case_bool_decide as Hu; [done|].
  apply NoDup_app. split_and!; [done| |apply NoDup_singleton].
  intros x Hx ->%list_elem_of_singleton. done.
Qed.

(** Where the first match sits, the entry is overwritten in its two fields
    and the rest of the list is as it was. *)
Lemma reconcile_range_first ps u pid t i p :
  ps !! i = Some p → Username p = u →
  (∀ j q, (j < i)%nat → ps !! j = Some q → Username q ≠ u) →
  reconcile_range ps u pid t = (true, <[i := set_TeamIndex t (set_ProfileID pid p)]> ps).
Proof.
  revert i. induction ps as [|p0 ps IH]; intros i Hi Hp Hfirst; [done|].
  destruct i as [|i]; simpl in *.
  - inversion Hi; subst p0. by rewrite decide_True.
  - rewrite decide_False by (apply (Hfirst 0%nat); [lia|done]).
    rewrite (IH i); [done..|].
    intros j q Hj Hq. apply (Hfirst (S j)); [lia|done].
Qed.

Lemma reconcile_range_none ps u pid t :
  u ∉ map Username ps → reconcile_range ps u pid t = (false, ps).
Proof.
  induction ps as [|p ps IH]; intros Hu; [done|]. simpl in *.
  rewrite not_elem_of_cons in Hu. destruct Hu as [Hne Hu].
  rewrite decide_False by done. by rewrite IH.
Qed.

(** ** One turn of the scanner, call by call *)

Lemma readPlayers_loop_S todo c r :
  readPlayers_loop (S todo) c r =
  match Seek indicator r with
  | (Err err, r1) => if decide (err ≠ ErrMagicMismatch) then (Err err, r1) else (Ok c, r1)
  | (Ok _, r1) =>
    match ReadInt r1 with
    | (Err e, r2) => (Err e, r2)
    | (Ok teamIndicator, r2) =>
      match Read 12 r2 with
      | (Err e, r3) => (Err e, r3)
      | (Ok _, r3) =>
        match ReadString r3 with
        | (Err e, r4) => (Err e, r4)
        | (Ok username, r4) =>
          match Seek profileIDIndicator r4 with
          | (Err e, r5) => (Err e, r5)
          | (Ok _, r5) =>
            match ReadString r5 with
            | (Err e, r6) => (Err e, r6)
            | (Ok profileID, r6) =>
              let teamIndex := if decide (Z.rem teamIndicator 2 = 0) then 1 else 0 in
              let r7 := snd (reconcile_players username profileID teamIndex r6) in
              match Seek unknownIndicator r7 with
              | (Err e, r8) => (Err e, r8)
              | (Ok _, r8) =>
                match Read 30 r8 with
                | (Err e, r9) => (Err e, r9)
                | (Ok unknown, r9) => readPlayers_loop todo (c ++ [(username, unknown)]) r9
                end
              end
            end
          end
        end
      end
    end
  end.
Proof.
  cbn [readPlayers_loop]. unfold try, bind.
  repeat match goal with
         | |- context [match ?m ?x with _ => _ end] =>
             lazymatch m with
             | Seek _ => idtac | ReadInt => idtac | Read _ => idtac | ReadString => idtac
             end;
             destruct (m x) as [[?|?] ?]; try reflexivity
         end.
Qed.

(** What one turn comes to: it goes on to the next turn after one
    reconciliation, or it stops, with an error or with the collector as it
    was, the list of players being as before or reconciled once. *)
Lemma readPlayers_loop_turn todo c r :
  let res := readPlayers_loop (S todo) c r in
  (∃ u pid t unk r9,
      (t = 0 ∨ t = 1)
      ∧ header r9 = set_Players (reconcile (Players (header r)) u pid t) (header r)
      ∧ res = readPlayers_loop todo (c ++ [(u, unk)]) r9)
  ∨ (((∃ e, fst res = Err e) ∨ fst res = Ok c)
     ∧ (header (snd res) = header r
        ∨ ∃ u pid t, (t = 0 ∨ t = 1)
            ∧ header (snd res) =
              set_Players (reconcile (Players (header r)) u pid t) (header r))).
Proof.
  intros res. subst res. rewrite readPlayers_loop_S.
  pose proof (Seek_header indicator r) as H1.
  destruct (Seek indicator r) as [[[]|e1] r1]; cbn [snd] in H1;
    [|right; case_decide; cbn [fst snd]; eauto].
  pose proof (ReadInt_header r1) as H2.
  destruct (ReadInt r1) as [[ti|e2] r2]; cbn [snd] in H2;
    [|right; cbn [fst snd]; split; [eauto|left; congruence]].
  pose proof (Read_header 12 r2) as H3.
  destruct (Read 12 r2) as [[b|e3] r3]; cbn [snd] in H3;
    [|right; cbn [fst snd]; split; [eauto|left; congruence]].
  pose proof (ReadString_header r3) as H4.
  destruct (ReadString r3) as [[u|e4] r4]; cbn [snd] in H4;
    [|right; cbn [fst snd]; split; [eauto|left; congruence]].
  pose proof (Seek_header profileIDIndicator r4) as H5.
  destruct (Seek profileIDIndicator r4) as [[[]|e5] r5]; cbn [snd] in H5;
    [|right; cbn [fst snd]; split; [eauto|left; congruence]].
  pose proof (ReadString_header r5) as H6.
  destruct (ReadString r5) as [[pid|e6] r6]; cbn [snd] in H6;
    [|right; cbn [fst snd]; split; [eauto|left; congruence]].
  cbv zeta.
  set (t := if decide (Z.rem ti 2 = 0) then 1 else 0).
  assert (Ht : t = 0 ∨ t = 1) by (subst t; case_decide; auto).
  assert (Hr6 : header r6 = header r) by congruence.
  set (r7 := snd (reconcile_players u pid t r6)).
  assert (Hr7 : header r7 =
                set_Players (reconcile (Players (header r)) u pid t) (header r)).
  { subst r7. cbn [reconcile_players snd header]. by rewrite Hr6. }
  pose proof (Seek_header unknownIndicator r7) as H8.
  destruct (Seek unknownIndicator r7) as [[[]|e8] r8]; cbn [snd] in H8;
    [|right; cbn [fst snd]; split; [eauto|right; exists u, pid, t; split; congruence]].
  pose proof (Read_header 30 r8) as H9.
  destruct (Read 30 r8) as [[unk|e9] r9]; cbn [snd] in H9;
    [|right; cbn [fst snd]; split; [eauto|right; exists u, pid, t; split; congruence]].
  left. exists u, pid, t, unk, r9. split_and!; [done|congruence|done].
Qed.

(** A property of the list of players that every reconciliation keeps is
    kept by the scanner, whatever it returns. *)
Lemma readPlayers_loop_players (P : list Player → Prop) :
  (∀ ps u pid t, t = 0 ∨ t = 1 → P ps → P (reconcile ps u pid t)) →
  ∀ todo c r, P (Players (header r)) →
  P (Players (header (snd (readPlayers_loop todo c r)))).
Proof.
  intros HP todo. induction todo as [|todo IH]; intros c r Hr; [done|].
  destruct (readPlayers_loop_turn todo c r)
    as [(u & pid & t & unk & r9 & Ht & Hh & ->)
       |[_ [->|(u & pid & t & Ht & ->)]]]; [|done|by apply HP].
  apply IH. rewrite Hh. by apply HP.
Qed.

Lemma reconcile_length ps u pid t :
  (length (reconcile ps u pid t) ≤ length ps + 1)%nat.
Proof.
  rewrite <- (length_map Username (reconcile ps u pid t)), reconcile_usernames.
  case_bool_decide; rewrite ?length_app, !length_map; simpl; lia.
Qed.

(** The turns taken are at most the turns left: that many pushes to the
    collector, that many new players. *)
Lemma readPlayers_loop_bound todo c r :
  (length (Players (header (snd (readPlayers_loop todo c r))))
     ≤ length (Players (header r)) + todo)%nat
  ∧ ∀ c', fst (readPlayers_loop todo c r) = Ok c' →
          (length c ≤ length c' ≤ length c + todo)%nat.
Proof.
  revert c r. induction todo as [|todo IH]; intros c r.
  { cbn. split; [lia|]. intros c' [= ->]. lia. }
  pose proof (reconcile_length (Players (header r))) as Hl.
  destruct (readPlayers_loop_turn todo c r)
    as [(u & pid & t & unk & r9 & Ht & Hh & ->)|[Hf Hs]].
  - destruct (IH (c ++ [(u, unk)]) r9) as [IH1 IH2]. rewrite Hh in IH1. cbn in IH1.
    specialize (Hl u pid t). split; [lia|].
    intros c' Hc'. apply IH2 in Hc'. rewrite length_app in Hc'. simpl in Hc'. lia.
  - split.
    + destruct Hs as [->|(u & pid & t & _ & ->)]; [lia|]. cbn.
      specialize (Hl u pid t). lia.
    + intros c' Hc'. rewrite Hc' in Hf. destruct Hf as [[e [=]]|[= ->]]. lia.
Qed.

Lemma readPlayers_loop_snd r :
  snd (readPlayers r) = snd (readPlayers_loop 10 [] r).
Proof. unfold readPlayers. by destruct (readPlayers_loop 10 [] r) as [[?|?] ?]. Qed.

(** ** The scanner and the list of players *)

Lemma reconcile_elem ps u pid t q :
  q ∈ reconcile ps u pid t → q ∈ ps ∨ TeamIndex q = t.
Proof.
  unfold reconcile.
  assert (Hr : ∀ q, q ∈ snd (reconcile_range ps u pid t) → q ∈ ps ∨ TeamIndex q = t).
  { clear q. induction ps as [|p ps IH]; intros q; simpl; [auto|].
    destruct (decide (Username p = u)).
    - simpl. rewrite !elem_of_cons. intros [->|?]; auto.
    - destruct (reconcile_range ps u pid t) as [found ps'']. simpl in *.
      rewrite !elem_of_cons. intros [->|?%IH]; tauto. }
  destruct (reconcile_range ps u pid t) as [found ps']. simpl in Hr.
  destruct found; simpl; [apply Hr|].
  rewrite elem_of_app, list_elem_of_singleton. intros [?%Hr| ->]; auto.
Qed.

(** C10. The reconciliation overwrites ProfileID and TeamIndex of the first
    player whose username is the scanned one, and nothing else: that entry
    keeps its other fields, every other entry, a later one of the same
    username included, is as it was, and the list keeps its length. *)
Theorem reconcile_first_match_only ps u pid t i p :
  ps !! i = Some p → Username p = u →
  (∀ j q, (j < i)%nat → ps !! j = Some q → Username q ≠ u) →
  reconcile ps u pid t !! i =
    Some (mkPlayer (ID p) pid (Username p) t (HeroName p) (Alliance p)
                   (RoleImage p) (RoleName p) (RolePortrait p))
  ∧ length (reconcile ps u pid t) = length ps
  ∧ ∀ j, j ≠ i → reconcile ps u pid t !! j = ps !! j.
Proof.
  intros Hi Hp Hfirst. unfold reconcile.
  rewrite (reconcile_range_first ps u pid t i p Hi Hp Hfirst). simpl.
  split_and!.
  - rewrite list_lookup_insert_eq; [done|]. by eapply lookup_lt_Some.
  - apply length_insert.
  - intros j Hj. by rewrite list_lookup_insert_ne.
Qed.

(** C1, as stated, fails: two players of the header with one username both
    stay in the list of a successful decode, the scanner enriching the
    first of them only. *)
Lemma decode_keeps_twins :
  ∃ h, decode sample_strSep sample_time_Parse (reader_of sample_twins) = Some (Ok h)
       ∧ map Username (Players h) = ["alice"; "alice"]
       ∧ map ProfileID (Players h) = ["prof-a"; ""]
       ∧ ¬ NoDup (map Username (Players h)).
Proof.
  eexists. split; [vm_compute; reflexivity|].
  split; [reflexivity|]. split; [reflexivity|].
  simpl. intros [Hn _]%NoDup_cons. apply Hn. apply list_elem_of_here.
Qed.

(** C2, as stated, fails: a team value 5 in the header stays the team index
    of its player through a successful decode. *)
Lemma decode_keeps_team5 :
  ∃ h p, decode sample_strSep sample_time_Parse (reader_of sample_team5) = Some (Ok h)
         ∧ p ∈ Players h ∧ TeamIndex p = 5
         ∧ ¬ (TeamIndex p = 0 ∨ TeamIndex p = 1).
Proof.
  eexists. exists (mkPlayer "p1" "" "alice" 5 0 0 0 "" 0).
  split; [vm_compute; reflexivity|].
  split; [apply list_elem_of_here|]. split; [reflexivity|].
  simpl. intros [?|?]; discriminate.
Qed.

Lemma reconcile_first_match_only_witness :
  [sample_alice; sample_bob; sample_bob'] !! 1%nat = Some sample_bob
  ∧ reconcile [sample_alice; sample_bob; sample_bob'] "bob" "prof-b" 1 !! 1%nat =
      Some (mkPlayer "p2" "prof-b" "bob" 1 5 0 6 "MUTE" 7)
  ∧ length (reconcile [sample_alice; sample_bob; sample_bob'] "bob" "prof-b" 1) = 3%nat
  ∧ ∀ j, j ≠ 1%nat →
      reconcile [sample_alice; sample_bob; sample_bob'] "bob" "prof-b" 1 !! j =
      [sample_alice; sample_bob; sample_bob'] !! j.
Proof.
  split; [reflexivity|].
  apply (reconcile_first_match_only [sample_alice; sample_bob; sample_bob']
           "bob" "prof-b" 1 1%nat sample_bob); [reflexivity|reflexivity|].
  intros j q Hj Hq. destruct j as [|j]; [|lia].
  simpl in Hq. inversion Hq. discriminate.
Defined.

(** ** The scanner and its errors *)

Lemma readPlayers_of_loop r :
  readPlayers r =
  match readPlayers_loop 10 [] r with
  | (Ok _, r') => (Ok tt, r')
  | (Err e, r') => (Err e, r')
  end.
Proof. reflexivity. Qed.

(** An error of the scanner is the error of the decode. *)
Lemma decode_readPlayers_Err strSep time_Parse r r1 h r2 e r3 :
  readHeaderMagic r = Some (Ok tt, r1) →
  readHeader strSep time_Parse r1 = Some ((h, None), r2) →
  readPlayers (mkReader (compressed r2) (offset r2) h) = (Err e, r3) →
  decode strSep time_Parse r = Some (Err e).
Proof. intros H1 H2 H3. unfold decode. by rewrite H1, H2, H3. Qed.

(** Of eleven records in a row the scanner takes ten and leaves the
    eleventh unread. *)
Example readPlayers_ten_of_eleven :
  fst (readPlayers (reader_of sample_eleven)) = Ok tt
  ∧ map Username (Players (header (snd (readPlayers (reader_of sample_eleven))))) =
    ["p0"; "p1"; "p2"; "p3"; "p4"; "p5"; "p6"; "p7"; "p8"; "p9"]
  ∧ avail (compressed (snd (readPlayers (reader_of sample_eleven)))) =
    encode_record [x02; x00; x00; x00] "p10" "prof".
Proof. split_and!; vm_compute; reflexivity. Qed.



(** A whole file whose second record is cut off after the username: the
    decode fails with the signal that would have ended the scan cleanly
    one call earlier. *)
Example decode_cut_record :
  decode sample_strSep sample_time_Parse (reader_of sample_file_cut) =
  Some (Err ErrMagicMismatch).
Proof. vm_compute. reflexivity. Qed.

(** ** Header strings and pairs on the stream *)

Lemma len_byte_to_nat n : (n ≤ 255)%nat → Byte.to_nat (len_byte n) = n.
Proof.
  intros Hn. unfold len_byte.
  destruct (Byte.of_nat n) as [b|] eqn:Hb.
  - by apply Byte.to_of_nat.
  - apply Byte.of_nat_None_iff in Hb. lia.
Qed.

Lemma length_list_byte_of_string s :
  length (list_byte_of_string s) = String.length s.
Proof.
  unfold list_byte_of_string. rewrite length_map.
  induction s as [|c s IH]; simpl; [done|]. by rewrite IH.
Qed.

Lemma advance_advance n m r : advance m (advance n r) = advance (n + m) r.
Proof.
  unfold advance. simpl. rewrite drop_drop. f_equal. lia.
Qed.

Lemma Read_app n r pre rest :
  avail (compressed r) = pre ++ rest → length pre = n →
  Read n r = (Ok pre, advance n r).
Proof.
  intros Hr Hn. unfold Read, advance. rewrite Hr.
  rewrite decide_True by (rewrite length_app; lia).
  by rewrite take_app_length' by done.
Qed.

Lemma advance_avail n r pre rest :
  avail (compressed r) = pre ++ rest → length pre = n →
  avail (compressed (advance n r)) = rest.
Proof. intros Hr Hn. simpl. rewrite Hr. by apply drop_app_length'. Qed.

Section HeaderStream.

Variable strSep : list byte.
Hypothesis strSep_len : length strSep = 7%nat.

Lemma readHeaderString_encode s rest r :
  (String.length s ≤ 255)%nat →
  avail (compressed r) = encode_header_string strSep s ++ rest →
  readHeaderString strSep r = (Ok s, advance (8 + String.length s) r).
Proof.
  intros Hs Hr. unfold readHeaderString, try, ret.
  assert (H0 : avail (compressed r) =
               [len_byte (String.length s)] ++ strSep ++ list_byte_of_string s ++ rest).
  { rewrite Hr. unfold encode_header_string. simpl. by rewrite <- app_assoc. }
  rewrite (Read_app 1 r _ _ H0 eq_refl).
  cbn [nth]. rewrite len_byte_to_nat by done.
  assert (H1 : avail (compressed (advance 1 r)) =
               strSep ++ list_byte_of_string s ++ rest).
  { by apply (advance_avail 1 r [len_byte (String.length s)]). }
  rewrite (Read_app 7 _ _ _ H1 strSep_len).
  rewrite decide_False by auto.
  assert (H2 : avail (compressed (advance 7 (advance 1 r))) =
               list_byte_of_string s ++ rest).
  { by apply (advance_avail 7 _ strSep). }
  rewrite (Read_app (String.length s) _ _ _ H2 (length_list_byte_of_string s)).
  rewrite string_of_list_byte_of_string, !advance_advance. done.
Qed.

Lemma length_encode_header_string s :
  length (encode_header_string strSep s) = (8 + String.length s)%nat.
Proof.
  unfold encode_header_string. simpl.
  rewrite length_app, length_list_byte_of_string. lia.
Qed.

(** One turn of the loop on a pair laid out on the stream. *)
Lemma readHeader_loop_pair fuel k v rest s r :
  (String.length k ≤ 255)%nat → (String.length v ≤ 255)%nat →
  avail (compressed r) = encode_pair strSep (k, v) ++ rest →
  let r' := advance (length (encode_pair strSep (k, v))) r in
  avail (compressed r') = rest
  ∧ readHeader_loop strSep (S fuel) s r =
    match header_pair k v s with
    | Err e => Some (Err e, r')
    | Ok s' => if lastProp s' then Some (Ok s', r') else readHeader_loop strSep fuel s' r'
    end.
Proof.
  intros Hk Hv Hr r'.
  assert (Hrest : avail (compressed r') = rest).
  { subst r'. by apply (advance_avail _ r (encode_pair strSep (k, v))). }
  split; [done|].
  unfold encode_pair in *. cbn [fst snd] in *. rewrite <- app_assoc in Hr.
  cbn [readHeader_loop].
  rewrite (readHeaderString_encode k _ r Hk Hr).
  assert (H1 : avail (compressed (advance (8 + String.length k) r)) =
               encode_header_string strSep v ++ rest).
  { apply (advance_avail _ r (encode_header_string strSep k)); [done|].
    apply length_encode_header_string. }
  rewrite (readHeaderString_encode v _ _ Hv H1), advance_advance.
  subst r'. by rewrite length_app, !length_encode_header_string.
Qed.

Lemma encode_pairs_cons kv kvs :
  encode_pairs strSep (kv :: kvs) = encode_pair strSep kv ++ encode_pairs strSep kvs.
Proof. reflexivity. Qed.

Lemma encode_pairs_app kvs kvs' :
  encode_pairs strSep (kvs ++ kvs') = encode_pairs strSep kvs ++ encode_pairs strSep kvs'.
Proof. unfold encode_pairs. by rewrite map_app, concat_app. Qed.

Lemma length_encode_pairs kvs : (length kvs ≤ length (encode_pairs strSep kvs))%nat.
Proof.
  induction kvs as [|kv kvs IH]; [done|].
  rewrite encode_pairs_cons, length_app. unfold encode_pair.
  rewrite length_app, !length_encode_header_string. simpl. lia.
Qed.

(** The loop on pairs laid out on the stream does what [header_pairs] does
    on the pairs, and has read exactly the pairs that [header_pairs] has
    used. *)
Lemma readHeader_loop_pairs kvs fuel s r rest :
  Forall short_pair kvs →
  avail (compressed r) = encode_pairs strSep kvs ++ rest →
  ∃ n, match header_pairs kvs s with
       | Stopped s' unread =>
           readHeader_loop strSep (length kvs + fuel) s r = Some (Ok s', advance n r)
           ∧ avail (compressed (advance n r)) = encode_pairs strSep unread ++ rest
       | Failed e unread =>
           readHeader_loop strSep (length kvs + fuel) s r = Some (Err e, advance n r)
           ∧ avail (compressed (advance n r)) = encode_pairs strSep unread ++ rest
       | Running s' =>
           readHeader_loop strSep (length kvs + fuel) s r =
           readHeader_loop strSep fuel s' (advance n r)
           ∧ avail (compressed (advance n r)) = rest
       end.
Proof.
  revert s r. induction kvs as [|[k v] kvs IH]; intros s r Hshort Hr.
  { exists 0%nat. simpl. split; [|by rewrite drop_0].
    f_equal. unfold advance. rewrite drop_0, Z.add_0_r. by destruct r as [[? ?] ? ?]. }
  apply Forall_cons in Hshort as [[Hk Hv] Hshort]. cbn [fst snd] in Hk, Hv.
  rewrite encode_pairs_cons, <- app_assoc in Hr.
  destruct (readHeader_loop_pair (length kvs + fuel) k v _ s r Hk Hv Hr) as [Hrest Hloop].
  cbn [length Nat.add header_pairs]. rewrite Hloop.
  destruct (header_pair k v s) as [s'|e]; [|by eexists].
  destruct (lastProp s'); [by eexists|].
  destruct (IH s' _ Hshort Hrest) as [n Hn].
  exists (length (encode_pair strSep (k, v)) + n)%nat.
  by rewrite <- advance_advance.
Qed.

End HeaderStream.

(** ** The grouping of player records *)

(** C4. A pair with key playlistcategory or id that is read inside a player
    record closes the record: the player in progress is appended, the loop
    is back among the top-level properties, and the same pair is stored in
    the property map in the same turn. *)
Theorem header_pair_terminator k v s :
  k = "playlistcategory" ∨ k = "id" →
  playerData s = true →
  header_pair k v s =
  Ok (mkHstate (<[k := v]> (props s)) (gmSettings s)
               (players s ++ [currentPlayer s]) (currentPlayer s) false).
Proof.
  intros Hk Hpd. unfold header_pair.
  destruct Hk as [-> | ->]; simpl; rewrite Hpd; reflexivity.
Qed.

Lemma header_pair_terminator_witness :
  header_pair "id" "m-1" (mkHstate {["version" := "Y8S1"]} [] [sample_alice] sample_bob true) =
  Ok (mkHstate (<["id" := "m-1"]> {["version" := "Y8S1"]}) []
               [sample_alice; sample_bob] sample_bob false).
Proof.
  exact (header_pair_terminator "id" "m-1"
           (mkHstate {["version" := "Y8S1"]} [] [sample_alice] sample_bob true)
           (or_intror eq_refl) eq_refl).
Defined.

Arguments Atoi : simpl never.

Lemma header_pairs_step k v kvs s s' :
  header_pair k v s = Ok s' → props s' !! "teamscore1" = None →
  header_pairs ((k, v) :: kvs) s = header_pairs kvs s'.
Proof.
  intros Hp Hts. cbn [header_pairs]. rewrite Hp. unfold lastProp.
  rewrite Hts. by rewrite bool_decide_eq_false_2 by (by intros [? ?]).
Qed.

Lemma header_pair_in_record k v s :
  playerData s = true → k ≠ "playlistcategory" → k ≠ "id" →
  header_pair k v s =
  let set_current p :=
    Ok (mkHstate (props s) (gmSettings s)
                 (if decide (k = "playerid") then players s ++ [currentPlayer s] else players s)
                 p true) in
  let cur := if decide (k = "playerid") then Player0 else currentPlayer s in
  let atoi_current (set : Z → Player → Player) :=
    match Atoi v with
    | (_, Some e) => Err e
    | (n, None) => set_current (set n cur)
    end in
  if decide (k = "playerid") then set_current (set_ID v cur)
  else if decide (k = "playername") then set_current (set_Username v cur)
  else if decide (k = "team") then atoi_current set_TeamIndex
  else if decide (k = "heroname") then atoi_current set_HeroName
  else if decide (k = "alliance") then atoi_current set_Alliance
  else if decide (k = "roleimage") then atoi_current set_RoleImage
  else if decide (k = "rolename") then set_current (set_RoleName v cur)
  else if decide (k = "roleportrait") then atoi_current set_RolePortrait
  else Ok s.
Proof.
  intros Hpd Hk1 Hk2. unfold header_pair. destruct s as [ps gm pl cur pd].
  cbn [playerData props gmSettings players currentPlayer] in *. subst pd.
  rewrite (bool_decide_eq_false_2 _ Hk1), (bool_decide_eq_false_2 _ Hk2).
  destruct (decide (k = "playerid")) as [->|Hk0].
  - cbn. reflexivity.
  - cbn [orb andb negb playerData props gmSettings players currentPlayer].
    repeat (case_decide; [reflexivity|]). reflexivity.
Qed.

Lemma header_pair_closes_record k v s :
  k = "playlistcategory" ∨ k = "id" →
  playerData s = true →
  header_pair k v s =
  Ok (mkHstate (<[k := v]> (props s)) (gmSettings s)
               (players s ++ [currentPlayer s]) (currentPlayer s) false).
Proof.
  intros Hk Hpd. unfold header_pair.
  destruct Hk as [-> | ->]; simpl; rewrite Hpd; reflexivity.
Qed.

Ltac pair_step :=
  erewrite header_pairs_step;
  [| rewrite header_pair_in_record by done; simpl;
     repeat match goal with H : Atoi _ = _ |- _ => rewrite H end; reflexivity
   | cbn [props]; assumption ].

(** ** Where the loop of readHeader stops *)

Lemma header_pairs_app used more s s0 :
  header_pairs used s = Running s0 →
  header_pairs (used ++ more) s = header_pairs more s0.
Proof.
  revert s. induction used as [|[k v] used IH]; intros s H; simpl in *.
  - by inversion H.
  - destruct (header_pair k v s) as [s1|e]; [|done].
    destruct (lastProp s1); [done|]. by apply IH.
Qed.

Lemma lastProp_false s : lastProp s = false → props s !! "teamscore1" = None.
Proof.
  unfold lastProp. intros H%bool_decide_eq_false.
  destruct (props s !! "teamscore1") eqn:E; [|done]. destruct H. eauto.
Qed.

Lemma lastProp_true s : lastProp s = true → is_Some (props s !! "teamscore1").
Proof. unfold lastProp. by intros H%bool_decide_eq_true. Qed.

(** While the loop runs, teamscore1 is not in the property map. *)
Lemma header_pairs_Running kvs s s' :
  props s !! "teamscore1" = None →
  header_pairs kvs s = Running s' → props s' !! "teamscore1" = None.
Proof.
  revert s. induction kvs as [|[k v] kvs IH]; intros s Hs H; simpl in *.
  - by inversion H; subst.
  - destruct (header_pair k v s) as [s1|e]; [|done].
    destruct (lastProp s1) eqn:E; [done|].
    apply (IH s1); [by apply lastProp_false|done].
Qed.

(** Where the loop stops: at the pair that brought teamscore1 into the
    property map, the pairs before it having left it out. *)
Lemma header_pairs_Stopped kvs s s' unread :
  header_pairs kvs s = Stopped s' unread →
  is_Some (props s' !! "teamscore1")
  ∧ ∃ used k v s0,
      kvs = used ++ (k, v) :: unread
      ∧ header_pairs used s = Running s0
      ∧ header_pair k v s0 = Ok s'
      ∧ (props s !! "teamscore1" = None → props s0 !! "teamscore1" = None).
Proof.
  revert s. induction kvs as [|[k v] kvs IH]; intros s H; simpl in *; [done|].
  destruct (header_pair k v s) as [s1|e] eqn:Hp; [|done].
  destruct (lastProp s1) eqn:E.
  - inversion H; subst. split; [by apply lastProp_true|].
    exists [], k, v, s. by split_and!.
  - destruct (IH s1 H) as [Hsome (used & k' & v' & s0 & -> & Hrun & Hp' & Hfirst)].
    split; [done|]. exists ((k, v) :: used), k', v', s0. split_and!; [done| |done|].
    + simpl. by rewrite Hp, E.
    + intros _. apply Hfirst. by apply lastProp_false.
Qed.

Lemma header_pair_teamscore1 v s :
  playerData s = false →
  header_pair "teamscore1" v s =
  Ok (mkHstate (<["teamscore1" := v]> (props s)) (gmSettings s) (players s)
               (currentPlayer s) false).
Proof. intros Hpd. unfold header_pair. simpl. by rewrite Hpd. Qed.

(** ** The assembled header *)

Section HeaderAssembly.

Variable time_Parse : string -> string -> Z * option error.

Ltac atoi_case k :=
  match goal with
  | |- context [Atoi (prop ?props k)] =>
      let n := fresh "n" in let e := fresh "e" in
      destruct (Atoi (prop props k)) as [n [e|]]; simpl in *;
      try solve [done | intuition discriminate]
  end.

Ltac assemble_cases :=
  unfold readHeader_assemble, orReturn;
  atoi_case "code";
  match goal with
  | |- context [time_Parse ?l ?v] =>
      destruct (time_Parse l v) as [? [?|]]; simpl in *;
      try solve [done | intuition discriminate]
  end;
  atoi_case "matchtype"; atoi_case "worldid"; atoi_case "gamemodeid";
  atoi_case "roundspermatch"; atoi_case "roundspermatchovertime";
  atoi_case "roundnumber"; atoi_case "overtimeroundnumber";
  atoi_case "playlistcategory"; atoi_case "teamscore0"; atoi_case "teamscore1".

(** The header that comes out when nothing fails, field by field. *)
Lemma readHeader_assemble_None props players gmSettings :
  snd (readHeader_assemble time_Parse props players gmSettings) = None →
  fst (readHeader_assemble time_Parse props players gmSettings) =
  mkHeader (prop props "version")
           (fst (Atoi (prop props "code")))
           (fst (time_Parse "2006-01-02-15-04-05" (prop props "datetime")))
           (fst (Atoi (prop props "matchtype")))
           (fst (Atoi (prop props "worldid")))
           (prop props "recordingplayerid")
           (prop props "recordingprofileid")
           (prop props "additionaltags")
           (fst (Atoi (prop props "gamemodeid")))
           (fst (Atoi (prop props "roundspermatch")))
           (fst (Atoi (prop props "roundspermatchovertime")))
           (fst (Atoi (prop props "roundnumber")))
           (fst (Atoi (prop props "overtimeroundnumber")))
           (mkTeam (prop props "teamname0") (fst (Atoi (prop props "teamscore0"))),
            mkTeam (prop props "teamname1") (fst (Atoi (prop props "teamscore1"))))
           (fst (Atoi (prop props "playlistcategory")))
           (prop props "id")
           gmSettings players.
Proof. assemble_cases. Qed.



End HeaderAssembly.



(** ** readHeader on a stream of pairs *)

Section HeaderOnStream.

Variable strSep : list byte.
Hypothesis strSep_len : length strSep = 7%nat.
Variable time_Parse : string -> string -> Z * option error.

(** What readHeader returns on pairs laid out on the stream, and where it
    leaves the reader: the locals at the stop go into the assembly, a
    failure of a turn comes back with the empty header. *)
Lemma readHeader_pairs kvs rest r :
  Forall short_pair kvs →
  avail (compressed r) = encode_pairs strSep kvs ++ rest →
  match header_pairs kvs hstate0 with
  | Stopped s unread =>
      ∃ r', readHeader strSep time_Parse r =
            Some (readHeader_assemble time_Parse (props s) (players s) (gmSettings s), r')
            ∧ readHeader_loop strSep (S (length (avail (compressed r)))) hstate0 r =
              Some (Ok s, r')
            ∧ avail (compressed r') = encode_pairs strSep unread ++ rest
  | Failed e unread =>
      ∃ r', readHeader strSep time_Parse r = Some ((Header0, Some e), r')
            ∧ avail (compressed r') = encode_pairs strSep unread ++ rest
  | Running _ => True
  end.
Proof.
  intros Hshort Hr.
  pose proof (length_encode_pairs strSep strSep_len kvs) as Hlen.
  assert (Hfuel : S (length (avail (compressed r))) =
                  (length kvs + (S (length (avail (compressed r))) - length kvs))%nat).
  { rewrite Hr, length_app. lia. }
  destruct (readHeader_loop_pairs strSep strSep_len kvs
              (S (length (avail (compressed r))) - length kvs) hstate0 r rest Hshort Hr)
    as [n Hn].
  unfold readHeader. rewrite Hfuel.
  destruct (header_pairs kvs hstate0) as [s unread|e unread|s]; [| |done].
  - destruct Hn as [-> Hav]. eauto.
  - destruct Hn as [-> Hav]. eauto.
Qed.

End HeaderOnStream.

(** C5. On a stream of pairs the loop of readHeader stops in the turn that
    reads the pair by which teamscore1 first enters the property map: that
    pair is in the map at the stop, the pairs behind it are left on the
    stream, and a stop of the loop is always of this kind. The header
    assembled from a map with teamscore0 = 3 and teamscore1 = 1 has the
    scores 3 and 1. *)
Theorem readHeader_stops_at_teamscore1 strSep time_Parse :
  length strSep = 7%nat →
  (∀ kvs v unread rest r s,
     Forall short_pair kvs → (String.length v ≤ 255)%nat →
     avail (compressed r) =
       encode_pairs strSep (kvs ++ ("teamscore1", v) :: unread) ++ rest →
     header_pairs kvs hstate0 = Running s →
     playerData s = false →
     let s' := mkHstate (<["teamscore1" := v]> (props s)) (gmSettings s) (players s)
                        (currentPlayer s) false in
     props s !! "teamscore1" = None
     ∧ ∃ r',
         readHeader_loop strSep (S (length (avail (compressed r)))) hstate0 r =
           Some (Ok s', r')
         ∧ avail (compressed r') = encode_pairs strSep unread ++ rest
         ∧ readHeader strSep time_Parse r =
           Some (readHeader_assemble time_Parse (props s') (players s) (gmSettings s), r')
         ∧ ∀ h, readHeader_assemble time_Parse (props s') (players s) (gmSettings s) =
                  (h, None) →
                props s !! "teamscore0" = Some "3" → v = "1" →
                Score (fst (Teams h)) = 3 ∧ Score (snd (Teams h)) = 1)
  ∧ (∀ kvs rest r s' unread,
       Forall short_pair kvs →
       avail (compressed r) = encode_pairs strSep kvs ++ rest →
       header_pairs kvs hstate0 = Stopped s' unread →
       (∃ r', readHeader_loop strSep (S (length (avail (compressed r)))) hstate0 r =
                Some (Ok s', r')
              ∧ avail (compressed r') = encode_pairs strSep unread ++ rest)
       ∧ ∃ used k v s0,
           kvs = used ++ (k, v) :: unread
           ∧ header_pairs used hstate0 = Running s0
           ∧ props s0 !! "teamscore1" = None
           ∧ header_pair k v s0 = Ok s'
           ∧ is_Some (props s' !! "teamscore1")).
Proof.
  intros Hsep. split.
  - intros kvs v unread rest r s Hshort Hv Hr Hrun Hpd s'.
    assert (Hts : props s !! "teamscore1" = None)
      by (by apply (header_pairs_Running kvs hstate0 s)).
    split; [done|].
    assert (Hstop : header_pairs (kvs ++ [("teamscore1", v)]) hstate0 = Stopped s' []).
    { rewrite (header_pairs_app kvs _ hstate0 s Hrun). cbn [header_pairs].
      rewrite header_pair_teamscore1 by done. fold s'.
      unfold lastProp. subst s'. cbn [props].
      rewrite lookup_insert_eq. by rewrite bool_decide_eq_true_2 by eauto. }
    assert (Hshort' : Forall short_pair (kvs ++ [("teamscore1", v)])).
    { apply Forall_app. split; [done|]. apply Forall_singleton. split; simpl; lia. }
    assert (Hr' : avail (compressed r) =
                  encode_pairs strSep (kvs ++ [("teamscore1", v)])
                    ++ encode_pairs strSep unread ++ rest).
    { rewrite Hr, app_assoc, <- encode_pairs_app, <- app_assoc. done. }
    pose proof (readHeader_pairs strSep Hsep time_Parse _ _ r Hshort' Hr') as H.
    rewrite Hstop in H. destruct H as (r' & Hread & Hloop & Hav).
    exists r'. split_and!; [done|done|done|].
    intros h Hh H0 ->.
    pose proof (readHeader_assemble_None time_Parse (props s') (players s) (gmSettings s))
      as Hfields.
    rewrite Hh in Hfields. specialize (Hfields eq_refl). simpl in Hfields.
    subst h s'. cbn [Teams fst snd Score props]. unfold prop.
    rewrite lookup_insert_ne by done. rewrite H0, lookup_insert_eq. done.
  - intros kvs rest r s' unread Hshort Hr Hstop.
    pose proof (readHeader_pairs strSep Hsep time_Parse _ _ r Hshort Hr) as H.
    rewrite Hstop in H. destruct H as (r' & Hread & Hloop & Hav).
    split; [eauto|].
    destruct (header_pairs_Stopped kvs hstate0 s' unread Hstop)
      as [Hsome (used & k & v & s0 & -> & Hrun & Hp & Hfirst)].
    exists used, k, v, s0. split_and!; [done|done| |done|done].
    by apply Hfirst.
Qed.

Ltac short_pairs :=
  repeat (constructor; [split; simpl; lia|]); constructor.

Lemma readHeader_stops_at_teamscore1_witness :
  ∃ h r',
    readHeader sample_strSep sample_time_Parse (reader_of sample_header_stream) =
      Some ((h, None), r')
    ∧ avail (compressed r') = encode_pairs sample_strSep [("extra", "x")] ++ [x07]
    ∧ Score (fst (Teams h)) = 3 ∧ Score (snd (Teams h)) = 1
    ∧ map ID (Players h) = ["p1"; "p2"].
Proof.
  pose (s := match header_pairs sample_two_players hstate0 with
             | Running s => s
             | _ => hstate0
             end).
  destruct (proj1 (readHeader_stops_at_teamscore1 sample_strSep sample_time_Parse eq_refl)
              sample_two_players "1" [("extra", "x")] [x07]
              (reader_of sample_header_stream) s)
    as [_ (r' & Hloop & Hav & Hread & Hscore)].
  - unfold sample_two_players, sample_props. simpl. short_pairs.
  - simpl. lia.
  - reflexivity.
  - vm_compute. reflexivity.
  - vm_compute. reflexivity.
  - eexists. exists r'. split; [rewrite Hread; vm_compute; reflexivity|].
    split; [exact Hav|].
    split_and!; [eapply Hscore; vm_compute; reflexivity
                |eapply Hscore; vm_compute; reflexivity
                |reflexivity].
Defined.



(** A header whose code version is a word: readHeader returns the error of
    Atoi, next to the header as far as it was filled. *)
Example readHeader_code_word :
  fst <$> readHeader sample_strSep sample_time_Parse
            (reader_of (encode_pairs sample_strSep
                          (sample_props ++ ("code", "x7") :: sample_tail))) =
  Some (set_GameVersion "Y8S1" Header0, Some (NumError "Atoi" "x7" ErrSyntax)).
Proof. vm_compute. reflexivity. Qed.

(** A playlist category that is a numeral beyond the range of int is
    tolerated as well, and the field then holds the bound that Atoi returns
    with its range error. *)
Example readHeader_category_out_of_range :
  (λ res, (PlaylistCategory (fst res), snd res)) <$>
    (fst <$> readHeader sample_strSep sample_time_Parse
               (reader_of (encode_pairs sample_strSep
                             (sample_props
                                ++ ("playlistcategory", "99999999999999999999")
                                :: sample_tail)))) =
  Some (2 ^ 63 - 1, None).
Proof. vm_compute. reflexivity. Qed.

(** ** The scan of readHeaderMagic *)

(** The loop on the reader is the scan on its bytes. *)
Lemma readHeaderMagic_loop_scan fuel n t bs f o h :
  (length bs < fuel)%nat →
  readHeaderMagic_loop fuel n t (mkReader (mkSource bs f) o h) =
  Some (match scan_zeros bs n t with
        | Some k => (Ok tt, mkReader (mkSource (drop k bs) f) (o + Z.of_nat k) h)
        | None => (Err (default EOF f),
                   mkReader (mkSource [] f) (o + Z.of_nat (length bs)) h)
        end).
Proof.
  revert n t bs o. induction fuel as [|fuel IH]; intros n t bs o Hfuel; [lia|].
  destruct bs as [|b bs]; cbn [readHeaderMagic_loop scan_zeros];
    (destruct (decide (t ≠ 2)) as [Ht|Ht];
     [|by cbn [drop Z.of_nat]; rewrite Z.add_0_r]); [done|].
  unfold compressed_Read, add_offset. cbn [compressed avail fault offset header].
  cbn [take drop length Z.of_nat]. simpl in Hfuel.
  rewrite decide_False by (intros ?; done). cbn [nth].
  assert (Hgo : ∀ n' t',
    readHeaderMagic_loop fuel n' t' (mkReader (mkSource bs f) (o + 1) h) =
    Some (match S <$> scan_zeros bs n' t' with
          | Some k => (Ok tt, mkReader (mkSource (drop k (b :: bs)) f) (o + Z.of_nat k) h)
          | None => (Err (default EOF f),
                     mkReader (mkSource [] f) (o + Z.of_nat (length (b :: bs))) h)
          end)).
  { intros n' t'. rewrite IH by lia.
    destruct (scan_zeros bs n' t') as [k|]; cbn [fmap option_fmap option_map drop length].
    - by replace (o + 1 + Z.of_nat k) with (o + Z.of_nat (S k)) by lia.
    - by replace (o + 1 + Z.of_nat (length bs)) with (o + Z.of_nat (S (length bs))) by lia. }
  repeat case_decide; apply Hgo.
Qed.


Lemma zeros_shift m (l : list byte) :
  repeat x00 (S m) ++ l = repeat x00 m ++ x00 :: l.
Proof. cbn [repeat]. by rewrite (repeat_cons m x00), <- app_assoc. Qed.

Lemma suffix_zeros_length (l : list byte) :
  repeat x00 7 `suffix_of` l → (7 ≤ length l)%nat.
Proof. intros H%suffix_length. by rewrite repeat_length in H. Qed.

(** Seven zero bytes at the end of a sequence lie behind its last non-zero
    byte. *)
Lemma suffix_zeros_nonzero (l : list byte) b q :
  b ≠ x00 → repeat x00 7 `suffix_of` l ++ b :: q → repeat x00 7 `suffix_of` q.
Proof.
  intros Hb. induction l as [|a l IH]; cbn [app repeat]; intros H.
  - apply suffix_cons_inv in H as [[= ? _]|H]; [congruence|done].
  - apply suffix_cons_inv in H as [[= _ H]|H]; [|by apply IH].
    assert (Hin : In b (repeat x00 6)) by (cbn [repeat] in *; rewrite H; apply in_elt).
    apply repeat_spec in Hin. congruence.
Qed.

Lemma block_after_nonempty n p : (n ≤ 6)%nat → block_after n p → p ≠ [].
Proof.
  intros Hn [Hs _] ->. apply suffix_zeros_length in Hs.
  rewrite app_nil_r, repeat_length in Hs. lia.
Qed.

Lemma block_after_cons_zero n p :
  (n < 6)%nat → block_after n (x00 :: p) ↔ block_after (S n) p.
Proof.
  intros Hn. unfold block_after. rewrite zeros_shift. split.
  - intros [Hs Hmin]. split; [done|]. intros q Hq Hne. rewrite zeros_shift.
    apply Hmin; [by apply prefix_cons|congruence].
  - intros [Hs Hmin]. split; [done|]. intros q Hq Hne Hsq.
    destruct q as [|a q].
    + apply suffix_zeros_length in Hsq. rewrite app_nil_r, repeat_length in Hsq. lia.
    + pose proof (prefix_cons_inv_1 _ _ _ _ Hq) as ->.
      apply prefix_cons_inv_2 in Hq.
      apply (Hmin q); [done|congruence|by rewrite zeros_shift].
Qed.

Lemma block_after_six p : block_after 6 (x00 :: p) ↔ p = [].
Proof.
  unfold block_after. split.
  - intros [_ Hmin]. destruct p as [|b p]; [done|].
    destruct (Hmin [x00]); [apply prefix_cons, prefix_nil|done|done].
  - intros ->. split; [done|]. intros q Hq Hne Hsq.
    destruct q as [|a q].
    + apply suffix_zeros_length in Hsq. simpl in Hsq. lia.
    + pose proof (prefix_cons_inv_1 _ _ _ _ Hq) as ->.
      apply prefix_cons_inv_2, prefix_nil_inv in Hq. congruence.
Qed.

Lemma block_after_cons_nonzero n b p :
  (n ≤ 6)%nat → b ≠ x00 → block_after n (b :: p) ↔ block_after 0 p.
Proof.
  intros Hn Hb. unfold block_after. cbn [repeat app]. split.
  - intros [Hs Hmin]. split; [by eapply suffix_zeros_nonzero|].
    intros q Hq Hne Hsq. apply (Hmin (b :: q)); [by apply prefix_cons|congruence|].
    rewrite (cons_middle b), app_assoc. by apply suffix_app_r.
  - intros [Hs Hmin]. split.
    + rewrite (cons_middle b), app_assoc. by apply suffix_app_r.
    + intros q Hq Hne Hsq. destruct q as [|a q].
      * apply suffix_zeros_length in Hsq. rewrite app_nil_r, repeat_length in Hsq. lia.
      * pose proof (prefix_cons_inv_1 _ _ _ _ Hq) as ->.
        apply prefix_cons_inv_2 in Hq.
        apply (Hmin q); [done|congruence|by eapply suffix_zeros_nonzero].
Qed.

Lemma scan_zeros_cons b bs n t :
  t ≠ 2 →
  scan_zeros (b :: bs) n t =
  S <$> (if decide (b = x00) then
           if decide (n ≠ 6) then scan_zeros bs (n + 1) t
           else scan_zeros bs 0 (t + 1)
         else if decide (n > 0) then scan_zeros bs 0 t
         else scan_zeros bs n t).
Proof. intros Ht. cbn [scan_zeros]. by rewrite decide_True by done. Qed.

Lemma scan_zeros_done bs n : scan_zeros bs n 2 = Some 0%nat.
Proof. by destruct bs. Qed.

(** The step of the scan on one byte, the count [n] being a natural
    number up to six. *)
Lemma scan_zeros_step b bs (n : nat) t :
  t ≠ 2 → (n ≤ 6)%nat →
  scan_zeros (b :: bs) (Z.of_nat n) t =
  S <$> (if decide (b = x00) then
           if decide (n = 6%nat) then scan_zeros bs 0 (t + 1)
           else scan_zeros bs (Z.of_nat (S n)) t
         else scan_zeros bs 0 t).
Proof.
  intros Ht Hn. rewrite scan_zeros_cons by done. f_equal.
  destruct (decide (b = x00)).
  - destruct (decide (n = 6%nat)) as [->|Hne]; [done|].
    rewrite decide_True by lia. f_equal. lia.
  - case_decide; [done|]. f_equal. lia.
Qed.

(** The scan runs through a block and goes on behind it with the next
    count of blocks. *)
Lemma scan_zeros_block p rest (n : nat) t :
  (n ≤ 6)%nat → t ≠ 2 → block_after n p →
  scan_zeros (p ++ rest) (Z.of_nat n) t =
  (λ k, (length p + k)%nat) <$> scan_zeros rest 0 (t + 1).
Proof.
  revert n. induction p as [|b p IH]; intros n Hn Ht Hblock.
  { by destruct (block_after_nonempty n [] Hn Hblock). }
  cbn [app]. rewrite scan_zeros_step by done.
  destruct (decide (b = x00)) as [->|Hb].
  - destruct (decide (n = 6%nat)) as [->|Hne].
    + apply block_after_six in Hblock as ->. cbn [app length].
      by destruct (scan_zeros rest 0 (t + 1)).
    + apply block_after_cons_zero in Hblock; [|lia].
      rewrite (IH (S n)) by (done || lia).
      by destruct (scan_zeros rest 0 (t + 1)).
  - apply block_after_cons_nonzero in Hblock; [|done..].
    pose proof (IH 0%nat (Nat.le_0_l 6) Ht Hblock) as IH0. change (Z.of_nat 0) with 0 in IH0.
    rewrite IH0. by destruct (scan_zeros rest 0 (t + 1)).
Qed.

(** A scan that comes to its end has run through a block first. *)
Lemma scan_zeros_block_inv bs (n : nat) t k :
  (n ≤ 6)%nat → t ≠ 2 →
  scan_zeros bs (Z.of_nat n) t = Some k →
  ∃ p bs' k',
    bs = p ++ bs' ∧ block_after n p
    ∧ scan_zeros bs' 0 (t + 1) = Some k' ∧ k = (length p + k')%nat.
Proof.
  revert n k. induction bs as [|b bs IH]; intros n k Hn Ht Hscan.
  { cbn [scan_zeros] in Hscan. by rewrite decide_True in Hscan by done. }
  rewrite scan_zeros_step in Hscan by done.
  destruct (decide (b = x00)) as [->|Hb].
  - destruct (decide (n = 6%nat)) as [->|Hne].
    + destruct (scan_zeros bs 0 (t + 1)) as [k'|] eqn:Hk'; [|done].
      injection Hscan as <-. exists [x00], bs, k'.
      split_and!; [done|by apply block_after_six|done|done].
    + destruct (scan_zeros bs (Z.of_nat (S n)) t) as [k0|] eqn:Hk0; [|done].
      injection Hscan as <-.
      destruct (IH (S n) k0) as (p & bs' & k' & -> & Hblock & Hk' & ->); [lia|done|done|].
      exists (x00 :: p), bs', k'.
      split_and!; [done|apply block_after_cons_zero; [lia|done]|done|done].
  - destruct (scan_zeros bs 0 t) as [k0|] eqn:Hk0; [|done].
    injection Hscan as <-.
    destruct (IH 0%nat k0) as (p & bs' & k' & -> & Hblock & Hk' & ->); [lia|done|done|].
    exists (b :: p), bs', k'.
    split_and!; [done|by apply block_after_cons_nonzero|done|done].
Qed.

(** The scan from the start comes to its end exactly on two blocks in a
    row, and has consumed them and nothing more. *)
Lemma scan_zeros_two_blocks bs k :
  scan_zeros bs 0 0 = Some k ↔
  ∃ p1 p2 rest,
    bs = p1 ++ p2 ++ rest ∧ block p1 ∧ block p2 ∧ k = (length p1 + length p2)%nat.
Proof.
  split.
  - intros H.
    destruct (scan_zeros_block_inv bs 0 0 k) as (p1 & bs1 & k1 & -> & Hb1 & H1 & ->);
      [lia|done|done|].
    destruct (scan_zeros_block_inv bs1 0 1 k1) as (p2 & bs2 & k2 & -> & Hb2 & H2 & ->);
      [lia|done|done|].
    rewrite scan_zeros_done in H2. injection H2 as <-.
    exists p1, p2, bs2. split_and!; [done..|lia].
  - intros (p1 & p2 & rest & -> & Hb1 & Hb2 & ->).
    pose proof (scan_zeros_block p1 (p2 ++ rest) 0 0 (Nat.le_0_l 6)) as H1.
    pose proof (scan_zeros_block p2 rest 0 1 (Nat.le_0_l 6)) as H2.
    change (Z.of_nat 0) with 0 in H1, H2.
    change (0 + 1) with 1 in H1. change (1 + 1) with 2 in H2.
    rewrite H1, H2 by done.
    rewrite scan_zeros_done. cbn. f_equal. lia.
Qed.


(** readHeaderMagic always returns: what it returns, case by case. *)
Lemma readHeaderMagic_cases r :
  readHeaderMagic r =
  Some (match Read 7 r with
        | (Err e, r1) => (Err e, r1)
        | (Ok b, r1) =>
            if decide (string_of_list_byte (take 7 b) ≠ "dissect")
            then (Err ErrInvalidFile, r1)
            else match scan_zeros (avail (compressed r1)) 0 0 with
                 | Some k => (Ok tt, advance k r1)
                 | None => (Err (default EOF (fault (compressed r1))),
                            advance (length (avail (compressed r1))) r1)
                 end
        end).
Proof.
  unfold readHeaderMagic. destruct (Read 7 r) as [[b|e] r1]; [|done].
  case_decide; [done|]. destruct r1 as [[bs f] o h].
  cbn [compressed avail fault]. rewrite readHeaderMagic_loop_scan by lia.
  unfold advance. cbn [compressed avail fault offset header].
  by rewrite drop_all.
Qed.

Lemma Read_Ok n r b r1 :
  Read n r = (Ok b, r1) →
  length b = n ∧ avail (compressed r) = b ++ avail (compressed r1) ∧ r1 = advance n r.
Proof.
  unfold Read. case_decide as Hn; [|done]. intros [= <- <-].
  split_and!; [by apply length_take_le| |done].
  cbn [compressed avail]. by rewrite take_drop.
Qed.

Lemma Read_Err n r e r1 :
  Read n r = (Err e, r1) →
  (length (avail (compressed r)) < n)%nat
  ∧ e = default ErrUnexpectedEOF (fault (compressed r)).
Proof. unfold Read. case_decide as Hn; [done|]. intros [= <- <-]. split; [lia|done]. Qed.

(** C3 (as amended). readHeaderMagic reads seven bytes and fails with
    ErrInvalidFile unless they are the literal dissect. It then consumes
    the stream byte by byte, counting zero bytes in a row, the count
    starting again at a byte that is not zero and after every seventh zero,
    and returns without an error exactly when the count has reached seven
    for the second time: after the shortest prefix that ends in seven zero
    bytes, and the shortest prefix of what follows that does. The two
    stretches of seven need not be apart, nor be whole runs. When the
    stream ends before that, the error of the read past its end is
    returned. *)
Theorem readHeaderMagic_two_blocks r :
  (∃ res, readHeaderMagic r = Some res)
  ∧ (∀ e r1, Read 7 r = (Err e, r1) → readHeaderMagic r = Some (Err e, r1))
  ∧ (∀ b r1, Read 7 r = (Ok b, r1) → string_of_list_byte b ≠ "dissect" →
             readHeaderMagic r = Some (Err ErrInvalidFile, r1))
  ∧ (∀ r', readHeaderMagic r = Some (Ok tt, r') ↔
           ∃ p1 p2 rest,
             avail (compressed r) = list_byte_of_string "dissect" ++ p1 ++ p2 ++ rest
             ∧ block p1 ∧ block p2
             ∧ r' = advance (7 + length p1 + length p2) r)
  ∧ (∀ bs, avail (compressed r) = list_byte_of_string "dissect" ++ bs →
           (¬ ∃ p1 p2 rest, bs = p1 ++ p2 ++ rest ∧ block p1 ∧ block p2) →
           readHeaderMagic r =
           Some (Err (default EOF (fault (compressed r))),
                 advance (length (avail (compressed r))) r)).
Proof.
  rewrite readHeaderMagic_cases. split_and!.
  - eauto.
  - by intros e r1 ->.
  - intros b r1 Hread Hb. rewrite Hread.
    apply Read_Ok in Hread as (Hlen & _ & _).
    by rewrite take_ge, decide_True by (done || lia).
  - intros r'. split.
    + destruct (Read 7 r) as [[b|e] r1] eqn:Hread; [|done].
      apply Read_Ok in Hread as (Hlen & Hav & ->).
      case_decide as Hb; [done|].
      rewrite take_ge in Hb by lia.
      destruct (scan_zeros _ 0 0) as [k|] eqn:Hscan; [|done].
      intros [= <-].
      apply scan_zeros_two_blocks in Hscan as (p1 & p2 & rest & Hrest & Hb1 & Hb2 & ->).
      exists p1, p2, rest. split_and!; [|done|done|].
      * rewrite Hav, Hrest. f_equal.
        rewrite <- Hb. symmetry. apply list_byte_of_string_of_list_byte.
      * rewrite advance_advance. f_equal; lia.
    + intros (p1 & p2 & rest & Hav & Hb1 & Hb2 & ->).
      rewrite (Read_app 7 r _ _ Hav eq_refl).
      rewrite decide_False by (intros H; by apply H).
      rewrite (advance_avail 7 r _ _ Hav eq_refl).
      rewrite (proj2 (scan_zeros_two_blocks _ (length p1 + length p2)))
        by (exists p1, p2, rest; done).
      rewrite advance_advance. do 3 f_equal; lia.
  - intros bs Hav Hno.
    rewrite (Read_app 7 r _ _ Hav eq_refl).
    rewrite decide_False by (intros H; by apply H).
    rewrite (advance_avail 7 r _ _ Hav eq_refl).
    destruct (scan_zeros bs 0 0) as [k|] eqn:Hscan.
    { destruct Hno. apply scan_zeros_two_blocks in Hscan
        as (p1 & p2 & rest & ? & ? & ? & _). by exists p1, p2, rest. }
    rewrite advance_advance, Hav. do 3 f_equal; by rewrite length_app.
Qed.


Ltac block_tac :=
  unfold block; cbn [repeat app];
  repeat first
    [ refine (proj2 (block_after_six _) _); reflexivity
    | refine (proj2 (block_after_cons_zero _ _ _) _); [lia|]
    | refine (proj2 (block_after_cons_nonzero _ _ _ _ _) _); [lia|discriminate|] ].

Lemma readHeaderMagic_two_blocks_witness :
  readHeaderMagic (reader_of (sample_magic ++ [x2a])) =
    Some (Ok tt, mkReader (mkSource [x2a] None) 26 Header0)
  ∧ readHeaderMagic (reader_of (list_byte_of_string "dissent" ++ repeat x00 14)) =
    Some (Err ErrInvalidFile, mkReader (mkSource (repeat x00 14) None) 7 Header0).
Proof.
  split.
  - apply (proj2 (proj1 (proj2 (proj2 (proj2
             (readHeaderMagic_two_blocks (reader_of (sample_magic ++ [x2a]))))))
             (mkReader (mkSource [x2a] None) 26 Header0))).
    exists (x05 :: repeat x00 7), ([x00; x00; x00; x01] ++ repeat x00 7), [x2a].
    split_and!; [reflexivity|block_tac|block_tac|vm_compute; reflexivity].
  - apply (proj1 (proj2 (proj2
             (readHeaderMagic_two_blocks
                (reader_of (list_byte_of_string "dissent" ++ repeat x00 14)))))
             (list_byte_of_string "dissent")); [reflexivity|discriminate].
Defined.

(** Seven zero bytes are a block, eight are not, and fourteen zero bytes
    are two blocks in a row. *)
Example block_seven_zeros :
  block (repeat x00 7) ∧ ¬ block (repeat x00 8)
  ∧ sample_fourteen = repeat x00 7 ++ repeat x00 7 ++ [].
Proof.
  split_and!; [block_tac| |reflexivity].
  intros [_ Hmin]. apply (Hmin (repeat x00 7)).
  - by exists [x00].
  - discriminate.
  - done.
Qed.

(** C3, as stated, fails: a single run of fourteen zero bytes ends the
    scan, with no run of exactly seven zero bytes in what was consumed;
    and a run of eight followed by a run of seven ends it too, with one
    run of exactly seven. *)
Lemma readHeaderMagic_runs_not_exact :
  readHeaderMagic (reader_of (list_byte_of_string "dissect" ++ sample_fourteen ++ [x2a])) =
    Some (Ok tt, mkReader (mkSource [x2a] None) 21 Header0)
  ∧ zero_runs sample_fourteen = [14%nat]
  ∧ ¬ (7%nat ∈ zero_runs sample_fourteen)
  ∧ readHeaderMagic (reader_of (list_byte_of_string "dissect" ++ sample_eight_seven ++ [x2a])) =
    Some (Ok tt, mkReader (mkSource [x2a] None) 23 Header0)
  ∧ zero_runs sample_eight_seven = [8%nat; 7%nat].
Proof.
  split_and!; try (vm_compute; reflexivity).
  vm_compute. intros [H|H]%elem_of_cons; [discriminate|]. by apply elem_of_nil in H.
Qed.

(** ** The loops always come to an end *)

Lemma readHeaderString_consumes strSep r s r' :
  readHeaderString strSep r = (Ok s, r') →
  (length (avail (compressed r')) < length (avail (compressed r)))%nat.
Proof.
  unfold readHeaderString, try, ret.
  destruct (Read 1 r) as [[b1|?] r1] eqn:H1; [|done].
  apply Read_Ok in H1 as (Hl1 & Ha1 & _).
  destruct (Read 7 r1) as [[b7|?] r2] eqn:H2; [|done].
  apply Read_Ok in H2 as (Hl2 & Ha2 & _).
  case_decide; [done|].
  destruct (Read _ r2) as [[p|?] r3] eqn:H3; [|done].
  apply Read_Ok in H3 as (Hl3 & Ha3 & _).
  intros [= _ <-]. rewrite Ha1, Ha2, Ha3, !length_app. lia.
Qed.

(** The fuel that readHeader gives its loop is never used up. *)
Lemma readHeader_loop_total strSep fuel s r :
  (length (avail (compressed r)) < fuel)%nat →
  is_Some (readHeader_loop strSep fuel s r).
Proof.
  revert s r. induction fuel as [|fuel IH]; intros s r Hfuel; [lia|].
  cbn [readHeader_loop].
  destruct (readHeaderString strSep r) as [[k|?] r1] eqn:H1; [|by eexists].
  apply readHeaderString_consumes in H1.
  destruct (readHeaderString strSep r1) as [[v|?] r2] eqn:H2; [|by eexists].
  apply readHeaderString_consumes in H2.
  destruct (header_pair k v s) as [s'|?]; [|by eexists].
  destruct (lastProp s'); [by eexists|]. apply IH. lia.
Qed.

(** readHeader returns on every stream, and so does the whole decode. *)
Lemma readHeader_total strSep time_Parse r :
  is_Some (readHeader strSep time_Parse r).
Proof.
  unfold readHeader.
  destruct (readHeader_loop_total strSep (S (length (avail (compressed r)))) hstate0 r)
    as [[[s|e] r'] ->]; [lia|by eexists..].
Qed.

Lemma decode_total strSep time_Parse r : is_Some (decode strSep time_Parse r).
Proof.
  unfold decode. rewrite readHeaderMagic_cases.
  destruct (Read 7 r) as [[b|e] r1]; [|by eexists].
  case_decide; [by eexists|].
  destruct (scan_zeros _ 0 0) as [k|]; [|by eexists].
  destruct (readHeader_total strSep time_Parse (advance k r1)) as [[[h [e|]] r2] ->];
    [by eexists|].
  destruct (readPlayers _) as [[?|?] ?]; by eexists.
Qed.

(** The header of the two players read off the stream: each player with
    the fields of its own record. *)
Example readHeader_two_players :
  (λ res, Players (fst res)) <$>
    (fst <$> readHeader sample_strSep sample_time_Parse (reader_of sample_header_stream)) =
  Some [mkPlayer "p1" "" "alice" 0 0 0 0 "" 0; mkPlayer "p2" "" "bob" 1 0 0 0 "" 0].
Proof. vm_compute. reflexivity. Qed.

(** * Further properties *)
(** ** More on the reconciliation *)

Lemma reconcile_range_app ps l u pid t :
  u ∉ map Username ps →
  reconcile_range (ps ++ l) u pid t =
  (fst (reconcile_range l u pid t), ps ++ snd (reconcile_range l u pid t)).
Proof.
  induction ps as [|p ps IH]; intros Hu; cbn [app reconcile_range].
  - by destruct (reconcile_range l u pid t).
  - cbn [map] in Hu. rewrite not_elem_of_cons in Hu. destruct Hu as [Hne Hu].
    rewrite decide_False by done. by rewrite IH.
Qed.

Lemma reconcile_range_again ps u pid1 t1 pid2 t2 :
  u ∈ map Username ps →
  reconcile_range (snd (reconcile_range ps u pid1 t1)) u pid2 t2 =
  (true, snd (reconcile_range ps u pid2 t2)).
Proof.
  induction ps as [|p ps IH]; cbn [map reconcile_range]; intros Hu.
  - by apply elem_of_nil in Hu.
  - destruct (decide (Username p = u)) as [Hp|Hp].
    + cbn [snd reconcile_range]. rewrite decide_True by (by destruct p).
      by destruct p.
    + apply elem_of_cons in Hu as [Hu|Hu]; [congruence|].
      specialize (IH Hu).
      destruct (reconcile_range ps u pid1 t1) as [f1 l1].
      destruct (reconcile_range ps u pid2 t2) as [f2 l2].
      cbn [snd reconcile_range] in *. rewrite decide_False by done. by rewrite IH.
Qed.

(** X1. A scanned record whose username no player of the list has is
    appended at the end as a player with its username, profile id and team
    index, every other field zero, and the list before it is as it was. *)
Theorem reconcile_absent ps u pid t :
  u ∉ map Username ps →
  reconcile ps u pid t = ps ++ [mkPlayer "" pid u t 0 0 0 "" 0].
Proof. intros Hu. unfold reconcile. by rewrite reconcile_range_none. Qed.

Lemma reconcile_absent_witness :
  reconcile [sample_alice; sample_bob] "carol" "prof-c" 1 =
  [sample_alice; sample_bob; mkPlayer "" "prof-c" "carol" 1 0 0 0 "" 0].
Proof.
  apply (reconcile_absent [sample_alice; sample_bob] "carol" "prof-c" 1).
  cbn. intros H. repeat (apply elem_of_cons in H as [H|H]; [discriminate|]).
  by apply elem_of_nil in H.
Defined.

(** X2. Of two scanned records with one username the later one decides:
    reconciling the second after the first leaves the list that
    reconciling the second alone leaves. In particular a record met twice
    changes nothing the second time. *)
Theorem reconcile_last_wins ps u pid1 t1 pid2 t2 :
  reconcile (reconcile ps u pid1 t1) u pid2 t2 = reconcile ps u pid2 t2.
Proof.
  destruct (decide (u ∈ map Username ps)) as [Hu|Hu].
  - unfold reconcile at 2 3.
    pose proof (reconcile_range_found ps u pid1 t1) as Hf1.
    pose proof (reconcile_range_found ps u pid2 t2) as Hf2.
    pose proof (reconcile_range_again ps u pid1 t1 pid2 t2 Hu) as Hagain.
    rewrite (bool_decide_eq_true_2 _ Hu) in Hf1, Hf2.
    destruct (reconcile_range ps u pid1 t1) as [f1 l1].
    destruct (reconcile_range ps u pid2 t2) as [f2 l2].
    cbn [fst snd] in *. subst f1 f2. cbn [negb].
    unfold reconcile. by rewrite Hagain.
  - unfold reconcile.
    rewrite (reconcile_range_none ps u pid1 t1 Hu), (reconcile_range_none ps u pid2 t2 Hu).
    cbn [negb].
    rewrite reconcile_range_app by done. cbn [reconcile_range Username].
    rewrite decide_True by done. reflexivity.
Qed.

Lemma same_record_fields_refl p : same_record_fields p p.
Proof. by repeat split. Qed.

Lemma same_record_fields_trans p q r :
  same_record_fields p q → same_record_fields q r → same_record_fields p r.
Proof.
  unfold same_record_fields.
  intros (? & ? & ? & ? & ? & ? & ?) (? & ? & ? & ? & ? & ? & ?).
  split_and!; congruence.
Qed.

Lemma reconcile_range_fields ps u pid t i p :
  ps !! i = Some p →
  ∃ q, snd (reconcile_range ps u pid t) !! i = Some q ∧ same_record_fields p q.
Proof.
  revert i. induction ps as [|p0 ps IH]; intros i Hi; [done|].
  cbn [reconcile_range]. destruct (decide (Username p0 = u)).
  - destruct i as [|i]; cbn in *.
    + inversion Hi; subst. eexists. split; [done|]. by repeat split.
    + eexists. split; [done|]. apply same_record_fields_refl.
  - destruct (reconcile_range ps u pid t) as [f l] eqn:E. cbn [snd] in *.
    destruct i as [|i]; cbn in *.
    + inversion Hi; subst. eexists. split; [done|]. apply same_record_fields_refl.
    + by apply IH.
Qed.

Lemma reconcile_fields ps u pid t i p :
  ps !! i = Some p →
  ∃ q, reconcile ps u pid t !! i = Some q ∧ same_record_fields p q.
Proof.
  intros Hi. destruct (reconcile_range_fields ps u pid t i p Hi) as (q & Hq & Hsame).
  exists q. split; [|done]. unfold reconcile.
  destruct (reconcile_range ps u pid t) as [f l]. cbn [snd] in Hq.
  destruct f; cbn [negb]; [done|]. by apply lookup_app_l_Some.
Qed.

(** X3. The scanner never removes or moves a player and never touches a
    field that came from the header: whatever it returns, every player of
    the list is afterwards at the same index, with the same ID, Username,
    HeroName, Alliance, RoleImage, RoleName and RolePortrait. *)
Theorem readPlayers_keeps_record_fields r i p :
  Players (header r) !! i = Some p →
  ∃ q, Players (header (snd (readPlayers r))) !! i = Some q ∧ same_record_fields p q.
Proof.
  intros Hi. rewrite readPlayers_loop_snd.
  apply (readPlayers_loop_players
           (λ ps, ∃ q, ps !! i = Some q ∧ same_record_fields p q)).
  - intros ps u pid t _ (q & Hq & Hsame).
    destruct (reconcile_fields ps u pid t i q Hq) as (q' & Hq' & Hsame').
    exists q'. split; [done|]. by eapply same_record_fields_trans.
  - exists p. split; [done|]. apply same_record_fields_refl.
Qed.

Lemma readPlayers_keeps_record_fields_witness :
  ∃ q, Players (header (snd (readPlayers sample_scan_reader))) !! 1%nat = Some q
       ∧ same_record_fields sample_bob q.
Proof. apply (readPlayers_keeps_record_fields sample_scan_reader 1 sample_bob). reflexivity. Defined.

(** Go's remainder by 2 and the parity of the integer agree, negative
    integers included. *)
Lemma rem2_even (z : Z) :
  (if decide (Z.rem z 2 = 0) then 1 else 0) = (if Z.even z then 1 else 0).
Proof.
  pose proof (Z.rem_mod_eq_0 z 2 ltac:(lia)) as Hrem.
  pose proof (Zmod_even z) as Hmod.
  destruct (Z.even z); case_decide as H; try reflexivity.
  - exfalso. apply H, Hrem. exact Hmod.
  - exfalso. apply Hrem in H. lia.
Qed.

(** ** Header strings: what is read, and what is refused *)

Lemma length_string_of_list_byte (p : list byte) :
  String.length (string_of_list_byte p) = length p.
Proof.
  rewrite <- length_list_byte_of_string. by rewrite list_byte_of_string_of_list_byte.
Qed.

Lemma Byte_to_nat_le (b : byte) : (Byte.to_nat b ≤ 255)%nat.
Proof. pose proof (Byte.to_nat_bounded b). lia. Qed.

Lemma len_byte_of_to_nat (b : byte) : len_byte (Byte.to_nat b) = b.
Proof. unfold len_byte. by rewrite Byte.of_to_nat. Qed.

Lemma advance_all r :
  advance (length (avail (compressed r))) r =
  mkReader (mkSource [] (fault (compressed r)))
           (offset r + Z.of_nat (length (avail (compressed r)))) (header r).
Proof. unfold advance. by rewrite drop_all. Qed.

Lemma Read_short n r :
  (length (avail (compressed r)) < n)%nat →
  Read n r = (Err (default ErrUnexpectedEOF (fault (compressed r))),
              advance (length (avail (compressed r))) r).
Proof.
  intros Hn. unfold Read. rewrite decide_False by lia. by rewrite advance_all.
Qed.

(** X5. readHeaderString returns a string exactly when the stream starts
    with the header layout of that string: its length in one byte, the
    separator, its bytes. The reader is then just behind them, 8 bytes and
    the length of the string further on, and the string is not longer than
    255 bytes. *)
Theorem readHeaderString_round_trip strSep r s r' :
  length strSep = 7%nat →
  readHeaderString strSep r = (Ok s, r') ↔
  (String.length s ≤ 255)%nat
  ∧ avail (compressed r) = encode_header_string strSep s ++ avail (compressed r')
  ∧ r' = advance (8 + String.length s) r.
Proof.
  intros Hsep. split.
  - unfold readHeaderString, try, ret.
    destruct (Read 1 r) as [[b1|?] r1] eqn:H1; [|done].
    apply Read_Ok in H1 as (Hl1 & Ha1 & ->).
    destruct (Read 7 _) as [[b7|?] r2] eqn:H2; [|done].
    apply Read_Ok in H2 as (Hl2 & Ha2 & ->).
    case_decide as Hb7; [done|]. subst b7.
    destruct (Read _ _) as [[p|?] r3] eqn:H3; [|done].
    apply Read_Ok in H3 as (Hl3 & Ha3 & ->).
    intros [= <- <-].
    destruct b1 as [|b [|??]]; try done. cbn [nth] in *.
    rewrite length_string_of_list_byte, Hl3.
    split_and!.
    + apply Byte_to_nat_le.
    + rewrite Ha1, Ha2, Ha3. unfold encode_header_string.
      rewrite list_byte_of_string_of_list_byte, length_string_of_list_byte, Hl3.
      rewrite len_byte_of_to_nat. cbn [app]. by rewrite <- app_assoc.
    + rewrite !advance_advance. done.
  - intros (Hs & Hr & ->). exact (readHeaderString_encode strSep Hsep s _ r Hs Hr).
Qed.

Lemma readHeaderString_round_trip_witness :
  readHeaderString sample_strSep
    (reader_of (encode_header_string sample_strSep "version" ++ [x2a])) =
  (Ok "version", mkReader (mkSource [x2a] None) 15 Header0).
Proof.
  apply (readHeaderString_round_trip sample_strSep
           (reader_of (encode_header_string sample_strSep "version" ++ [x2a]))
           "version" (mkReader (mkSource [x2a] None) 15 Header0)).
  - reflexivity.
  - split_and!; [simpl; lia|reflexivity|reflexivity].
Defined.

Lemma readHeaderString_separator strSep r b sep rest :
  avail (compressed r) = b :: sep ++ rest →
  length sep = 7%nat →
  sep ≠ strSep →
  readHeaderString strSep r = (Err ErrInvalidStringSep, advance 8 r)
  ∧ avail (compressed (advance 8 r)) = rest.
Proof.
  intros Hr Hl Hne. split.
  - unfold readHeaderString, try, ret.
    rewrite (Read_app 1 r [b] (sep ++ rest) Hr eq_refl).
    assert (H1 : avail (compressed (advance 1 r)) = sep ++ rest)
      by (by apply (advance_avail 1 r [b])).
    rewrite (Read_app 7 _ sep rest H1 Hl).
    rewrite decide_True by done. by rewrite advance_advance.
  - apply (advance_avail 8 r (b :: sep)); [done|]. cbn [length]. by rewrite Hl.
Qed.

(** X6. Seven bytes after the length byte that are not the separator make
    readHeaderString fail with ErrInvalidStringSep, whatever the length byte
    announces and whether or not that many bytes follow: the reader is left
    8 bytes further on, the bytes behind the seven unread. *)
Theorem readHeaderString_bad_separator strSep r b sep rest :
  avail (compressed r) = b :: sep ++ rest →
  length sep = 7%nat →
  sep ≠ strSep →
  readHeaderString strSep r = (Err ErrInvalidStringSep, advance 8 r)
  ∧ avail (compressed (advance 8 r)) = rest.
Proof. apply readHeaderString_separator. Qed.

Lemma readHeaderString_bad_separator_witness :
  readHeaderString sample_strSep
    (reader_of (xff :: repeat x01 7 ++ [x41; x42])) =
  (Err ErrInvalidStringSep, advance 8 (reader_of (xff :: repeat x01 7 ++ [x41; x42])))
  ∧ avail (compressed (advance 8 (reader_of (xff :: repeat x01 7 ++ [x41; x42])))) =
    [x41; x42].
Proof.
  apply (readHeaderString_bad_separator sample_strSep
           (reader_of (xff :: repeat x01 7 ++ [x41; x42])) xff (repeat x01 7) [x41; x42]).
  - reflexivity.
  - reflexivity.
  - discriminate.
Defined.

Lemma readHeaderString_prefix strSep r s :
  length strSep = 7%nat →
  (String.length s ≤ 255)%nat →
  avail (compressed r) `prefix_of` encode_header_string strSep s →
  avail (compressed r) ≠ encode_header_string strSep s →
  readHeaderString strSep r =
  (Err (default ErrUnexpectedEOF (fault (compressed r))),
   advance (length (avail (compressed r))) r).
Proof.
  intros Hsep Hs [more Hmore] Hne. symmetry in Hmore.
  assert (Hm : more ≠ []) by (intros ->; rewrite app_nil_r in Hmore; congruence).
  assert (Hlen : (length (avail (compressed r)) < 8 + String.length s)%nat).
  { apply (f_equal length) in Hmore.
    rewrite (length_encode_header_string strSep Hsep), length_app in Hmore.
    destruct more; [done|]. cbn [length] in Hmore. lia. }
  unfold readHeaderString, try, ret.
  destruct (avail (compressed r)) as [|b bs] eqn:Hav.
  { rewrite Read_short by (rewrite Hav; simpl; lia). by rewrite Hav. }
  rewrite (Read_app 1 r [b] bs Hav eq_refl).
  assert (H1 : avail (compressed (advance 1 r)) = bs)
    by (by apply (advance_avail 1 r [b])).
  unfold encode_header_string in Hmore. cbn [app] in Hmore.
  injection Hmore as Hb Hmore. subst b. cbn [nth length] in *.
  rewrite len_byte_to_nat by done.
  destruct (decide (length bs < 7)%nat) as [Hlt|Hge].
  { rewrite Read_short by (rewrite H1; lia).
    rewrite advance_advance, H1. done. }
  assert (∃ p, bs = strSep ++ p ∧ (length p < String.length s)%nat) as (p & -> & Hp).
  { apply app_eq_inv in Hmore as [(k & -> & Hk)|(k & Hk & ->)].
    - exists k. split; [done|]. rewrite length_app in Hlen. lia.
    - assert (k = []) as ->.
      { apply (f_equal length) in Hk. rewrite length_app in Hk.
        destruct k; [done|]. cbn [length] in Hk. lia. }
      rewrite app_nil_r in Hk. subst bs. exists []. rewrite app_nil_r.
      split; [done|]. cbn [length] in *. lia. }
  rewrite (Read_app 7 _ strSep p H1 Hsep).
  rewrite decide_False by auto.
  assert (H2 : avail (compressed (advance 7 (advance 1 r))) = p)
    by (by apply (advance_avail 7 _ strSep)).
  rewrite Read_short by (rewrite H2; lia).
  rewrite H2, !advance_advance. cbn [compressed fault advance].
  do 2 f_equal. cbn [length]. rewrite length_app. lia.
Qed.

(** X7. A header string cut short by the end of the stream, anywhere
    before its last byte, makes readHeaderString fail with the error of the
    read past the end, ErrUnexpectedEOF when the decompressor reports no
    fault of its own, and the stream is used up. *)
Theorem readHeaderString_truncated strSep r s :
  length strSep = 7%nat →
  (String.length s ≤ 255)%nat →
  avail (compressed r) `prefix_of` encode_header_string strSep s →
  avail (compressed r) ≠ encode_header_string strSep s →
  fault (compressed r) = None →
  readHeaderString strSep r =
  (Err ErrUnexpectedEOF,
   mkReader (mkSource [] None) (offset r + Z.of_nat (length (avail (compressed r))))
            (header r)).
Proof.
  intros Hsep Hs Hpre Hne Hf.
  rewrite (readHeaderString_prefix strSep r s Hsep Hs Hpre Hne), advance_all, Hf. done.
Qed.

Lemma readHeaderString_truncated_witness :
  readHeaderString sample_strSep
    (reader_of (take 12 (encode_header_string sample_strSep "version"))) =
  (Err ErrUnexpectedEOF, mkReader (mkSource [] None) 12 Header0).
Proof.
  apply (readHeaderString_truncated sample_strSep
           (reader_of (take 12 (encode_header_string sample_strSep "version"))) "version").
  - reflexivity.
  - simpl. lia.
  - apply prefix_take.
  - discriminate.
  - reflexivity.
Defined.

(** ** readHeader on a stream that breaks off or is damaged *)

Section HeaderBroken.

Variable strSep : list byte.
Hypothesis strSep_len : length strSep = 7%nat.
Variable time_Parse : string -> string -> Z * option error.

(** The loop over pairs that leave it running, with the place it has
    reached. *)
Lemma readHeader_loop_running kvs fuel s s' r rest :
  Forall short_pair kvs →
  avail (compressed r) = encode_pairs strSep kvs ++ rest →
  header_pairs kvs s = Running s' →
  readHeader_loop strSep (length kvs + fuel) s r =
    readHeader_loop strSep fuel s' (advance (length (encode_pairs strSep kvs)) r)
  ∧ avail (compressed (advance (length (encode_pairs strSep kvs)) r)) = rest.
Proof.
  revert s r. induction kvs as [|[k v] kvs IH]; intros s r Hshort Hr Hrun.
  { cbn in Hrun. injection Hrun as ->. cbn [encode_pairs map concat length Nat.add].
    split; [|by apply (advance_avail 0 r [] rest)].
    f_equal. unfold advance. rewrite drop_0, Z.add_0_r. by destruct r as [[? ?] ? ?]. }
  apply Forall_cons in Hshort as [[Hk Hv] Hshort]. cbn [fst snd] in Hk, Hv.
  rewrite encode_pairs_cons, <- app_assoc in Hr.
  destruct (readHeader_loop_pair strSep strSep_len (length kvs + fuel) k v _ s r Hk Hv Hr)
    as [Hrest Hloop].
  cbn [length Nat.add]. rewrite Hloop. cbn [header_pairs] in Hrun.
  destruct (header_pair k v s) as [s1|e]; [|done].
  destruct (lastProp s1); [done|].
  destruct (IH s1 _ Hshort Hrest Hrun) as [IH1 IH2].
  rewrite encode_pairs_cons, length_app, <- advance_advance. done.
Qed.

Lemma readHeader_after_running kvs s r tail :
  Forall short_pair kvs →
  avail (compressed r) = encode_pairs strSep kvs ++ tail →
  header_pairs kvs hstate0 = Running s →
  ∃ fuel,
    readHeader strSep time_Parse r =
    match readHeader_loop strSep (S fuel) s
            (advance (length (encode_pairs strSep kvs)) r) with
    | None => None
    | Some (Err e, r) => Some ((Header0, Some e), r)
    | Some (Ok s, r) =>
        Some (readHeader_assemble time_Parse (props s) (players s) (gmSettings s), r)
    end
    ∧ avail (compressed (advance (length (encode_pairs strSep kvs)) r)) = tail.
Proof.
  intros Hshort Hr Hrun.
  pose proof (length_encode_pairs strSep strSep_len kvs) as Hlen.
  exists (length (avail (compressed r)) - length kvs)%nat.
  assert (Hfuel : S (length (avail (compressed r))) =
                  (length kvs + S (length (avail (compressed r)) - length kvs))%nat).
  { rewrite Hr, length_app. lia. }
  unfold readHeader. rewrite Hfuel.
  destruct (readHeader_loop_running kvs
              (S (length (avail (compressed r)) - length kvs)) hstate0 s r tail
              Hshort Hr Hrun) as [-> Hav].
  done.
Qed.

Lemma prefix_of_pair tail k v :
  tail `prefix_of` encode_pair strSep (k, v) →
  tail ≠ encode_pair strSep (k, v) →
  (tail `prefix_of` encode_header_string strSep k
   ∧ tail ≠ encode_header_string strSep k)
  ∨ ∃ t, tail = encode_header_string strSep k ++ t
         ∧ t `prefix_of` encode_header_string strSep v
         ∧ t ≠ encode_header_string strSep v.
Proof.
  unfold encode_pair. cbn [fst snd]. intros [more Hmore] Hne. symmetry in Hmore.
  apply app_eq_inv in Hmore as [(t & -> & Ht)|(t & Ht & ->)].
  - right. exists t. split_and!; [done|by exists more|]. intros ->. by destruct Hne.
  - destruct t as [|b t].
    + right. exists []. rewrite app_nil_r in Ht. subst tail. rewrite app_nil_r.
      split_and!; [done|by apply prefix_nil|done].
    + left. split; [by exists (b :: t)|]. intros ->.
      apply (f_equal length) in Ht. rewrite length_app in Ht. cbn [length] in Ht. lia.
Qed.

(** X8. A header stream that breaks off before teamscore1 has been read
    gives no header. When the pairs read so far leave the loop running and
    the stream ends between two pairs or inside the next one, readHeader
    returns the empty header with ErrUnexpectedEOF, never the properties
    and players gathered so far, and the stream is used up. *)
Theorem readHeader_cut_short kvs s kv tail r :
  Forall short_pair kvs → short_pair kv →
  header_pairs kvs hstate0 = Running s →
  avail (compressed r) = encode_pairs strSep kvs ++ tail →
  tail `prefix_of` encode_pair strSep kv →
  tail ≠ encode_pair strSep kv →
  fault (compressed r) = None →
  readHeader strSep time_Parse r =
  Some ((Header0, Some ErrUnexpectedEOF),
        mkReader (mkSource [] None)
                 (offset r + Z.of_nat (length (avail (compressed r)))) (header r)).
Proof.
  intros Hshort [Hk Hv] Hrun Hr Hpre Hne Hf. destruct kv as [k v]. cbn [fst snd] in *.
  destruct (readHeader_after_running kvs s r tail Hshort Hr Hrun) as (fuel & -> & Hav).
  set (r1 := advance (length (encode_pairs strSep kvs)) r) in *.
  assert (Hend : advance (length tail) r1 =
                 mkReader (mkSource [] None)
                   (offset r + Z.of_nat (length (avail (compressed r)))) (header r)).
  { subst r1. rewrite advance_advance, Hr, <- length_app, <- Hr, advance_all, Hf. done. }
  cbn [readHeader_loop].
  destruct (prefix_of_pair tail k v Hpre Hne) as [[Hp Hn]|(t & -> & Hp & Hn)].
  - rewrite <- Hav in Hp, Hn.
    rewrite (readHeaderString_prefix strSep r1 k strSep_len Hk Hp Hn).
    rewrite Hav, Hend. subst r1. cbn [advance compressed fault]. by rewrite Hf.
  - rewrite (readHeaderString_encode strSep strSep_len k t r1 Hk Hav).
    assert (Hav2 : avail (compressed (advance (8 + String.length k) r1)) = t).
    { apply (advance_avail _ r1 (encode_header_string strSep k)); [done|].
      by apply length_encode_header_string. }
    rewrite <- Hav2 in Hp, Hn.
    rewrite (readHeaderString_prefix strSep _ v strSep_len Hv Hp Hn).
    rewrite Hav2, advance_advance.
    rewrite length_app, (length_encode_header_string strSep strSep_len) in Hend.
    rewrite Hend. subst r1. cbn [advance compressed fault]. by rewrite Hf.
Qed.

(** X9. A damaged separator in the key or in the value of the next pair,
    the pairs before it leaving the loop running, makes readHeader return
    the empty header with ErrInvalidStringSep, the reader standing just
    behind the seven bytes found in place of the separator. *)
Theorem readHeader_bad_separator kvs s pre b sep rest r :
  Forall short_pair kvs →
  header_pairs kvs hstate0 = Running s →
  pre = [] ∨ (∃ k, (String.length k ≤ 255)%nat ∧ pre = encode_header_string strSep k) →
  avail (compressed r) = encode_pairs strSep kvs ++ pre ++ b :: sep ++ rest →
  length sep = 7%nat →
  sep ≠ strSep →
  ∃ r', readHeader strSep time_Parse r = Some ((Header0, Some ErrInvalidStringSep), r')
        ∧ avail (compressed r') = rest.
Proof.
  intros Hshort Hrun Hpre Hr Hl Hne.
  destruct (readHeader_after_running kvs s r _ Hshort Hr Hrun) as (fuel & -> & Hav).
  set (r1 := advance (length (encode_pairs strSep kvs)) r) in *.
  cbn [readHeader_loop].
  destruct Hpre as [->|(k & Hk & ->)].
  - cbn [app] in Hav.
    destruct (readHeaderString_separator strSep r1 b sep rest Hav Hl Hne) as [-> Hrest].
    eauto.
  - rewrite (readHeaderString_encode strSep strSep_len k _ r1 Hk Hav).
    assert (Hav2 : avail (compressed (advance (8 + String.length k) r1)) =
                   b :: sep ++ rest).
    { apply (advance_avail _ r1 (encode_header_string strSep k)); [done|].
      by apply length_encode_header_string. }
    destruct (readHeaderString_separator strSep _ b sep rest Hav2 Hl Hne) as [-> Hrest].
    eauto.
Qed.

End HeaderBroken.

Lemma readHeader_cut_short_witness :
  readHeader sample_strSep sample_time_Parse
    (reader_of (encode_pairs sample_strSep [("version", "Y8S1"); ("code", "7422506")]
                  ++ take 20 (encode_pair sample_strSep ("datetime", "2023-01-02-03-04-05")))) =
  Some ((Header0, Some ErrUnexpectedEOF), mkReader (mkSource [] None) 74 Header0).
Proof.
  pose (s := match header_pairs [("version", "Y8S1"); ("code", "7422506")] hstate0 with
             | Running s => s
             | _ => hstate0
             end).
  apply (readHeader_cut_short sample_strSep eq_refl sample_time_Parse
           [("version", "Y8S1"); ("code", "7422506")] s
           ("datetime", "2023-01-02-03-04-05")
           (take 20 (encode_pair sample_strSep ("datetime", "2023-01-02-03-04-05")))).
  - short_pairs.
  - split; simpl; lia.
  - vm_compute. reflexivity.
  - reflexivity.
  - apply prefix_take.
  - discriminate.
  - reflexivity.
Defined.

Lemma readHeader_bad_separator_witness :
  ∃ r', readHeader sample_strSep sample_time_Parse
          (reader_of (encode_pairs sample_strSep [("version", "Y8S1")]
                        ++ encode_header_string sample_strSep "code"
                        ++ x07 :: repeat x01 7 ++ list_byte_of_string "7422506")) =
        Some ((Header0, Some ErrInvalidStringSep), r')
        ∧ avail (compressed r') = list_byte_of_string "7422506".
Proof.
  pose (s := match header_pairs [("version", "Y8S1")] hstate0 with
             | Running s => s
             | _ => hstate0
             end).
  apply (readHeader_bad_separator sample_strSep eq_refl sample_time_Parse
           [("version", "Y8S1")] s (encode_header_string sample_strSep "code")
           x07 (repeat x01 7) (list_byte_of_string "7422506")).
  - short_pairs.
  - vm_compute. reflexivity.
  - right. exists "code". split; [simpl; lia|reflexivity].
  - reflexivity.
  - reflexivity.
  - discriminate.
Defined.

(** ** The locals of the loop over a list of pairs *)

Lemma header_pair_top k v s :
  playerData s = false → k ≠ "playerid" →
  header_pair k v s =
  if decide (k ≠ "gmsetting") then
    Ok (mkHstate (<[k := v]> (props s)) (gmSettings s) (players s) (currentPlayer s) false)
  else
    match Atoi v with
    | (_, Some e) => Err e
    | (n, None) =>
        Ok (mkHstate (props s) (gmSettings s ++ [n]) (players s) (currentPlayer s) false)
    end.
Proof.
  intros Hpd Hk. unfold header_pair. destruct s as [ps gm pl cur pd].
  cbn [playerData props gmSettings players currentPlayer] in *. subst pd.
  rewrite (decide_False (P := k = "playerid")) by done.
  cbn [playerData props gmSettings players currentPlayer].
  rewrite andb_false_r. cbn [negb playerData props gmSettings players currentPlayer].
  reflexivity.
Qed.

Lemma header_pair_open v s :
  playerData s = false →
  header_pair "playerid" v s =
  Ok (mkHstate (props s) (gmSettings s) (players s) (set_ID v Player0) true).
Proof.
  intros Hpd. unfold header_pair. destruct s as [ps gm pl cur pd].
  cbn [playerData props gmSettings players currentPlayer] in *. subst pd.
  cbn. reflexivity.
Qed.

(** What a turn does to the identifiers of the players, appended or in
    progress, and to the flag and the property map. *)
Lemma header_pair_ids k v s s' :
  header_pair k v s = Ok s' →
  ID <$> open_players s' =
    (ID <$> open_players s) ++ (if decide (k = "playerid") then [v] else [])
  ∧ (playerData s' = true → props s' = props s).
Proof.
  intros Hp. unfold open_players. destruct (playerData s) eqn:Hpd.
  - destruct (decide (k = "playlistcategory" ∨ k = "id")) as [Hk|Hk].
    + rewrite (header_pair_closes_record k v s Hk Hpd) in Hp. injection Hp as <-.
      cbn [players playerData currentPlayer].
      rewrite decide_False by (by destruct Hk as [-> | ->]).
      split; [by rewrite !app_nil_r|done].
    + rewrite header_pair_in_record in Hp by tauto. cbv zeta in Hp.
      destruct (decide (k = "playerid")) as [->|Hk0].
      { injection Hp as <-. cbn [players playerData currentPlayer props].
        by rewrite !fmap_app. }
      rewrite app_nil_r.
      repeat (case_decide;
              [first [ injection Hp as <-
                     | destruct (Atoi v) as [n [e|]]; [done|]; injection Hp as <- ];
               cbn [players playerData currentPlayer props];
               split; [by rewrite !fmap_app|done] |]).
      injection Hp as <-. by rewrite Hpd.
  - destruct (decide (k = "playerid")) as [->|Hk0].
    + rewrite header_pair_open in Hp by done. injection Hp as <-.
      cbn [players playerData currentPlayer props].
      by rewrite !fmap_app, !app_nil_r.
    + rewrite header_pair_top in Hp by done. rewrite !app_nil_r.
      case_decide.
      * injection Hp as <-. cbn [players playerData currentPlayer props].
        by rewrite app_nil_r.
      * destruct (Atoi v) as [n [e|]]; [done|]. injection Hp as <-.
        cbn [players playerData currentPlayer props]. by rewrite app_nil_r.
Qed.

Lemma values_of_cons k k0 v kvs :
  values_of k ((k0, v) :: kvs) =
  (if decide (k0 = k) then [v] else []) ++ values_of k kvs.
Proof.
  unfold values_of. rewrite filter_cons. cbn [fst].
  by case_decide.
Qed.

Lemma header_pairs_ids kvs s :
  props s !! "teamscore1" = None →
  match header_pairs kvs s with
  | Running s' =>
      ID <$> open_players s' = (ID <$> open_players s) ++ values_of "playerid" kvs
  | Stopped s' unread =>
      playerData s' = false
      ∧ ∃ used, kvs = used ++ unread
                ∧ ID <$> players s' =
                  (ID <$> open_players s) ++ values_of "playerid" used
  | Failed _ _ => True
  end.
Proof.
  revert s. induction kvs as [|[k v] kvs IH]; intros s Hts; cbn [header_pairs].
  { unfold values_of. cbn. by rewrite app_nil_r. }
  destruct (header_pair k v s) as [s1|e] eqn:Hp; [|done].
  destruct (header_pair_ids k v s s1 Hp) as [Hids Hprops].
  destruct (lastProp s1) eqn:Hlast.
  - assert (Hpd : playerData s1 = false).
    { destruct (playerData s1) eqn:E; [|done].
      apply lastProp_true in Hlast. rewrite (Hprops eq_refl), Hts in Hlast.
      by destruct Hlast. }
    split; [done|]. exists [(k, v)]. split; [done|].
    rewrite values_of_cons. unfold values_of at 1. cbn. rewrite app_nil_r, <- Hids.
    unfold open_players. by rewrite Hpd, app_nil_r.
  - specialize (IH s1 (lastProp_false s1 Hlast)).
    destruct (header_pairs kvs s1) as [s' unread|e unread|s']; [| done |].
    + destruct IH as [Hpd (used & -> & IH)]. split; [done|].
      exists ((k, v) :: used). split; [done|].
      by rewrite IH, Hids, values_of_cons, <- app_assoc.
    + by rewrite IH, Hids, values_of_cons, <- app_assoc.
Qed.

(** X10. When the loop of readHeader stops, no player record is open, and
    the players gathered carry the values of the playerid keys read, one
    player for each key, in the order of the stream: no record is lost,
    merged or moved, whatever pairs it holds. *)
Theorem header_pairs_player_ids kvs s unread :
  header_pairs kvs hstate0 = Stopped s unread →
  playerData s = false
  ∧ ∃ used, kvs = used ++ unread ∧ ID <$> players s = values_of "playerid" used.
Proof.
  intros Hstop. pose proof (header_pairs_ids kvs hstate0 eq_refl) as H.
  rewrite Hstop in H. exact H.
Qed.

Lemma header_pairs_player_ids_witness :
  ∃ s, header_pairs (sample_two_players ++ [("teamscore1", "1"); ("extra", "x")]) hstate0 =
       Stopped s [("extra", "x")]
       ∧ playerData s = false
       ∧ ∃ used, sample_two_players ++ [("teamscore1", "1"); ("extra", "x")] =
                 used ++ [("extra", "x")]
                 ∧ ID <$> players s = values_of "playerid" used.
Proof.
  pose (s := match header_pairs (sample_two_players
                                   ++ [("teamscore1", "1"); ("extra", "x")]) hstate0 with
             | Stopped s _ => s
             | _ => hstate0
             end).
  exists s.
  assert (H : header_pairs (sample_two_players ++ [("teamscore1", "1"); ("extra", "x")])
                hstate0 = Stopped s [("extra", "x")]) by (vm_compute; reflexivity).
  split; [exact H|].
  exact (header_pairs_player_ids _ s _ H).
Defined.

Lemma last_values_of_cons k k0 v kvs (o : option string) :
  from_option Some (if decide (k0 = k) then Some v else o) (last (values_of k kvs)) =
  from_option Some o (last (values_of k ((k0, v) :: kvs))).
Proof.
  rewrite values_of_cons. case_decide; [|done]. cbn [app].
  rewrite last_cons. by destruct (last (values_of k kvs)).
Qed.

(** X11. Pairs read outside a player record, none of them with the key
    playerid or teamscore1 and every GM setting a number: the loop runs on,
    every pair but the GM settings is in the property map, a key read more
    than once holding the value read last, the GM settings are appended in
    the order read and never enter the map, and the players are as they
    were. *)
Theorem header_pairs_top_level kvs s :
  playerData s = false →
  props s !! "teamscore1" = None →
  Forall (λ kv, fst kv ≠ "playerid" ∧ fst kv ≠ "teamscore1"
                ∧ (fst kv = "gmsetting" → snd (Atoi (snd kv)) = None)) kvs →
  ∃ s', header_pairs kvs s = Running s'
        ∧ (∀ k, props s' !! k =
                if decide (k = "gmsetting") then props s !! k
                else from_option Some (props s !! k) (last (values_of k kvs)))
        ∧ gmSettings s' =
          gmSettings s ++ ((λ v, fst (Atoi v)) <$> values_of "gmsetting" kvs)
        ∧ players s' = players s
        ∧ playerData s' = false.
Proof.
  revert s. induction kvs as [|[k v] kvs IH]; intros s Hpd Hts Hall.
  { exists s. split_and!; [done| |by rewrite app_nil_r|done|done].
    intros k. by case_decide. }
  apply Forall_cons in Hall as [(Hk1 & Hk2 & Hgm) Hall]. cbn [fst snd] in *.
  pose proof (header_pair_top k v s Hpd Hk1) as Hp.
  destruct (decide (k ≠ "gmsetting")) as [Hk|Hk].
  - destruct (IH (mkHstate (<[k := v]> (props s)) (gmSettings s) (players s)
                           (currentPlayer s) false))
      as (s' & Hrun & Hprops & Hgms & Hpl & Hpd'); [done| |done|].
    { cbn [props]. by rewrite lookup_insert_ne. }
    exists s'. cbn [props gmSettings players] in *.
    split_and!; [|intros k0|..|done|done].
    + rewrite (header_pairs_step k v kvs s _ Hp); [done|].
      cbn [props]. by rewrite lookup_insert_ne.
    + rewrite Hprops. case_decide as Hk0; [subst k0; by rewrite lookup_insert_ne|].
      rewrite <- last_values_of_cons.
      destruct (decide (k = k0)) as [->|Hne].
      * by rewrite lookup_insert_eq.
      * by rewrite lookup_insert_ne.
    + rewrite Hgms, values_of_cons. by rewrite decide_False.
  - apply dec_stable in Hk. subst k. specialize (Hgm eq_refl).
    destruct (Atoi v) as [n [e|]] eqn:Hv; [done|].
    destruct (IH (mkHstate (props s) (gmSettings s ++ [n]) (players s)
                           (currentPlayer s) false))
      as (s' & Hrun & Hprops & Hgms & Hpl & Hpd'); [done|done|done|].
    exists s'. cbn [props gmSettings players] in *.
    split_and!; [|intros k0|..|done|done].
    + by rewrite (header_pairs_step "gmsetting" v kvs s _ Hp).
    + rewrite Hprops. case_decide as Hk0; [done|].
      rewrite <- last_values_of_cons. by rewrite decide_False.
    + rewrite Hgms, values_of_cons, decide_True by done. cbn [app fmap list_fmap].
      rewrite Hv. cbn [fst]. by rewrite <- app_assoc.
Qed.

Lemma header_pairs_top_level_witness :
  ∃ s', header_pairs [("version", "Y8S1"); ("gmsetting", "12"); ("version", "Y9S2");
                      ("gmsetting", "-7"); ("map", "bank")] hstate0 = Running s'
        ∧ props s' !! "version" = Some "Y9S2"
        ∧ props s' !! "gmsetting" = None
        ∧ gmSettings s' = [12; -7]
        ∧ players s' = [].
Proof.
  destruct (header_pairs_top_level
              [("version", "Y8S1"); ("gmsetting", "12"); ("version", "Y9S2");
               ("gmsetting", "-7"); ("map", "bank")] hstate0)
    as (s' & Hrun & Hprops & Hgms & Hpl & _).
  - reflexivity.
  - reflexivity.
  - repeat (constructor; [simpl; split_and!; [discriminate|discriminate|
                                               first [ intros H; discriminate H
                                                     | intros _; vm_compute; reflexivity ]]|]).
    constructor.
  - exists s'. split; [exact Hrun|].
    split; [rewrite Hprops; reflexivity|].
    split; [rewrite Hprops; reflexivity|].
    split; [rewrite Hgms; vm_compute; reflexivity|exact Hpl].
Defined.

Lemma header_pair_junk k v s :
  playerData s = true → k ∉ record_keys → header_pair k v s = Ok s.
Proof.
  intros Hpd Hk. unfold record_keys in Hk.
  repeat (apply not_elem_of_cons in Hk as [? Hk]).
  rewrite header_pair_in_record by done. cbv zeta.
  by rewrite !decide_False by done.
Qed.

(** X12. Inside a player record a pair whose key is none of the eight
    field keys nor playlistcategory nor id is dropped with its value: it
    enters neither the player nor the property map. So a teamscore1 read
    inside a record does not stop the loop, and a GM setting read there is
    neither parsed nor kept. *)
Theorem header_pairs_record_drops junk kvs s :
  playerData s = true →
  props s !! "teamscore1" = None →
  Forall (λ kv, fst kv ∉ record_keys) junk →
  header_pairs (junk ++ kvs) s = header_pairs kvs s.
Proof.
  intros Hpd Hts. induction 1 as [|[k v] junk Hk _ IH]; [done|].
  cbn [app fst] in *.
  by rewrite (header_pairs_step k v _ s s (header_pair_junk k v s Hpd Hk) Hts).
Qed.

Lemma header_pairs_record_drops_witness :
  header_pairs ([("teamscore1", "1"); ("gmsetting", "on"); ("version", "Y9S2")]
                  ++ [("playername", "alice")])
               (mkHstate {["version" := "Y8S1"]} [] [] (set_ID "p1" Player0) true) =
  header_pairs [("playername", "alice")]
               (mkHstate {["version" := "Y8S1"]} [] [] (set_ID "p1" Player0) true).
Proof.
  apply (header_pairs_record_drops
           [("teamscore1", "1"); ("gmsetting", "on"); ("version", "Y9S2")]
           [("playername", "alice")]
           (mkHstate {["version" := "Y8S1"]} [] [] (set_ID "p1" Player0) true)).
  - reflexivity.
  - reflexivity.
  - repeat (constructor;
            [cbn [fst]; unfold record_keys; intros H;
             repeat (apply elem_of_cons in H as [H|H]; [discriminate|]);
             by apply elem_of_nil in H|]).
    constructor.
Defined.

Lemma header_pair_record_int k v n e s :
  playerData s = true → k ∈ record_ints → Atoi v = (n, Some e) →
  header_pair k v s = Err e.
Proof.
  intros Hpd Hk Hv. unfold record_ints in Hk.
  repeat (apply elem_of_cons in Hk as [->|Hk];
          [rewrite header_pair_in_record by done; cbv zeta;
           rewrite !decide_False by done; rewrite decide_True by done;
           by rewrite Hv|]).
  by apply elem_of_nil in Hk.
Qed.

(** X13. The team, hero name, alliance, role image and role portrait of a
    player must be numbers: a value of one of them that Atoi refuses, in an
    open player record, makes readHeader return the empty header with the
    error of Atoi, the pairs behind it unread. *)
Theorem readHeader_player_number strSep time_Parse used k v n e unread rest r s :
  length strSep = 7%nat →
  Forall short_pair used → short_pair (k, v) →
  avail (compressed r) = encode_pairs strSep (used ++ (k, v) :: unread) ++ rest →
  header_pairs used hstate0 = Running s →
  playerData s = true →
  k ∈ record_ints →
  Atoi v = (n, Some e) →
  ∃ r', readHeader strSep time_Parse r = Some ((Header0, Some e), r')
        ∧ avail (compressed r') = encode_pairs strSep unread ++ rest.
Proof.
  intros Hsep Hshort Hkv Hr Hrun Hpd Hk Hv.
  assert (Hfail : header_pairs (used ++ [(k, v)]) hstate0 = Failed e []).
  { rewrite (header_pairs_app used _ hstate0 s Hrun). cbn [header_pairs].
    by rewrite (header_pair_record_int k v n e s Hpd Hk Hv). }
  assert (Hshort' : Forall short_pair (used ++ [(k, v)])).
  { apply Forall_app. split; [done|]. by apply Forall_singleton. }
  assert (Hr' : avail (compressed r) =
                encode_pairs strSep (used ++ [(k, v)])
                  ++ encode_pairs strSep unread ++ rest).
  { rewrite Hr, app_assoc, <- encode_pairs_app, <- app_assoc. done. }
  pose proof (readHeader_pairs strSep Hsep time_Parse _ _ r Hshort' Hr') as H.
  rewrite Hfail in H. exact H.
Qed.

Lemma readHeader_player_number_witness :
  ∃ r', readHeader sample_strSep sample_time_Parse
          (reader_of (encode_pairs sample_strSep
                        ([("version", "Y8S1"); ("playerid", "p1")]
                           ++ ("team", "blue") :: sample_tail) ++ [])) =
        Some ((Header0, Some (NumError "Atoi" "blue" ErrSyntax)), r')
        ∧ avail (compressed r') = encode_pairs sample_strSep sample_tail ++ [].
Proof.
  pose (s := match header_pairs [("version", "Y8S1"); ("playerid", "p1")] hstate0 with
             | Running s => s
             | _ => hstate0
             end).
  apply (readHeader_player_number sample_strSep sample_time_Parse
           [("version", "Y8S1"); ("playerid", "p1")] "team" "blue" 0
           (NumError "Atoi" "blue" ErrSyntax) sample_tail []
           (reader_of (encode_pairs sample_strSep
                         ([("version", "Y8S1"); ("playerid", "p1")]
                            ++ ("team", "blue") :: sample_tail) ++ [])) s).
  - reflexivity.
  - short_pairs.
  - split; simpl; lia.
  - reflexivity.
  - vm_compute. reflexivity.
  - reflexivity.
  - unfold record_ints. apply elem_of_cons. by left.
  - vm_compute. reflexivity.
Defined.

(** ** The order of the conversions *)

(** X14. The assembly converts the properties in the order of the source
    and returns with the error of the first conversion that fails: code,
    datetime, matchtype, worldid, gamemodeid, roundspermatch,
    roundspermatchovertime, roundnumber, overtimeroundnumber, teamscore0,
    teamscore1. Whether or not one fails, the header it returns has the game
    version, the GM settings and the players of the loop. *)
Theorem readHeader_assemble_first_error time_Parse props players gmSettings :
  snd (readHeader_assemble time_Parse props players gmSettings) =
    first_error (assemble_checks time_Parse props)
  ∧ GameVersion (fst (readHeader_assemble time_Parse props players gmSettings)) =
    prop props "version"
  ∧ GMSettings (fst (readHeader_assemble time_Parse props players gmSettings)) = gmSettings
  ∧ Players (fst (readHeader_assemble time_Parse props players gmSettings)) = players.
Proof.
  unfold readHeader_assemble, assemble_checks, orReturn.
  destruct (Atoi (prop props "code")) as [? [?|]]; [done|].
  destruct (time_Parse _ (prop props "datetime")) as [? [?|]]; [done|].
  destruct (Atoi (prop props "matchtype")) as [? [?|]]; [done|].
  destruct (Atoi (prop props "worldid")) as [? [?|]]; [done|].
  destruct (Atoi (prop props "gamemodeid")) as [? [?|]]; [done|].
  destruct (Atoi (prop props "roundspermatch")) as [? [?|]]; [done|].
  destruct (Atoi (prop props "roundspermatchovertime")) as [? [?|]]; [done|].
  destruct (Atoi (prop props "roundnumber")) as [? [?|]]; [done|].
  destruct (Atoi (prop props "overtimeroundnumber")) as [? [?|]]; [done|].
  destruct (Atoi (prop props "playlistcategory")) as [? ?].
  destruct (Atoi (prop props "teamscore0")) as [? [?|]]; [done|].
  destruct (Atoi (prop props "teamscore1")) as [? [?|]]; done.
Qed.

(** ** What readHeaderMagic consumes *)

Lemma scan_zeros_bounds bs n t k :
  0 ≤ n ≤ 6 → 0 ≤ t ≤ 2 →
  scan_zeros bs n t = Some k →
  (k ≤ length bs)%nat ∧ 7 * (2 - t) ≤ n + Z.of_nat k.
Proof.
  revert n t k. induction bs as [|b bs IH]; intros n t k Hn Ht.
  { cbn [scan_zeros]. case_decide; [done|]. intros [= <-]. cbn [length]. lia. }
  destruct (decide (t = 2)) as [->|Ht2].
  { rewrite scan_zeros_done. intros [= <-]. cbn [length]. lia. }
  rewrite scan_zeros_cons by done.
  destruct (decide (b = x00)); [destruct (decide (n ≠ 6))|destruct (decide (n > 0))];
    (destruct (scan_zeros bs _ _) as [k'|] eqn:Hk; [|done]);
    cbn; intros [= <-]; apply IH in Hk; cbn [length]; lia.
Qed.

Lemma advance_bookkeeping n r :
  (n ≤ length (avail (compressed r)))%nat →
  header (advance n r) = header r
  ∧ fault (compressed (advance n r)) = fault (compressed r)
  ∧ avail (compressed (advance n r)) `suffix_of` avail (compressed r)
  ∧ (length (avail (compressed r)) - length (avail (compressed (advance n r))))%nat = n
  ∧ offset (advance n r) = offset r + Z.of_nat n.
Proof.
  intros Hn. unfold advance. cbn [header compressed fault avail offset].
  split_and!; [done|done|apply suffix_drop| |done].
  rewrite length_drop. lia.
Qed.

(** X15. Whatever readHeaderMagic returns, it has only moved the cursor:
    the header of the reader is untouched, the bytes left are a tail of the
    bytes it had, and the offset has grown by the number of bytes consumed.
    When it returns without an error it has consumed at least 21 bytes, the
    magic and twice seven zero bytes. *)
Theorem readHeaderMagic_bookkeeping r res r' :
  readHeaderMagic r = Some (res, r') →
  header r' = header r
  ∧ fault (compressed r') = fault (compressed r)
  ∧ avail (compressed r') `suffix_of` avail (compressed r)
  ∧ offset r' =
    offset r + Z.of_nat (length (avail (compressed r)) - length (avail (compressed r')))
  ∧ (res = Ok tt →
     (21 ≤ length (avail (compressed r)) - length (avail (compressed r')))%nat).
Proof.
  assert (Hadv : ∀ n, (n ≤ length (avail (compressed r)))%nat →
            header (advance n r) = header r
            ∧ fault (compressed (advance n r)) = fault (compressed r)
            ∧ avail (compressed (advance n r)) `suffix_of` avail (compressed r)
            ∧ offset (advance n r) =
              offset r + Z.of_nat (length (avail (compressed r))
                                   - length (avail (compressed (advance n r))))
            ∧ (length (avail (compressed r))
               - length (avail (compressed (advance n r))))%nat = n).
  { intros n Hn. destruct (advance_bookkeeping n r Hn) as (? & ? & ? & Hl & ?).
    rewrite Hl. by split_and!. }
  rewrite readHeaderMagic_cases. intros [= H].
  destruct (Read 7 r) as [[b|e] r1] eqn:HR.
  - apply Read_Ok in HR as (Hb & Hav & ->).
    assert (H7 : (7 ≤ length (avail (compressed r)))%nat)
      by (rewrite Hav, length_app; lia).
    case_decide.
    { injection H as <- <-. destruct (Hadv 7%nat H7) as (? & ? & ? & ? & ?).
      by split_and!. }
    destruct (scan_zeros _ 0 0) as [k|] eqn:Hk.
    + injection H as <- <-.
      apply scan_zeros_bounds in Hk as [Hk1 Hk2]; [|lia..].
      rewrite advance_advance.
      assert (Hlen : length (avail (compressed (advance 7 r))) =
                     (length (avail (compressed r)) - 7)%nat)
        by (cbn; by rewrite length_drop).
      destruct (Hadv (7 + k)%nat) as (? & ? & ? & ? & Hl); [lia|].
      split_and!; [done..|]. intros _. lia.
    + injection H as <- <-. rewrite advance_advance.
      assert (Hlen : length (avail (compressed (advance 7 r))) =
                     (length (avail (compressed r)) - 7)%nat)
        by (cbn; by rewrite length_drop).
      destruct (Hadv (7 + length (avail (compressed (advance 7 r))))%nat)
        as (? & ? & ? & ? & Hl); [lia|].
      by split_and!.
  - injection H as <- <-. pose proof HR as HR'. apply Read_Err in HR' as [Hlt _].
    rewrite Read_short in HR by done. injection HR as _ <-.
    destruct (Hadv (length (avail (compressed r)))) as (? & ? & ? & ? & ?); [lia|].
    by split_and!.
Qed.

Lemma readHeaderMagic_bookkeeping_witness :
  ∃ r', readHeaderMagic (reader_of (sample_magic ++ [x2a])) = Some (Ok tt, r')
        ∧ header r' = Header0
        ∧ avail (compressed r') `suffix_of` sample_magic ++ [x2a]
        ∧ offset r' = 26
        ∧ (21 ≤ length (sample_magic ++ [x2a]) - length (avail (compressed r')))%nat.
Proof.
  pose (r' := match readHeaderMagic (reader_of (sample_magic ++ [x2a])) with
              | Some (_, r') => r'
              | None => reader_of []
              end).
  assert (H : readHeaderMagic (reader_of (sample_magic ++ [x2a])) = Some (Ok tt, r'))
    by (vm_compute; reflexivity).
  destruct (readHeaderMagic_bookkeeping _ _ _ H) as (Hh & _ & Hs & Ho & Hl).
  exists r'. split; [exact H|]. split; [exact Hh|]. split; [exact Hs|].
  split; [rewrite Ho; vm_compute; reflexivity|exact (Hl eq_refl)].
Defined.

(** ** Reads and seeks on a known stream *)

Lemma seek_scan_app p seen a rest out rem :
  seek_scan p seen a = Some (out, rem) →
  seek_scan p seen (a ++ rest) = Some (out, rem ++ rest).
Proof.
  revert seen. induction a as [|b a IH]; intros seen; cbn [seek_scan app]; [done|].
  case_decide; [by intros [= <- <-]|]. apply IH.
Qed.

Lemma Seek_app pattern r pre rest :
  avail (compressed r) = pre ++ rest →
  seek_scan pattern [] pre = Some (pre, []) →
  Seek pattern r = (Ok tt, advance (length pre) r).
Proof.
  intros Hr Hs. unfold Seek, advance.
  rewrite Hr, (seek_scan_app pattern [] pre rest pre [] Hs). cbn [app].
  by rewrite drop_app_length.
Qed.

Lemma Seek_none pattern r :
  seek_scan pattern [] (avail (compressed r)) = None →
  fault (compressed r) = None →
  Seek pattern r = (Err ErrMagicMismatch, advance (length (avail (compressed r))) r).
Proof. intros Hs Hf. unfold Seek. by rewrite Hs, advance_all, Hf. Qed.

Lemma ReadInt_app r b rest :
  avail (compressed r) = b ++ rest → length b = 4%nat →
  ReadInt r = (Ok (int32_le b), advance 4 r).
Proof.
  intros Hr Hb. unfold ReadInt, try, ret. by rewrite (Read_app 4 r b rest Hr Hb).
Qed.

Lemma ReadString_app r s rest :
  (String.length s ≤ 255)%nat →
  avail (compressed r) = encode_string s ++ rest →
  ReadString r = (Ok s, advance (1 + String.length s) r).
Proof.
  intros Hs Hr. unfold ReadString, try, ret. unfold encode_string in Hr.
  rewrite (Read_app 1 r [len_byte (String.length s)] (list_byte_of_string s ++ rest) Hr eq_refl).
  cbn [nth]. rewrite len_byte_to_nat by done.
  assert (H1 : avail (compressed (advance 1 r)) = list_byte_of_string s ++ rest).
  { by apply (advance_avail 1 r [len_byte (String.length s)]). }
  rewrite (Read_app (String.length s) _ _ _ H1 (length_list_byte_of_string s)).
  by rewrite string_of_list_byte_of_string, advance_advance.
Qed.

Lemma length_encode_string s : length (encode_string s) = (1 + String.length s)%nat.
Proof. unfold encode_string. cbn [length]. by rewrite length_list_byte_of_string. Qed.

(** ** The cursor only moves forward *)

Lemma advance_0 r : advance 0 r = r.
Proof.
  unfold advance. rewrite drop_0, Z.add_0_r. by destruct r as [[? ?] ? ?].
Qed.

Lemma moved_refl r : moved r r.
Proof. exists 0%nat. split; [lia|by rewrite advance_0]. Qed.

Lemma moved_trans r1 r2 r3 : moved r1 r2 → moved r2 r3 → moved r1 r3.
Proof.
  intros (n & Hn & ->) (m & Hm & ->). exists (n + m)%nat.
  split; [|by rewrite advance_advance].
  cbn [advance compressed avail] in Hm. rewrite length_drop in Hm. lia.
Qed.

Lemma Read_moved n r : moved r (snd (Read n r)).
Proof.
  unfold Read. case_decide as Hn; cbn [snd].
  - by exists n.
  - exists (length (avail (compressed r))). split; [lia|]. by rewrite advance_all.
Qed.

Lemma seek_scan_seen p seen bs out rem :
  seek_scan p seen bs = Some (out, rem) → out ++ rem = seen ++ bs.
Proof.
  revert seen. induction bs as [|b bs IH]; intros seen; cbn [seek_scan]; [done|].
  case_decide.
  - intros [= <- <-]. by rewrite <- app_assoc.
  - intros Hs%IH. by rewrite Hs, <- app_assoc.
Qed.

Lemma Seek_moved p r : moved r (snd (Seek p r)).
Proof.
  unfold Seek. destruct (seek_scan p [] (avail (compressed r))) as [[out rem]|] eqn:Hs;
    cbn [snd].
  - apply seek_scan_seen in Hs. cbn [app] in Hs. exists (length out).
    rewrite <- Hs. split; [rewrite length_app; lia|].
    unfold advance. by rewrite <- Hs, drop_app_length.
  - exists (length (avail (compressed r))). split; [lia|]. by rewrite advance_all.
Qed.

Lemma try_moved {A B} (m : M (result A)) (k : A → M (result B)) r :
  (∀ r, moved r (snd (m r))) → (∀ a r, moved r (snd (k a r))) →
  moved r (snd (try m k r)).
Proof.
  intros Hm Hk. unfold try. specialize (Hm r).
  destruct (m r) as [[a|e] r1]; cbn [snd] in *; [|done].
  eapply moved_trans; [exact Hm|apply Hk].
Qed.

Lemma ReadInt_moved r : moved r (snd (ReadInt r)).
Proof.
  unfold ReadInt. apply try_moved; [apply Read_moved|]. intros. apply moved_refl.
Qed.

Lemma ReadString_moved r : moved r (snd (ReadString r)).
Proof.
  unfold ReadString. apply try_moved; [apply Read_moved|]. intros.
  apply try_moved; [apply Read_moved|]. intros. apply moved_refl.
Qed.

Lemma readHeaderString_moved strSep r : moved r (snd (readHeaderString strSep r)).
Proof.
  unfold readHeaderString. apply try_moved; [apply Read_moved|]. intros.
  apply try_moved; [apply Read_moved|]. intros. case_decide; [apply moved_refl|].
  apply try_moved; [apply Read_moved|]. intros. apply moved_refl.
Qed.

Lemma readHeader_loop_moved strSep fuel s r res r' :
  readHeader_loop strSep fuel s r = Some (res, r') → moved r r'.
Proof.
  revert s r. induction fuel as [|fuel IH]; intros s r; cbn [readHeader_loop]; [done|].
  pose proof (readHeaderString_moved strSep r) as H1.
  destruct (readHeaderString strSep r) as [[k|e] r1]; cbn [snd] in H1;
    [|by intros [= <- <-]].
  pose proof (readHeaderString_moved strSep r1) as H2.
  destruct (readHeaderString strSep r1) as [[v|e] r2]; cbn [snd] in H2;
    [|intros [= <- <-]; by eapply moved_trans].
  assert (H12 : moved r r2) by (by eapply moved_trans).
  destruct (header_pair k v s) as [s1|e]; [|by intros [= <- <-]].
  destruct (lastProp s1); [by intros [= <- <-]|].
  intros H%IH. by eapply moved_trans.
Qed.

(** X17. readHeader only moves the cursor, whatever it returns: the reader
    it leaves is the reader it was given some bytes further on, no more
    than the stream had, with the offset grown by as many, and the header
    held by the reader is not written to. *)
Theorem readHeader_moves_cursor strSep time_Parse r res r' :
  readHeader strSep time_Parse r = Some (res, r') →
  ∃ n, (n ≤ length (avail (compressed r)))%nat ∧ r' = advance n r.
Proof.
  unfold readHeader.
  destruct (readHeader_loop strSep _ hstate0 r) as [[[s|e] r1]|] eqn:Hloop; [| |done].
  - intros [= _ <-]. by apply readHeader_loop_moved in Hloop.
  - intros [= _ <-]. by apply readHeader_loop_moved in Hloop.
Qed.

Lemma readHeader_moves_cursor_witness :
  ∃ n, (n ≤ length sample_header_stream)%nat
       ∧ match readHeader sample_strSep sample_time_Parse (reader_of sample_header_stream) with
         | Some (_, r') => r'
         | None => reader_of []
         end = advance n (reader_of sample_header_stream).
Proof.
  pose (res := match readHeader sample_strSep sample_time_Parse
                       (reader_of sample_header_stream) with
               | Some (res, _) => res
               | None => (Header0, None)
               end).
  pose (r' := match readHeader sample_strSep sample_time_Parse
                      (reader_of sample_header_stream) with
              | Some (_, r') => r'
              | None => reader_of []
              end).
  apply (readHeader_moves_cursor sample_strSep sample_time_Parse
           (reader_of sample_header_stream) res r').
  vm_compute. reflexivity.
Defined.

Lemma moved_moved_players r r' : moved r r' → moved_players r r'.
Proof.
  intros (n & Hn & ->). exists n, (Players (header r)). split; [done|].
  unfold advance. cbn [compressed offset header]. f_equal.
  by destruct (header r).
Qed.

Lemma moved_players_trans r1 r2 r3 :
  moved_players r1 r2 → moved_players r2 r3 → moved_players r1 r3.
Proof.
  intros (n & ps & Hn & ->) (m & ps' & Hm & ->).
  cbn [advance compressed avail offset header] in *. rewrite length_drop in Hm.
  exists (n + m)%nat, ps'. split; [lia|].
  rewrite drop_drop. f_equal. lia.
Qed.

Lemma reconcile_players_moved u pid t r :
  moved_players r (snd (reconcile_players u pid t r)).
Proof.
  exists 0%nat, (reconcile (Players (header r)) u pid t). split; [lia|].
  cbn [reconcile_players snd]. rewrite advance_0. f_equal. lia.
Qed.

Lemma readPlayers_loop_moved todo c r :
  moved_players r (snd (readPlayers_loop todo c r)).
Proof.
  revert c r. induction todo as [|todo IH]; intros c r.
  { apply moved_moved_players, moved_refl. }
  rewrite readPlayers_loop_S.
  pose proof (moved_moved_players _ _ (Seek_moved indicator r)) as H1.
  destruct (Seek indicator r) as [[[]|e1] r1]; cbn [snd] in H1;
    [|by case_decide].
  pose proof (moved_players_trans _ _ _ H1 (moved_moved_players _ _ (ReadInt_moved r1)))
    as H2.
  destruct (ReadInt r1) as [[ti|e2] r2]; cbn [snd] in H2; [|done].
  pose proof (moved_players_trans _ _ _ H2 (moved_moved_players _ _ (Read_moved 12 r2)))
    as H3.
  destruct (Read 12 r2) as [[b|e3] r3]; cbn [snd] in H3; [|done].
  pose proof (moved_players_trans _ _ _ H3 (moved_moved_players _ _ (ReadString_moved r3)))
    as H4.
  destruct (ReadString r3) as [[u|e4] r4]; cbn [snd] in H4; [|done].
  pose proof (moved_players_trans _ _ _ H4
                (moved_moved_players _ _ (Seek_moved profileIDIndicator r4))) as H5.
  destruct (Seek profileIDIndicator r4) as [[[]|e5] r5]; cbn [snd] in H5; [|done].
  pose proof (moved_players_trans _ _ _ H5 (moved_moved_players _ _ (ReadString_moved r5)))
    as H6.
  destruct (ReadString r5) as [[pid|e6] r6]; cbn [snd] in H6; [|done].
  cbv zeta.
  set (t := if decide (Z.rem ti 2 = 0) then 1 else 0).
  pose proof (moved_players_trans _ _ _ H6 (reconcile_players_moved u pid t r6)) as H7.
  set (r7 := snd (reconcile_players u pid t r6)) in *.
  pose proof (moved_players_trans _ _ _ H7
                (moved_moved_players _ _ (Seek_moved unknownIndicator r7))) as H8.
  destruct (Seek unknownIndicator r7) as [[[]|e8] r8]; cbn [snd] in H8; [|done].
  pose proof (moved_players_trans _ _ _ H8 (moved_moved_players _ _ (Read_moved 30 r8)))
    as H9.
  destruct (Read 30 r8) as [[unk|e9] r9]; cbn [snd] in H9; [|done].
  eapply moved_players_trans; [exact H9|apply IH].
Qed.

(** X18. Whatever readPlayers returns, it has moved the cursor forward and
    written to the list of players, and to nothing else: every other field
    of the header held by the reader is as it was, and the offset has grown
    by the number of bytes consumed. *)
Theorem readPlayers_only_players r :
  ∃ n ps, (n ≤ length (avail (compressed r)))%nat
          ∧ snd (readPlayers r) =
            mkReader (compressed (advance n r)) (offset r + Z.of_nat n)
                     (set_Players ps (header r)).
Proof. rewrite readPlayers_loop_snd. apply readPlayers_loop_moved. Qed.

(** ** The fields of a player record *)

Lemma field_text_cons f k v kvs old :
  field_text f ((k, v) :: kvs) old = field_text f kvs (if decide (k = f) then v else old).
Proof.
  unfold field_text. rewrite values_of_cons. case_decide; [|done]. cbn [app].
  rewrite last_cons. by destruct (last (values_of f kvs)).
Qed.

Lemma field_int_cons f k v kvs old :
  field_int f ((k, v) :: kvs) old =
  field_int f kvs (if decide (k = f) then fst (Atoi v) else old).
Proof.
  unfold field_int. rewrite values_of_cons. case_decide; [|done]. cbn [app].
  rewrite last_cons. by destruct (last (values_of f kvs)).
Qed.

(** The pairs of an open player record, field by field. *)
Lemma header_pairs_open_record kvs s :
  playerData s = true →
  props s !! "teamscore1" = None →
  Forall (λ kv, fst kv ≠ "playerid" ∧ fst kv ≠ "playlistcategory" ∧ fst kv ≠ "id"
                ∧ (fst kv ∈ record_ints → snd (Atoi (snd kv)) = None)) kvs →
  header_pairs kvs s =
  Running (mkHstate (props s) (gmSettings s) (players s)
             (mkPlayer (ID (currentPlayer s)) (ProfileID (currentPlayer s))
                (field_text "playername" kvs (Username (currentPlayer s)))
                (field_int "team" kvs (TeamIndex (currentPlayer s)))
                (field_int "heroname" kvs (HeroName (currentPlayer s)))
                (field_int "alliance" kvs (Alliance (currentPlayer s)))
                (field_int "roleimage" kvs (RoleImage (currentPlayer s)))
                (field_text "rolename" kvs (RoleName (currentPlayer s)))
                (field_int "roleportrait" kvs (RolePortrait (currentPlayer s))))
             true).
Proof.
  revert s. induction kvs as [|[k v] kvs IH]; intros s Hpd Hts Hall.
  { destruct s as [ps gm pl [] pd]. cbn in *. by subst pd. }
  apply Forall_cons in Hall as [(Hk1 & Hk2 & Hk3 & Hint) Hall]. cbn [fst snd] in *.
  assert (Hstep : ∃ cur,
            header_pair k v s = Ok (mkHstate (props s) (gmSettings s) (players s) cur true)
            ∧ ID cur = ID (currentPlayer s) ∧ ProfileID cur = ProfileID (currentPlayer s)
            ∧ Username cur =
              (if decide (k = "playername") then v else Username (currentPlayer s))
            ∧ TeamIndex cur =
              (if decide (k = "team") then fst (Atoi v) else TeamIndex (currentPlayer s))
            ∧ HeroName cur =
              (if decide (k = "heroname") then fst (Atoi v) else HeroName (currentPlayer s))
            ∧ Alliance cur =
              (if decide (k = "alliance") then fst (Atoi v) else Alliance (currentPlayer s))
            ∧ RoleImage cur =
              (if decide (k = "roleimage") then fst (Atoi v)
               else RoleImage (currentPlayer s))
            ∧ RoleName cur =
              (if decide (k = "rolename") then v else RoleName (currentPlayer s))
            ∧ RolePortrait cur =
              (if decide (k = "roleportrait") then fst (Atoi v)
               else RolePortrait (currentPlayer s))).
  { rewrite header_pair_in_record by done. cbv zeta.
    rewrite !(decide_False (P := k = "playerid")) by done.
    destruct s as [ps gm pl [a b c d e f g h i] pd].
    cbn [props gmSettings players currentPlayer playerData] in *. subst pd.
    destruct (Atoi v) as [n [err|]] eqn:Hv; cbn [fst snd] in Hint |- *.
    - assert (Hni : k ∉ record_ints) by (by intros ?%Hint).
      unfold record_ints in Hni. repeat (apply not_elem_of_cons in Hni as [? Hni]).
      repeat (case_decide; [first [congruence
                                        |subst k; simpl; eexists;
                                         (split; [reflexivity|by split_and!])]|]).
      eexists. split; [reflexivity|by split_and!].
    - repeat (case_decide; [subst k; simpl; eexists;
                                  (split; [reflexivity|by split_and!])|]).
      eexists. split; [reflexivity|by split_and!]. }
  destruct Hstep as (cur & Hp & H1 & H2 & H3 & H4 & H5 & H6 & H7 & H8 & H9).
  rewrite (header_pairs_step k v kvs s _ Hp Hts).
  rewrite (IH (mkHstate (props s) (gmSettings s) (players s) cur true) eq_refl Hts Hall).
  cbn [props gmSettings players currentPlayer].
  rewrite !field_text_cons, !field_int_cons.
  by rewrite H1, H2, H3, H4, H5, H6, H7, H8, H9.
Qed.

(** X19. The pairs of an open player record, up to the key that closes it
    or opens the next, every number among them accepted by Atoi: the loop
    runs on with the record open, and the player in progress holds in each
    field the value read last under its key, converted for the five
    numbers, or what the field held when no pair has its key. The order of
    the pairs of different keys does not matter, the identifier and the
    profile id are not touched, and neither are the property map, the GM
    settings and the players already appended. *)
Theorem header_pairs_record_fields kvs s :
  playerData s = true →
  props s !! "teamscore1" = None →
  Forall (λ kv, fst kv ≠ "playerid" ∧ fst kv ≠ "playlistcategory" ∧ fst kv ≠ "id"
                ∧ (fst kv ∈ record_ints → snd (Atoi (snd kv)) = None)) kvs →
  header_pairs kvs s =
  Running (mkHstate (props s) (gmSettings s) (players s)
             (mkPlayer (ID (currentPlayer s)) (ProfileID (currentPlayer s))
                (field_text "playername" kvs (Username (currentPlayer s)))
                (field_int "team" kvs (TeamIndex (currentPlayer s)))
                (field_int "heroname" kvs (HeroName (currentPlayer s)))
                (field_int "alliance" kvs (Alliance (currentPlayer s)))
                (field_int "roleimage" kvs (RoleImage (currentPlayer s)))
                (field_text "rolename" kvs (RoleName (currentPlayer s)))
                (field_int "roleportrait" kvs (RolePortrait (currentPlayer s))))
             true).
Proof. apply header_pairs_open_record. Qed.

Lemma header_pairs_record_fields_witness :
  header_pairs [("team", "1"); ("playername", "al"); ("rolename", "ASH");
                ("playername", "alice"); ("score", "9")]
               (mkHstate ∅ [] [] (set_ID "p1" Player0) true) =
  Running (mkHstate ∅ [] [] (mkPlayer "p1" "" "alice" 1 0 0 0 "ASH" 0) true).
Proof.
  apply (header_pairs_record_fields
           [("team", "1"); ("playername", "al"); ("rolename", "ASH");
            ("playername", "alice"); ("score", "9")]
           (mkHstate ∅ [] [] (set_ID "p1" Player0) true)).
  - reflexivity.
  - reflexivity.
  - repeat (constructor;
            [simpl; split_and!;
             [discriminate|discriminate|discriminate|
              first [ intros _; vm_compute; reflexivity
                    | intros H; exfalso; unfold record_ints in H;
                      repeat (apply elem_of_cons in H as [H|H]; [discriminate|]);
                      by apply elem_of_nil in H ]]|]).
    constructor.
Defined.

(** * The scanner and the header loop on whole streams *)

(** ** Where a seek ends *)

Lemma drop_suffix (p l : list byte) :
  drop (length l - length p) l = p ↔ p `suffix_of` l.
Proof.
  split.
  - intros H. exists (take (length l - length p) l).
    rewrite <- H at 2. by rewrite take_drop.
  - intros [k ->]. rewrite length_app.
    replace (length k + length p - length p)%nat with (length k) by lia.
    by rewrite drop_app_length.
Qed.

Lemma seek_scan_Some p seen bs :
  (∀ q, q `prefix_of` bs → q ≠ [] → q ≠ bs → ¬ p `suffix_of` seen ++ q) →
  bs ≠ [] → p `suffix_of` seen ++ bs →
  seek_scan p seen bs = Some (seen ++ bs, []).
Proof.
  revert seen. induction bs as [|b bs IH]; intros seen Hq Hne Hsuf; [done|].
  cbn [seek_scan]. destruct bs as [|b' bs].
  - rewrite decide_True by (by apply drop_suffix). done.
  - rewrite decide_False.
    + rewrite IH; [by rewrite <- app_assoc| |done|by rewrite <- app_assoc].
      intros q Hpre Hq1 Hq2. rewrite <- app_assoc. cbn [app].
      apply Hq; [by apply prefix_cons|done|congruence].
    + rewrite drop_suffix. apply (Hq [b]); [|done|done].
      by exists (b' :: bs).
Qed.

Lemma seek_scan_None p seen bs :
  (∀ q, q `prefix_of` bs → q ≠ [] → ¬ p `suffix_of` seen ++ q) →
  seek_scan p seen bs = None.
Proof.
  revert seen. induction bs as [|b bs IH]; intros seen Hq; [done|].
  cbn [seek_scan]. rewrite decide_False.
  - apply IH. intros q Hpre Hq1. rewrite <- app_assoc. cbn [app].
    apply Hq; [by apply prefix_cons|done].
  - rewrite drop_suffix. apply (Hq [b]); [|done]. by exists bs.
Qed.

Lemma seek_scan_before p seen bs out rem :
  seek_scan p seen bs = Some (out, rem) →
  ∀ q, q `prefix_of` bs → q ≠ [] → (length (seen ++ q) < length out)%nat →
       ¬ p `suffix_of` seen ++ q.
Proof.
  revert seen. induction bs as [|b bs IH]; intros seen; cbn [seek_scan]; [done|].
  case_decide as Hd.
  - intros [= <- <-] q Hpre Hq Hlen. destruct q as [|b0 q]; [done|].
    rewrite !length_app in Hlen. cbn [length] in Hlen. lia.
  - intros Hs q Hpre Hq Hlen. destruct q as [|b0 q]; [done|].
    apply prefix_cons_inv_1 in Hpre as Hb. subst b0.
    apply prefix_cons_inv_2 in Hpre.
    destruct q as [|b1 q].
    + by rewrite <- drop_suffix.
    + replace (seen ++ b :: b1 :: q) with ((seen ++ [b]) ++ b1 :: q)
        by (by rewrite <- app_assoc).
      apply (IH _ Hs); [done|done|]. by rewrite <- app_assoc.
Qed.

Lemma seek_scan_None_inv p seen bs :
  seek_scan p seen bs = None →
  ∀ q, q `prefix_of` bs → q ≠ [] → ¬ p `suffix_of` seen ++ q.
Proof.
  revert seen. induction bs as [|b bs IH]; intros seen; cbn [seek_scan].
  - intros _ q Hpre Hq. apply prefix_nil_inv in Hpre. done.
  - case_decide as Hd; [done|]. intros Hs q Hpre Hq. destruct q as [|b0 q]; [done|].
    apply prefix_cons_inv_1 in Hpre as Hb. subst b0.
    apply prefix_cons_inv_2 in Hpre.
    destruct q as [|b1 q].
    + by rewrite <- drop_suffix.
    + replace (seen ++ b :: b1 :: q) with ((seen ++ [b]) ++ b1 :: q)
        by (by rewrite <- app_assoc).
      by apply (IH _ Hs).
Qed.

(** A marker met first behind [g] is where the search ends. *)
Lemma first_behind_seek p g :
  p ≠ [] → first_behind p g → seek_scan p [] (g ++ p) = Some (g ++ p, []).
Proof.
  intros Hp Hfirst. apply (seek_scan_Some p [] (g ++ p)).
  - intros q Hpre _ Hq. cbn [app]. by apply Hfirst.
  - destruct g; [done|discriminate].
  - cbn [app]. by exists g.
Qed.

(** And the other way round, for checking a layout by running the search. *)
Lemma first_behind_check p g :
  p ≠ [] → seek_scan p [] (g ++ p) = Some (g ++ p, []) → first_behind p g.
Proof.
  intros Hp Hs q Hpre Hq.
  destruct q as [|b q].
  { intros [k Hk]. symmetry in Hk. apply app_eq_nil in Hk as [_ ?]. done. }
  apply (seek_scan_before p [] (g ++ p) _ _ Hs (b :: q)); [done|done|].
  cbn [app]. destruct Hpre as [k Hk]. rewrite Hk, length_app.
  destruct k; [by rewrite app_nil_r in Hk|cbn [length]; lia].
Qed.

Lemma absent_seek p bs : absent p bs → seek_scan p [] bs = None.
Proof. intros Habs. apply seek_scan_None. intros q Hpre _. by apply Habs. Qed.

Lemma absent_check p bs : p ≠ [] → seek_scan p [] bs = None → absent p bs.
Proof.
  intros Hp Hs q Hpre. destruct q as [|b q].
  { intros [k Hk]. symmetry in Hk. apply app_eq_nil in Hk as [_ ?]. done. }
  by apply (seek_scan_None_inv p [] bs Hs (b :: q)).
Qed.

(** ** The scanner on records laid out on the stream *)

Lemma Seek_behind pattern g r rest :
  pattern ≠ [] → first_behind pattern g →
  avail (compressed r) = (g ++ pattern) ++ rest →
  Seek pattern r = (Ok tt, advance (length (g ++ pattern)) r).
Proof.
  intros Hp Hfirst Hr. apply (Seek_app pattern r (g ++ pattern) rest Hr).
  by apply first_behind_seek.
Qed.

(** One turn of the scanner on a record laid out on the stream. *)
Lemma readPlayers_loop_scanned todo c r x rest :
  well_laid x →
  avail (compressed r) = encode_scanned x ++ rest →
  readPlayers_loop (S todo) c r =
  readPlayers_loop todo (c ++ [(scanned_username x, unknown_bytes x)])
    (mkReader (mkSource rest (fault (compressed r)))
              (offset r + Z.of_nat (length (encode_scanned x)))
              (set_Players (reconcile_scanned (Players (header r)) x) (header r))).
Proof.
  intros (Hgap & Ht & Hsk & Hu & Hpg & Hp & Hug & Hunk) Hr.
  destruct x as [g t f12 u pg pid ug f30].
  unfold encode_scanned, reconcile_scanned in *.
  cbn [gap team_bytes skipped scanned_username profile_gap scanned_profileID
       unknown_gap unknown_bytes] in *.
  rewrite readPlayers_loop_S.
  assert (H0 : avail (compressed r) =
               (g ++ indicator) ++ t ++ f12 ++ encode_string u
                 ++ (pg ++ profileIDIndicator) ++ encode_string pid
                 ++ (ug ++ unknownIndicator) ++ f30 ++ rest).
  { rewrite Hr. by rewrite <- !app_assoc. }
  rewrite (Seek_behind indicator g r _ ltac:(discriminate) Hgap H0).
  set (r1 := advance (length (g ++ indicator)) r).
  assert (H1 : avail (compressed r1) =
               t ++ f12 ++ encode_string u ++ (pg ++ profileIDIndicator)
                 ++ encode_string pid ++ (ug ++ unknownIndicator) ++ f30 ++ rest)
    by (by apply (advance_avail _ r (g ++ indicator))).
  rewrite (ReadInt_app r1 t _ H1 Ht).
  set (r2 := advance 4 r1).
  assert (H2 : avail (compressed r2) =
               f12 ++ encode_string u ++ (pg ++ profileIDIndicator)
                 ++ encode_string pid ++ (ug ++ unknownIndicator) ++ f30 ++ rest)
    by (by apply (advance_avail 4 r1 t)).
  rewrite (Read_app 12 r2 f12 _ H2 Hsk).
  set (r3 := advance 12 r2).
  assert (H3 : avail (compressed r3) =
               encode_string u ++ (pg ++ profileIDIndicator)
                 ++ encode_string pid ++ (ug ++ unknownIndicator) ++ f30 ++ rest)
    by (by apply (advance_avail 12 r2 f12)).
  rewrite (ReadString_app r3 u _ Hu H3).
  set (r4 := advance (1 + String.length u) r3).
  assert (H4 : avail (compressed r4) =
               (pg ++ profileIDIndicator) ++ encode_string pid
                 ++ (ug ++ unknownIndicator) ++ f30 ++ rest).
  { apply (advance_avail _ r3 (encode_string u)); [done|apply length_encode_string]. }
  rewrite (Seek_behind profileIDIndicator pg r4 _ ltac:(discriminate) Hpg H4).
  set (r5 := advance (length (pg ++ profileIDIndicator)) r4).
  assert (H5 : avail (compressed r5) =
               encode_string pid ++ (ug ++ unknownIndicator) ++ f30 ++ rest)
    by (by apply (advance_avail _ r4 (pg ++ profileIDIndicator))).
  rewrite (ReadString_app r5 pid _ Hp H5).
  set (r6 := advance (1 + String.length pid) r5).
  assert (H6 : avail (compressed r6) = (ug ++ unknownIndicator) ++ f30 ++ rest).
  { apply (advance_avail _ r5 (encode_string pid)); [done|apply length_encode_string]. }
  cbv zeta. rewrite rem2_even.
  set (ti := if Z.even (int32_le t) then 1 else 0).
  set (r7 := snd (reconcile_players u pid ti r6)).
  assert (H7 : avail (compressed r7) = (ug ++ unknownIndicator) ++ f30 ++ rest)
    by exact H6.
  rewrite (Seek_behind unknownIndicator ug r7 _ ltac:(discriminate) Hug H7).
  set (r8 := advance (length (ug ++ unknownIndicator)) r7).
  assert (H8 : avail (compressed r8) = f30 ++ rest)
    by (by apply (advance_avail _ r7 (ug ++ unknownIndicator))).
  rewrite (Read_app 30 r8 f30 rest H8 Hunk).
  f_equal.
  assert (H9 : avail (compressed (advance 30 r8)) = rest)
    by (by apply (advance_avail 30 r8 f30)).
  destruct (advance 30 r8) as [[av9 fl9] o9 h9] eqn:E9.
  cbn [compressed avail] in H9. subst av9.
  apply (f_equal (λ r, (fault (compressed r), offset r, header r))) in E9.
  cbn [compressed fault offset header advance] in E9.
  injection E9 as <- <- <-.
  subst r8 r7 r6 r5 r4 r3 r2 r1.
  cbn [advance reconcile_players snd compressed fault offset header].
  f_equal.
  rewrite !length_app, !length_encode_string, Ht, Hsk, Hunk.
  change (length indicator) with 6%nat.
  change (length profileIDIndicator) with 4%nat.
  change (length unknownIndicator) with 6%nat.
  lia.
Qed.

(** The turns of the scanner on records laid out one after the other: the
    collector, the list of players, and where the reader is left. *)
Lemma readPlayers_loop_records recs :
  ∀ todo c r rest,
    Forall well_laid recs →
    avail (compressed r) = concat (map encode_scanned recs) ++ rest →
    ((length recs < todo)%nat → absent indicator rest ∧ fault (compressed r) = None) →
    ∃ r', readPlayers_loop todo c r =
          (Ok (c ++ map (λ x, (scanned_username x, unknown_bytes x)) (take todo recs)), r')
          ∧ Players (header r') =
            foldl reconcile_scanned (Players (header r)) (take todo recs)
          ∧ avail (compressed r') =
            if decide (length recs < todo)%nat then []
            else concat (map encode_scanned (drop todo recs)) ++ rest.
Proof.
  induction recs as [|x recs IH]; intros todo c r rest Hall Hr Hend.
  - destruct todo as [|todo].
    { exists r. cbn. rewrite app_nil_r. by split_and!. }
    cbn [map concat app] in Hr. destruct Hend as [Hnone Hf]; [cbn; lia|].
    apply absent_seek in Hnone.
    rewrite readPlayers_loop_S. rewrite <- Hr in Hnone.
    rewrite (Seek_none indicator r Hnone Hf). rewrite decide_False by auto.
    eexists. split_and!; [cbn; by rewrite app_nil_r|done|].
    rewrite decide_True by (cbn; lia). cbn. by rewrite drop_all.
  - destruct todo as [|todo].
    { exists r. cbn [take map foldl]. rewrite app_nil_r. split_and!; [done..|].
      rewrite decide_False by lia. by rewrite drop_0. }
    apply Forall_cons in Hall as [Hx Hall].
    cbn [map concat] in Hr. rewrite <- app_assoc in Hr.
    rewrite (readPlayers_loop_scanned todo c r x _ Hx Hr).
    edestruct (IH todo (c ++ [(scanned_username x, unknown_bytes x)])) as (r' & -> & Hp & Hav);
      [exact Hall|reflexivity| |].
    { intros Hlt. cbn [compressed fault]. apply Hend. cbn [length]. lia. }
    exists r'. split_and!; [by rewrite <- app_assoc|by rewrite Hp|].
    rewrite Hav. cbn [length drop].
    destruct (decide (length recs < todo)%nat);
      [by rewrite decide_True by lia|by rewrite decide_False by lia].
Qed.

Lemma readPlayers_on_records recs rest r :
  Forall well_laid recs →
  avail (compressed r) = concat (map encode_scanned recs) ++ rest →
  ((length recs < 10)%nat → absent indicator rest ∧ fault (compressed r) = None) →
  ∃ r', readPlayers r = (Ok tt, r')
        ∧ fst (readPlayers_loop 10 [] r) =
          Ok (map (λ x, (scanned_username x, unknown_bytes x)) (take 10 recs))
        ∧ Players (header r') =
          foldl reconcile_scanned (Players (header r)) (take 10 recs)
        ∧ avail (compressed r') =
          if decide (length recs < 10)%nat then []
          else concat (map encode_scanned (drop 10 recs)) ++ rest.
Proof.
  intros Hall Hr Hend.
  destruct (readPlayers_loop_records recs 10 [] r rest Hall Hr Hend)
    as (r' & Hloop & Hp & Hav).
  exists r'. unfold readPlayers. rewrite Hloop. by split_and!.
Qed.

Ltac well_laid_sample :=
  repeat (constructor;
          [split_and!;
           first [ apply first_behind_check; [discriminate|reflexivity]
                 | reflexivity
                 | simpl; lia ]|]);
  constructor.

Lemma absent_nil p : p ≠ [] → absent p [].
Proof. intros Hp. by apply absent_check. Qed.

(** X16. On a scanner region made of records laid out one after the other,
    whatever bytes lie before each marker as long as the marker is not met
    earlier, and whatever the twelve skipped and the thirty unknown bytes
    are, readPlayers returns without an error and leaves the list of players
    reconciled with the first ten records, in the order of the stream, the
    team index of each being 1 for an even team indicator and 0 for an odd
    one. Fewer than ten records are all used when the team marker does not
    occur behind them and the stream ends cleanly; records beyond the tenth
    are left on the stream. *)
Theorem readPlayers_records recs rest r :
  Forall well_laid recs →
  avail (compressed r) = concat (map encode_scanned recs) ++ rest →
  ((length recs < 10)%nat → absent indicator rest ∧ fault (compressed r) = None) →
  ∃ r', readPlayers r = (Ok tt, r')
        ∧ Players (header r') =
          foldl (λ ps x,
                   reconcile ps (scanned_username x) (scanned_profileID x)
                             (if Z.even (int32_le (team_bytes x)) then 1 else 0))
                (Players (header r)) (take 10 recs)
        ∧ avail (compressed r') =
          if decide (length recs < 10)%nat then []
          else concat (map encode_scanned (drop 10 recs)) ++ rest.
Proof.
  intros Hall Hr Hend.
  destruct (readPlayers_on_records recs rest r Hall Hr Hend) as (r' & H1 & _ & H3 & H4).
  by exists r'.
Qed.

Lemma readPlayers_records_witness :
  ∃ r', readPlayers sample_scan_reader = (Ok tt, r')
        ∧ Players (header r') =
          [sample_alice; mkPlayer "p2" "prof-b" "bob" 0 5 0 6 "MUTE" 7;
           mkPlayer "" "prof-c" "carol" 1 0 0 0 "" 0]
        ∧ avail (compressed r') = [].
Proof.
  apply (readPlayers_records sample_scanned [] sample_scan_reader).
  - unfold sample_scanned. well_laid_sample.
  - reflexivity.
  - intros _. split; [apply absent_nil; discriminate|reflexivity].
Defined.

(** X4. A turn of the scanner whose calls all succeed reconciles exactly
    the record it has read. When it is the last turn, or the seek for the
    team marker of the next turn reports ErrMagicMismatch, the loop returns
    without an error, the record pushed to the collector, and the list of
    players it leaves is the list before, reconciled with the username and
    profile id read and with team index 1 for an even team indicator and 0
    for an odd one, negative indicators included. *)
Theorem readPlayers_turn_reconciles
    c r r1 teamIndicator r2 b r3 username r4 r5 profileID r6 r8 unknown r9 :
  Seek indicator r = (Ok tt, r1) →
  ReadInt r1 = (Ok teamIndicator, r2) →
  Read 12 r2 = (Ok b, r3) →
  ReadString r3 = (Ok username, r4) →
  Seek profileIDIndicator r4 = (Ok tt, r5) →
  ReadString r5 = (Ok profileID, r6) →
  Seek unknownIndicator
       (snd (reconcile_players username profileID
               (if Z.even teamIndicator then 1 else 0) r6)) = (Ok tt, r8) →
  Read 30 r8 = (Ok unknown, r9) →
  readPlayers_loop 1 c r = (Ok (c ++ [(username, unknown)]), r9)
  ∧ Players (header (snd (readPlayers_loop 1 c r))) =
    reconcile (Players (header r)) username profileID
              (if Z.even teamIndicator then 1 else 0)
  ∧ ∀ todo r10,
      Seek indicator r9 = (Err ErrMagicMismatch, r10) →
      readPlayers_loop (S (S todo)) c r = (Ok (c ++ [(username, unknown)]), r10)
      ∧ Players (header (snd (readPlayers_loop (S (S todo)) c r))) =
        reconcile (Players (header r)) username profileID
                  (if Z.even teamIndicator then 1 else 0).
Proof.
  intros H1 H2 H3 H4 H5 H6 H8 H9.
  assert (Hturn : ∀ todo, readPlayers_loop (S todo) c r =
                          readPlayers_loop todo (c ++ [(username, unknown)]) r9).
  { intros todo. rewrite readPlayers_loop_S, H1, H2, H3, H4, H5, H6. cbv zeta.
    by rewrite rem2_even, H8, H9. }
  assert (Hplayers : Players (header r9) =
                     reconcile (Players (header r)) username profileID
                               (if Z.even teamIndicator then 1 else 0)).
  { pose proof (Seek_header indicator r) as E1. rewrite H1 in E1.
    pose proof (ReadInt_header r1) as E2. rewrite H2 in E2.
    pose proof (Read_header 12 r2) as E3. rewrite H3 in E3.
    pose proof (ReadString_header r3) as E4. rewrite H4 in E4.
    pose proof (Seek_header profileIDIndicator r4) as E5. rewrite H5 in E5.
    pose proof (ReadString_header r5) as E6. rewrite H6 in E6.
    pose proof (Seek_header unknownIndicator
                  (snd (reconcile_players username profileID
                          (if Z.even teamIndicator then 1 else 0) r6))) as E8.
    rewrite H8 in E8.
    pose proof (Read_header 30 r8) as E9. rewrite H9 in E9.
    cbn [snd] in *. rewrite E9, E8. cbn [reconcile_players snd header Players set_Players].
    congruence. }
  split_and!.
  - by rewrite Hturn.
  - by rewrite Hturn.
  - intros todo r10 H10. rewrite Hturn, readPlayers_loop_S, H10.
    rewrite decide_False by auto. cbn [snd]. split; [done|].
    pose proof (Seek_header indicator r9) as E10. rewrite H10 in E10.
    cbn [snd] in E10. by rewrite E10.
Qed.

Lemma readPlayers_turn_reconciles_witness :
  ∃ r9, readPlayers_loop 1 [] sample_scan_reader = (Ok [("bob", repeat xaa 30)], r9)
        ∧ Players (header (snd (readPlayers_loop 1 [] sample_scan_reader))) =
          [sample_alice; mkPlayer "p2" "prof-b" "bob" 0 5 0 6 "MUTE" 7].
Proof.
  pose (r1 := snd (Seek indicator sample_scan_reader)).
  pose (r2 := snd (ReadInt r1)).
  pose (r3 := snd (Read 12 r2)).
  pose (r4 := snd (ReadString r3)).
  pose (r5 := snd (Seek profileIDIndicator r4)).
  pose (r6 := snd (ReadString r5)).
  pose (r8 := snd (Seek unknownIndicator (snd (reconcile_players "bob" "prof-b" 0 r6)))).
  pose (r9 := snd (Read 30 r8)).
  exists r9.
  destruct (readPlayers_turn_reconciles [] sample_scan_reader r1 3 r2 (repeat xff 12) r3
              "bob" r4 r5 "prof-b" r6 r8 (repeat xaa 30) r9) as (Hloop & Hplayers & _);
    [vm_compute; reflexivity..|].
  split; [exact Hloop|exact Hplayers].
Defined.

(** ** Player records of the header on the stream *)

Lemma header_pair_reopen v s :
  playerData s = true →
  header_pair "playerid" v s =
  Ok (mkHstate (props s) (gmSettings s) (players s ++ [currentPlayer s])
               (set_ID v Player0) true).
Proof. intros Hpd. by rewrite header_pair_in_record. Qed.

(** The pairs of an open record, then whatever follows. *)
Lemma header_pairs_fields id fields more ps gm pl :
  ps !! "teamscore1" = None →
  record_fields_ok fields →
  header_pairs (fields ++ more) (mkHstate ps gm pl (set_ID id Player0) true) =
  header_pairs more (mkHstate ps gm pl (player_of_record (id, fields)) true).
Proof.
  intros Hts Hok.
  apply (header_pairs_app fields more).
  by rewrite (header_pairs_open_record fields
               (mkHstate ps gm pl (set_ID id Player0) true) eq_refl Hts Hok).
Qed.

Lemma last_cons_default {A} (x d : A) (l : list A) :
  default d (last (x :: l)) = default x (last l).
Proof. rewrite last_cons. by destruct (last l). Qed.

(** Records one after the other, a record being open, up to the key that
    closes the last of them. *)
Lemma header_pairs_records_open recs k v kvs :
  k = "id" ∨ k = "playlistcategory" →
  Forall (λ rec, record_fields_ok (snd rec)) recs →
  ∀ ps gm pl cur,
    ps !! "teamscore1" = None →
    header_pairs (concat (map record_pairs recs) ++ (k, v) :: kvs)
                 (mkHstate ps gm pl cur true) =
    header_pairs kvs
      (mkHstate (<[k := v]> ps) gm (pl ++ cur :: map player_of_record recs)
                (default cur (last (map player_of_record recs))) false).
Proof.
  intros Hk. induction 1 as [|[id fields] recs Hok _ IH]; intros ps gm pl cur Hts.
  - cbn [map concat app last default].
    apply header_pairs_step.
    + by rewrite header_pair_closes_record by (cbn; tauto).
    + cbn [props]. destruct Hk as [-> | ->]; by rewrite lookup_insert_ne.
  - cbn [map concat snd] in *. rewrite <- !app_assoc.
    change (record_pairs (id, fields)) with (("playerid", id) :: fields). cbn [app].
    erewrite header_pairs_step;
      [|by rewrite header_pair_reopen|by cbn [props]].
    cbn [props gmSettings players currentPlayer].
    rewrite header_pairs_fields by done.
    rewrite IH by done. rewrite last_cons_default.
    by rewrite <- app_assoc.
Qed.

(** The same from outside a record. *)
Lemma header_pairs_records recs k v kvs s :
  k = "id" ∨ k = "playlistcategory" →
  Forall (λ rec, record_fields_ok (snd rec)) recs →
  playerData s = false →
  props s !! "teamscore1" = None →
  header_pairs (concat (map record_pairs recs) ++ (k, v) :: kvs) s =
  header_pairs kvs
    (mkHstate (<[k := v]> (props s)) (gmSettings s)
              (players s ++ map player_of_record recs)
              (default (currentPlayer s) (last (map player_of_record recs))) false).
Proof.
  intros Hk Hall Hpd Hts. destruct s as [ps gm pl cur pd].
  cbn [playerData props gmSettings players currentPlayer] in *. subst pd.
  destruct Hall as [|[id fields] recs Hok Hall].
  - cbn [map concat app last default]. rewrite app_nil_r.
    apply header_pairs_step.
    + rewrite header_pair_top by (by destruct Hk as [-> | ->]).
      by rewrite decide_True by (by destruct Hk as [-> | ->]).
    + cbn [props]. destruct Hk as [-> | ->]; by rewrite lookup_insert_ne.
  - cbn [map concat snd] in *. rewrite <- !app_assoc.
    change (record_pairs (id, fields)) with (("playerid", id) :: fields). cbn [app].
    erewrite header_pairs_step;
      [|by rewrite header_pair_open|by cbn [props]].
    cbn [props gmSettings players currentPlayer].
    rewrite header_pairs_fields by done.
    rewrite (header_pairs_records_open recs k v kvs Hk Hall) by done.
    by rewrite last_cons_default.
Qed.

(** Outside a record, pairs without the key playerid leave the players as
    they are. *)
Lemma header_pairs_players_top kvs s :
  playerData s = false →
  Forall (λ kv, fst kv ≠ "playerid") kvs →
  match header_pairs kvs s with
  | Stopped s' _ | Running s' => players s' = players s ∧ playerData s' = false
  | Failed _ _ => True
  end.
Proof.
  revert s. induction kvs as [|[k v] kvs IH]; intros s Hpd Hall; [done|].
  apply Forall_cons in Hall as [Hk Hall]. cbn [fst] in Hk.
  cbn [header_pairs]. rewrite header_pair_top by done.
  assert (Hgo : ∀ s1, players s1 = players s → playerData s1 = false →
            match (if lastProp s1 then Stopped s1 kvs else header_pairs kvs s1) with
            | Stopped s' _ | Running s' => players s' = players s ∧ playerData s' = false
            | Failed _ _ => True
            end).
  { intros s1 Hpl Hpd1. destruct (lastProp s1); [done|].
    specialize (IH s1 Hpd1 Hall). rewrite Hpl in IH. exact IH. }
  case_decide.
  - by apply Hgo.
  - destruct (Atoi v) as [n [e|]]; [done|]. by apply Hgo.
Qed.

Lemma readHeader_assemble_Players time_Parse props players gmSettings :
  Players (fst (readHeader_assemble time_Parse props players gmSettings)) = players.
Proof.
  unfold readHeader_assemble, orReturn.
  destruct (Atoi (prop props "code")) as [? [?|]]; [done|].
  destruct (time_Parse _ (prop props "datetime")) as [? [?|]]; [done|].
  destruct (Atoi (prop props "matchtype")) as [? [?|]]; [done|].
  destruct (Atoi (prop props "worldid")) as [? [?|]]; [done|].
  destruct (Atoi (prop props "gamemodeid")) as [? [?|]]; [done|].
  destruct (Atoi (prop props "roundspermatch")) as [? [?|]]; [done|].
  destruct (Atoi (prop props "roundspermatchovertime")) as [? [?|]]; [done|].
  destruct (Atoi (prop props "roundnumber")) as [? [?|]]; [done|].
  destruct (Atoi (prop props "overtimeroundnumber")) as [? [?|]]; [done|].
  destruct (Atoi (prop props "playlistcategory")) as [? ?].
  destruct (Atoi (prop props "teamscore0")) as [? [?|]]; [done|].
  destruct (Atoi (prop props "teamscore1")) as [? [?|]]; done.
Qed.

(** readHeader on a header whose player records lie one after the other
    behind the pairs [used]: the header it returns, with or without an
    error of the assembly, holds one player for each record, built from the
    pairs of that record. *)
Lemma readHeader_records strSep time_Parse used recs k v tail s s' unread rest r :
  length strSep = 7%nat →
  Forall short_pair (used ++ concat (map record_pairs recs) ++ (k, v) :: tail) →
  header_pairs used hstate0 = Running s →
  playerData s = false →
  Forall (λ rec, record_fields_ok (snd rec)) recs →
  k = "id" ∨ k = "playlistcategory" →
  Forall (λ kv, fst kv ≠ "playerid") tail →
  header_pairs (used ++ concat (map record_pairs recs) ++ (k, v) :: tail) hstate0 =
    Stopped s' unread →
  avail (compressed r) =
    encode_pairs strSep (used ++ concat (map record_pairs recs) ++ (k, v) :: tail)
      ++ rest →
  ∃ h err r',
    readHeader strSep time_Parse r = Some ((h, err), r')
    ∧ Players h = players s ++ map player_of_record recs
    ∧ avail (compressed r') = encode_pairs strSep unread ++ rest.
Proof.
  intros Hsep Hshort Hrun Hpd Hok Hk Htail Hstop Hr.
  assert (Hts : props s !! "teamscore1" = None)
    by (by apply (header_pairs_Running used hstate0 s)).
  assert (Hpl : players s' = players s ++ map player_of_record recs).
  { pose proof Hstop as Hstop'.
    rewrite (header_pairs_app used _ hstate0 s Hrun) in Hstop'.
    rewrite (header_pairs_records recs k v tail s Hk Hok Hpd Hts) in Hstop'.
    match type of Hstop' with
    | header_pairs tail ?s1 = _ =>
        pose proof (header_pairs_players_top tail s1 eq_refl Htail) as Htop
    end.
    rewrite Hstop' in Htop. by destruct Htop as [-> _]. }
  pose proof (readHeader_pairs strSep Hsep time_Parse _ _ r Hshort Hr) as H.
  rewrite Hstop in H. destruct H as (r' & Hread & _ & Hav).
  pose proof (readHeader_assemble_Players time_Parse (props s') (players s') (gmSettings s'))
    as HP.
  destruct (readHeader_assemble time_Parse (props s') (players s') (gmSettings s'))
    as [h err]. cbn [fst] in HP.
  exists h, err, r'. split_and!; [done|congruence|done].
Qed.

(** ** Usernames and team indices through the scanner *)

Lemma reconcile_range_other ps u pid t i p :
  ps !! i = Some p → Username p ≠ u →
  snd (reconcile_range ps u pid t) !! i = Some p.
Proof.
  revert i. induction ps as [|p0 ps IH]; intros i Hi Hp; [done|].
  cbn [reconcile_range]. destruct (decide (Username p0 = u)) as [Hu|Hu].
  - destruct i as [|i]; cbn in *; [|done]. by inversion Hi; subst.
  - destruct (reconcile_range ps u pid t) as [f l] eqn:E. cbn [snd] in *.
    destruct i as [|i]; cbn in *; [done|]. by apply IH.
Qed.

Lemma reconcile_other ps u pid t i p :
  ps !! i = Some p → Username p ≠ u → reconcile ps u pid t !! i = Some p.
Proof.
  intros Hi Hp. pose proof (reconcile_range_other ps u pid t i p Hi Hp) as H.
  unfold reconcile. destruct (reconcile_range ps u pid t) as [f l]. cbn [snd] in H.
  destruct f; cbn [negb]; [done|]. by apply lookup_app_l_Some.
Qed.

Lemma reconcile_first ps u pid t i p :
  ps !! i = Some p → Username p = u →
  (∀ j q, (j < i)%nat → ps !! j = Some q → Username q ≠ u) →
  reconcile ps u pid t = <[i := set_TeamIndex t (set_ProfileID pid p)]> ps.
Proof.
  intros Hi Hp Hfirst. unfold reconcile.
  by rewrite (reconcile_range_first ps u pid t i p Hi Hp Hfirst).
Qed.

Lemma reconcile_new ps u pid t :
  u ∉ map Username ps → reconcile ps u pid t = ps ++ [mkPlayer "" pid u t 0 0 0 "" 0].
Proof. intros Hu. unfold reconcile. by rewrite reconcile_range_none. Qed.

Lemma readPlayers_usernames_prefix r :
  map Username (Players (header r))
    `prefix_of` map Username (Players (header (snd (readPlayers r)))).
Proof.
  rewrite readPlayers_loop_snd.
  apply (readPlayers_loop_players
           (λ ps, map Username (Players (header r)) `prefix_of` map Username ps)); [|done].
  intros ps u pid t _ Hpre. rewrite reconcile_usernames.
  case_bool_decide; [done|]. by apply prefix_app_r.
Qed.

(** C1 (as amended). The scanner never adds a second entry for a username.
    On records laid out on the stream it returns the list reconciled with
    the records in order; a reconciliation whose username is in the list
    rewrites the first entry of that name in place, in its profile id and
    team index, and adds no entry; one whose username is new appends one
    entry. So the usernames stay pairwise distinct when the header-derived
    list had them so. The scanner removes and merges nothing: the usernames
    of the header-derived list, duplicates included, are a prefix of the
    usernames it leaves, whatever it returns. *)
Theorem readPlayers_usernames_distinct :
  (∀ r, NoDup (map Username (Players (header r))) →
        NoDup (map Username (Players (header (snd (readPlayers r))))))
  ∧ (∀ r, map Username (Players (header r))
            `prefix_of` map Username (Players (header (snd (readPlayers r)))))
  ∧ (∀ recs rest r,
       Forall well_laid recs →
       avail (compressed r) = concat (map encode_scanned recs) ++ rest →
       ((length recs < 10)%nat → absent indicator rest ∧ fault (compressed r) = None) →
       ∃ r', readPlayers r = (Ok tt, r')
             ∧ Players (header r') =
               foldl (λ ps x,
                        reconcile ps (scanned_username x) (scanned_profileID x)
                                  (if Z.even (int32_le (team_bytes x)) then 1 else 0))
                     (Players (header r)) (take 10 recs))
  ∧ (∀ ps u pid t,
       map Username (reconcile ps u pid t) =
       if bool_decide (u ∈ map Username ps) then map Username ps
       else map Username ps ++ [u])
  ∧ (∀ ps u pid t i p,
       ps !! i = Some p → Username p = u →
       (∀ j q, (j < i)%nat → ps !! j = Some q → Username q ≠ u) →
       reconcile ps u pid t = <[i := set_TeamIndex t (set_ProfileID pid p)]> ps)
  ∧ (∀ ps u pid t,
       u ∉ map Username ps →
       reconcile ps u pid t = ps ++ [mkPlayer "" pid u t 0 0 0 "" 0]).
Proof.
  split_and!.
  - intros r Hnd. rewrite readPlayers_loop_snd.
    apply (readPlayers_loop_players (λ ps, NoDup (map Username ps))); [|done].
    intros ps u pid t _. apply reconcile_NoDup.
  - apply readPlayers_usernames_prefix.
  - intros recs rest r Hall Hr Hend.
    destruct (readPlayers_on_records recs rest r Hall Hr Hend) as (r' & H1 & _ & H3 & _).
    by exists r'.
  - apply reconcile_usernames.
  - apply reconcile_first.
  - apply reconcile_new.
Qed.

Lemma readPlayers_usernames_distinct_witness :
  (NoDup (map Username (Players (header sample_scan_reader)))
   ∧ NoDup (map Username (Players (header (snd (readPlayers sample_scan_reader))))))
  ∧ ∃ r', readPlayers sample_scan_reader = (Ok tt, r')
          ∧ map Username (Players (header r')) = ["alice"; "bob"; "carol"]
          ∧ map ProfileID (Players (header r')) = [""; "prof-b"; "prof-c"].
Proof.
  destruct readPlayers_usernames_distinct as (Hnodup & _ & Hstream & _).
  split.
  - assert (H : NoDup (map Username (Players (header sample_scan_reader)))).
    { apply (bool_decide_unpack _). vm_compute. exact I. }
    split; [exact H|]. apply (Hnodup sample_scan_reader H).
  - destruct (Hstream sample_scanned [] sample_scan_reader) as (r' & Hok & Hplayers).
    + unfold sample_scanned. well_laid_sample.
    + reflexivity.
    + intros _. split; [apply absent_nil; discriminate|reflexivity].
    + exists r'. split; [exact Hok|]. rewrite Hplayers. split; reflexivity.
Defined.

(** C2 (as amended). The scanner gives every entry it creates or enriches
    the team index 1 when the team indicator of the record is even and 0
    when it is odd, and leaves the team index of every other entry alone:
    on records laid out on the stream it returns the list reconciled with
    the records in order, a reconciliation rewrites the first entry of the
    username or appends a new one, with that team index, and an entry of
    another username is as it was; so every entry after the scanner is an
    entry the list had, untouched, or has team index 0 or 1. An entry built
    from the header carries the integer that Atoi reads from the last team
    value of its record, whatever it is, and 0 when the record has no team
    pair: readHeader returns the players built so, without a check of the
    range. *)
Theorem readPlayers_team_index :
  (∀ r, Forall (λ p, p ∈ Players (header r) ∨ TeamIndex p = 0 ∨ TeamIndex p = 1)
               (Players (header (snd (readPlayers r)))))
  ∧ (∀ recs rest r,
       Forall well_laid recs →
       avail (compressed r) = concat (map encode_scanned recs) ++ rest →
       ((length recs < 10)%nat → absent indicator rest ∧ fault (compressed r) = None) →
       ∃ r', readPlayers r = (Ok tt, r')
             ∧ Players (header r') =
               foldl (λ ps x,
                        reconcile ps (scanned_username x) (scanned_profileID x)
                                  (if Z.even (int32_le (team_bytes x)) then 1 else 0))
                     (Players (header r)) (take 10 recs))
  ∧ (∀ ps u pid t,
       (u ∉ map Username ps →
        reconcile ps u pid t = ps ++ [mkPlayer "" pid u t 0 0 0 "" 0])
       ∧ (∀ i p, ps !! i = Some p → Username p = u →
                 (∀ j q, (j < i)%nat → ps !! j = Some q → Username q ≠ u) →
                 reconcile ps u pid t =
                 <[i := set_TeamIndex t (set_ProfileID pid p)]> ps)
       ∧ (∀ i p, ps !! i = Some p → Username p ≠ u →
                 reconcile ps u pid t !! i = Some p))
  ∧ (∀ s v n, playerData s = true → Atoi v = (n, None) →
       header_pair "team" v s =
       Ok (mkHstate (props s) (gmSettings s) (players s)
                    (set_TeamIndex n (currentPlayer s)) true))
  ∧ (∀ strSep time_Parse used recs k v tail s s' unread rest r,
       length strSep = 7%nat →
       Forall short_pair (used ++ concat (map record_pairs recs) ++ (k, v) :: tail) →
       header_pairs used hstate0 = Running s →
       playerData s = false →
       Forall (λ rec, record_fields_ok (snd rec)) recs →
       k = "id" ∨ k = "playlistcategory" →
       Forall (λ kv, fst kv ≠ "playerid") tail →
       header_pairs (used ++ concat (map record_pairs recs) ++ (k, v) :: tail) hstate0 =
         Stopped s' unread →
       avail (compressed r) =
         encode_pairs strSep (used ++ concat (map record_pairs recs) ++ (k, v) :: tail)
           ++ rest →
       ∃ h err r',
         readHeader strSep time_Parse r = Some ((h, err), r')
         ∧ Players h = players s ++ map player_of_record recs)
  ∧ (∀ rec, TeamIndex (player_of_record rec) =
            match last (values_of "team" (snd rec)) with
            | Some v => fst (Atoi v)
            | None => 0
            end).
Proof.
  split_and!.
  - intros r. rewrite readPlayers_loop_snd.
    apply (readPlayers_loop_players
             (λ ps, Forall (λ p, p ∈ Players (header r) ∨ TeamIndex p = 0 ∨ TeamIndex p = 1) ps)).
    + intros ps u pid t Ht Hps. apply Forall_forall. intros q Hq.
      apply reconcile_elem in Hq as [Hq| ->]; [|tauto].
      by apply (proj1 (Forall_forall _ _) Hps).
    + apply Forall_forall. auto.
  - intros recs rest r Hall Hr Hend.
    destruct (readPlayers_on_records recs rest r Hall Hr Hend) as (r' & H1 & _ & H3 & _).
    by exists r'.
  - intros ps u pid t. split_and!.
    + apply reconcile_new.
    + apply reconcile_first.
    + apply reconcile_other.
  - intros s v n Hpd Hv. unfold header_pair.
    simpl. rewrite Hpd. simpl. by rewrite Hv.
  - intros strSep time_Parse used recs k v tail s s' unread rest r
      Hsep Hshort Hrun Hpd Hok Hk Htail Hstop Hr.
    destruct (readHeader_records strSep time_Parse used recs k v tail s s' unread rest r)
      as (h & err & r' & Hread & Hpl & _); try done.
    by exists h, err, r'.
  - intros [id fields]. cbn [player_of_record TeamIndex snd]. unfold field_int.
    by destruct (last (values_of "team" fields)).
Qed.

Lemma readPlayers_team_index_witness :
  ∃ h err r',
    readHeader sample_strSep sample_time_Parse
      (reader_of (encode_pairs sample_strSep
                    (sample_props
                       ++ concat (map record_pairs
                                      [("p1", [("playername", "alice"); ("team", "5")])])
                       ++ ("id", "m-1") :: [("teamscore0", "3"); ("teamscore1", "1")])
                    ++ [])) = Some ((h, err), r')
    ∧ Players h = [mkPlayer "p1" "" "alice" 5 0 0 0 "" 0].
Proof.
  destruct readPlayers_team_index as (_ & _ & _ & _ & Hheader & _).
  pose (s := match header_pairs sample_props hstate0 with
             | Running s => s
             | _ => hstate0
             end).
  pose (s' := match header_pairs
                      (sample_props
                         ++ concat (map record_pairs
                                        [("p1", [("playername", "alice"); ("team", "5")])])
                         ++ ("id", "m-1") :: [("teamscore0", "3"); ("teamscore1", "1")])
                      hstate0 with
              | Stopped s' _ => s'
              | _ => hstate0
              end).
  destruct (Hheader sample_strSep sample_time_Parse sample_props
              [("p1", [("playername", "alice"); ("team", "5")])] "id" "m-1"
              [("teamscore0", "3"); ("teamscore1", "1")] s s' [] []
              (reader_of (encode_pairs sample_strSep
                    (sample_props
                       ++ concat (map record_pairs
                                      [("p1", [("playername", "alice"); ("team", "5")])])
                       ++ ("id", "m-1") :: [("teamscore0", "3"); ("teamscore1", "1")])
                    ++ [])))
    as (h & err & r' & Hread & Hpl).
  - reflexivity.
  - unfold sample_props. simpl. short_pairs.
  - vm_compute. reflexivity.
  - reflexivity.
  - constructor; [|constructor].
    repeat (constructor;
            [simpl; split_and!;
             [discriminate|discriminate|discriminate|
              first [ intros _; vm_compute; reflexivity
                    | intros H; exfalso; unfold record_ints in H;
                      repeat (apply elem_of_cons in H as [H|H]; [discriminate|]);
                      by apply elem_of_nil in H ]]|]).
    constructor.
  - by left.
  - repeat (constructor; [discriminate|]). constructor.
  - vm_compute. reflexivity.
  - reflexivity.
  - exists h, err, r'. split; [exact Hread|]. rewrite Hpl. vm_compute. reflexivity.
Defined.

(** ** Player records through readHeader *)

(** C7. A pair with key playerid appends the player in progress, if there
    is one, and starts a fresh record that holds the value as its
    identifier and nothing else. So two records in a row, each opened by
    playerid, come out as two players with their own identifier, username
    and team, and a record that lacks a field has the zero value there, not
    the value of the record before it. On the stream: readHeader, reading a
    header whose player records lie one after the other, returns a header
    with one player for each record, in order, each built from the pairs of
    its own record; for two records with a username and a team each, the two
    players with their own identifier, username and team. *)
Theorem header_pair_playerid :
  (∀ v s,
     header_pair "playerid" v s =
     Ok (mkHstate (props s) (gmSettings s)
                  (if playerData s then players s ++ [currentPlayer s] else players s)
                  (set_ID v Player0) true))
  ∧ (∀ id1 name1 team1 n1 id2 name2 team2 n2 k v kvs s,
       playerData s = false → props s !! "teamscore1" = None →
       Atoi team1 = (n1, None) → Atoi team2 = (n2, None) →
       k = "id" ∨ k = "playlistcategory" →
       header_pairs
         (("playerid", id1) :: ("playername", name1) :: ("team", team1)
          :: ("playerid", id2) :: ("playername", name2) :: ("team", team2)
          :: (k, v) :: kvs) s =
       header_pairs kvs
         (mkHstate (<[k := v]> (props s)) (gmSettings s)
                   (players s ++ [mkPlayer id1 "" name1 n1 0 0 0 "" 0;
                                  mkPlayer id2 "" name2 n2 0 0 0 "" 0])
                   (mkPlayer id2 "" name2 n2 0 0 0 "" 0) false))
  ∧ (∀ id1 name1 team1 n1 id2 k v kvs s,
       playerData s = false → props s !! "teamscore1" = None →
       Atoi team1 = (n1, None) →
       k = "id" ∨ k = "playlistcategory" →
       header_pairs
         (("playerid", id1) :: ("playername", name1) :: ("team", team1)
          :: ("playerid", id2) :: (k, v) :: kvs) s =
       header_pairs kvs
         (mkHstate (<[k := v]> (props s)) (gmSettings s)
                   (players s ++ [mkPlayer id1 "" name1 n1 0 0 0 "" 0;
                                  mkPlayer id2 "" "" 0 0 0 0 "" 0])
                   (mkPlayer id2 "" "" 0 0 0 0 "" 0) false))
  ∧ (∀ strSep time_Parse used id1 name1 team1 n1 id2 name2 team2 n2 k v tail
       s s' unread rest r,
       length strSep = 7%nat →
       Forall short_pair
         (used ++ [("playerid", id1); ("playername", name1); ("team", team1);
                   ("playerid", id2); ("playername", name2); ("team", team2)]
               ++ (k, v) :: tail) →
       header_pairs used hstate0 = Running s →
       playerData s = false →
       Atoi team1 = (n1, None) → Atoi team2 = (n2, None) →
       k = "id" ∨ k = "playlistcategory" →
       Forall (λ kv, fst kv ≠ "playerid") tail →
       header_pairs
         (used ++ [("playerid", id1); ("playername", name1); ("team", team1);
                   ("playerid", id2); ("playername", name2); ("team", team2)]
               ++ (k, v) :: tail) hstate0 = Stopped s' unread →
       avail (compressed r) =
         encode_pairs strSep
           (used ++ [("playerid", id1); ("playername", name1); ("team", team1);
                     ("playerid", id2); ("playername", name2); ("team", team2)]
                 ++ (k, v) :: tail) ++ rest →
       ∃ h err r',
         readHeader strSep time_Parse r = Some ((h, err), r')
         ∧ Players h = players s ++ [mkPlayer id1 "" name1 n1 0 0 0 "" 0;
                                     mkPlayer id2 "" name2 n2 0 0 0 "" 0]
         ∧ avail (compressed r') = encode_pairs strSep unread ++ rest)
  ∧ (∀ strSep time_Parse used recs k v tail s s' unread rest r,
       length strSep = 7%nat →
       Forall short_pair (used ++ concat (map record_pairs recs) ++ (k, v) :: tail) →
       header_pairs used hstate0 = Running s →
       playerData s = false →
       Forall (λ rec, record_fields_ok (snd rec)) recs →
       k = "id" ∨ k = "playlistcategory" →
       Forall (λ kv, fst kv ≠ "playerid") tail →
       header_pairs (used ++ concat (map record_pairs recs) ++ (k, v) :: tail) hstate0 =
         Stopped s' unread →
       avail (compressed r) =
         encode_pairs strSep (used ++ concat (map record_pairs recs) ++ (k, v) :: tail)
           ++ rest →
       ∃ h err r',
         readHeader strSep time_Parse r = Some ((h, err), r')
         ∧ Players h = players s ++ map player_of_record recs
         ∧ avail (compressed r') = encode_pairs strSep unread ++ rest).
Proof.
  assert (Hopen : ∀ v s,
     header_pair "playerid" v s =
     Ok (mkHstate (props s) (gmSettings s)
                  (if playerData s then players s ++ [currentPlayer s] else players s)
                  (set_ID v Player0) true)).
  { intros v [ps gm pl cur pd]. unfold header_pair. by destruct pd. }
  assert (Hclose : ∀ k v ps gm pl cur,
     ps !! "teamscore1" = None → k = "id" ∨ k = "playlistcategory" →
     ∀ kvs, header_pairs ((k, v) :: kvs) (mkHstate ps gm pl cur true) =
            header_pairs kvs (mkHstate (<[k := v]> ps) gm (pl ++ [cur]) cur false)).
  { intros k v ps gm pl cur Hts Hk kvs. apply header_pairs_step.
    - by rewrite header_pair_closes_record by (cbn; tauto).
    - cbn [props]. destruct Hk as [-> | ->]; by rewrite lookup_insert_ne. }
  split_and!; [exact Hopen| | | |].
  - intros id1 name1 team1 n1 id2 name2 team2 n2 k v kvs [ps gm pl cur pd].
    cbn [playerData props gmSettings players currentPlayer].
    intros -> Hts Hn1 Hn2 Hk.
    erewrite header_pairs_step; [|by rewrite Hopen|by cbn [props]].
    cbn [playerData props gmSettings players currentPlayer].
    do 5 pair_step.
    rewrite Hclose by done. by rewrite <- app_assoc.
  - intros id1 name1 team1 n1 id2 k v kvs [ps gm pl cur pd].
    cbn [playerData props gmSettings players currentPlayer].
    intros -> Hts Hn1 Hk.
    erewrite header_pairs_step; [|by rewrite Hopen|by cbn [props]].
    cbn [playerData props gmSettings players currentPlayer].
    do 3 pair_step.
    rewrite Hclose by done. by rewrite <- app_assoc.
  - intros strSep time_Parse used id1 name1 team1 n1 id2 name2 team2 n2 k v tail
      s s' unread rest r Hsep Hshort Hrun Hpd Hn1 Hn2 Hk Htail Hstop Hr.
    destruct (readHeader_records strSep time_Parse used
                [(id1, [("playername", name1); ("team", team1)]);
                 (id2, [("playername", name2); ("team", team2)])]
                k v tail s s' unread rest r) as (h & err & r' & Hread & Hpl & Hav);
      try done.
    + assert (Hok : ∀ name team n, Atoi team = (n, None) →
                record_fields_ok [("playername", name); ("team", team)]).
      { intros name team n Hn. unfold record_fields_ok.
        repeat (constructor;
                [simpl; split_and!; [done..|];
                 first [ intros _; by rewrite Hn
                       | intros H; exfalso; unfold record_ints in H;
                         repeat (apply elem_of_cons in H as [H|H]; [discriminate|]);
                         by apply elem_of_nil in H ]|]).
        constructor. }
      repeat (constructor; [by eapply Hok|]). constructor.
    + exists h, err, r'. split_and!; [done| |done]. rewrite Hpl.
      unfold player_of_record, field_text, field_int, values_of. simpl.
      by rewrite Hn1, Hn2.
  - intros strSep time_Parse used recs k v tail s s' unread rest r.
    apply readHeader_records.
Qed.

Lemma header_pair_playerid_witness :
  ∃ h err r',
    readHeader sample_strSep sample_time_Parse (reader_of sample_header_stream) =
      Some ((h, err), r')
    ∧ Players h = [mkPlayer "p1" "" "alice" 0 0 0 0 "" 0;
                   mkPlayer "p2" "" "bob" 1 0 0 0 "" 0]
    ∧ avail (compressed r') = encode_pairs sample_strSep [("extra", "x")] ++ [x07].
Proof.
  destruct header_pair_playerid as (_ & _ & _ & Hstream & _).
  pose (s := match header_pairs sample_props hstate0 with
             | Running s => s
             | _ => hstate0
             end).
  pose (s' := match header_pairs
                      (sample_two_players ++ [("teamscore1", "1"); ("extra", "x")])
                      hstate0 with
              | Stopped s' _ => s'
              | _ => hstate0
              end).
  apply (Hstream sample_strSep sample_time_Parse sample_props
           "p1" "alice" "0" 0 "p2" "bob" "1" 1 "id" "m-1"
           [("teamscore0", "3"); ("teamscore1", "1"); ("extra", "x")]
           s s' [("extra", "x")] [x07] (reader_of sample_header_stream)).
  - reflexivity.
  - unfold sample_props. simpl. short_pairs.
  - vm_compute. reflexivity.
  - reflexivity.
  - vm_compute. reflexivity.
  - vm_compute. reflexivity.
  - by left.
  - repeat (constructor; [discriminate|]). constructor.
  - vm_compute. reflexivity.
  - reflexivity.
Defined.

(** ** The turns of the scanner and their failures *)

(** C8. The scanner takes at most ten turns: at most ten pushes to the
    collector and ten new players, and after the tenth turn it returns
    without an error. A turn whose seek for the team marker reports
    ErrMagicMismatch ends the loop without an error, whatever turn it is,
    and readPlayers returns no error whenever its loop ends so: on records
    laid out on the stream it returns without an error, having pushed the
    first ten of them, all of them when fewer than ten are followed by
    bytes without the team marker and a clean end of the stream. Any other
    failure of a call of the turn is returned as it is: the seek for the
    team marker with another error, and each later read or seek with
    whatever error it has; and the error of the scanner is the error of the
    decode. *)
Theorem readPlayers_turns_and_failures :
  (∀ r, (length (Players (header (snd (readPlayers r))))
           ≤ length (Players (header r)) + 10)%nat
        ∧ ∀ c r', readPlayers_loop 10 [] r = (Ok c, r') → (length c ≤ 10)%nat)
  ∧ (∀ c r, readPlayers_loop 0 c r = (Ok c, r))
  ∧ (∀ todo c r r1,
       Seek indicator r = (Err ErrMagicMismatch, r1) →
       readPlayers_loop (S todo) c r = (Ok c, r1))
  ∧ (∀ r r1, Seek indicator r = (Err ErrMagicMismatch, r1) →
             readPlayers r = (Ok tt, r1))
  ∧ (∀ r c r', readPlayers_loop 10 [] r = (Ok c, r') → readPlayers r = (Ok tt, r'))
  ∧ (∀ recs rest r,
       Forall well_laid recs →
       avail (compressed r) = concat (map encode_scanned recs) ++ rest →
       ((length recs < 10)%nat → absent indicator rest ∧ fault (compressed r) = None) →
       ∃ r', readPlayers r = (Ok tt, r')
             ∧ fst (readPlayers_loop 10 [] r) =
               Ok (map (λ x, (scanned_username x, unknown_bytes x)) (take 10 recs))
             ∧ avail (compressed r') =
               if decide (length recs < 10)%nat then []
               else concat (map encode_scanned (drop 10 recs)) ++ rest)
  ∧ (∀ r e r', readPlayers_loop 10 [] r = (Err e, r') → readPlayers r = (Err e, r'))
  ∧ (∀ strSep time_Parse rin rm h rh e r',
       readHeaderMagic rin = Some (Ok tt, rm) →
       readHeader strSep time_Parse rm = Some ((h, None), rh) →
       readPlayers (mkReader (compressed rh) (offset rh) h) = (Err e, r') →
       decode strSep time_Parse rin = Some (Err e))
  ∧ ∀ todo c r,
    (∀ e r1, Seek indicator r = (Err e, r1) → e ≠ ErrMagicMismatch →
       readPlayers_loop (S todo) c r = (Err e, r1))
    ∧ ∀ r1, Seek indicator r = (Ok tt, r1) →
    (∀ e r2, ReadInt r1 = (Err e, r2) →
       readPlayers_loop (S todo) c r = (Err e, r2))
    ∧ ∀ teamIndicator r2, ReadInt r1 = (Ok teamIndicator, r2) →
    (∀ e r3, Read 12 r2 = (Err e, r3) →
       readPlayers_loop (S todo) c r = (Err e, r3))
    ∧ ∀ b r3, Read 12 r2 = (Ok b, r3) →
    (∀ e r4, ReadString r3 = (Err e, r4) →
       readPlayers_loop (S todo) c r = (Err e, r4))
    ∧ ∀ username r4, ReadString r3 = (Ok username, r4) →
    (∀ e r5, Seek profileIDIndicator r4 = (Err e, r5) →
       readPlayers_loop (S todo) c r = (Err e, r5))
    ∧ ∀ r5, Seek profileIDIndicator r4 = (Ok tt, r5) →
    (∀ e r6, ReadString r5 = (Err e, r6) →
       readPlayers_loop (S todo) c r = (Err e, r6))
    ∧ ∀ profileID r6, ReadString r5 = (Ok profileID, r6) →
    let teamIndex := if decide (Z.rem teamIndicator 2 = 0) then 1 else 0 in
    let r7 := snd (reconcile_players username profileID teamIndex r6) in
    (∀ e r8, Seek unknownIndicator r7 = (Err e, r8) →
       readPlayers_loop (S todo) c r = (Err e, r8))
    ∧ ∀ r8, Seek unknownIndicator r7 = (Ok tt, r8) →
    (∀ e r9, Read 30 r8 = (Err e, r9) →
       readPlayers_loop (S todo) c r = (Err e, r9))
    ∧ ∀ unknown r9, Read 30 r8 = (Ok unknown, r9) →
       readPlayers_loop (S todo) c r =
       readPlayers_loop todo (c ++ [(username, unknown)]) r9.
Proof.
  split_and!.
  - intros r. rewrite readPlayers_loop_snd.
    destruct (readPlayers_loop_bound 10 [] r) as [Hp Hc]. split; [exact Hp|].
    intros c r' Hr. specialize (Hc c). rewrite Hr in Hc. simpl in Hc.
    specialize (Hc eq_refl). lia.
  - reflexivity.
  - intros todo c r r1 H. rewrite readPlayers_loop_S, H. by rewrite decide_False by auto.
  - intros r r1 H. rewrite readPlayers_of_loop, readPlayers_loop_S, H.
    by rewrite decide_False by auto.
  - intros r c r' H. by rewrite readPlayers_of_loop, H.
  - intros recs rest r Hall Hr Hend.
    destruct (readPlayers_on_records recs rest r Hall Hr Hend) as (r' & H1 & H2 & _ & H4).
    by exists r'.
  - intros r e r' H. by rewrite readPlayers_of_loop, H.
  - intros strSep time_Parse rin rm h rh e r'. apply decode_readPlayers_Err.
  - intros todo c r. rewrite readPlayers_loop_S.
    split; [intros e r1 -> He; by rewrite decide_True|intros r1 ->].
    repeat (split; [by intros ? ? ->|]; try intros ? ? ->; try intros ? ->; cbv zeta).
    done.
Qed.

Lemma readPlayers_turns_and_failures_witness :
  readPlayers_loop 10 [] (reader_of sample_cut_block) =
    (Err ErrUnexpectedEOF,
     mkReader (mkSource [] None) 73
              (set_Players [mkPlayer "" "prof-d" "dave" 1 0 0 0 "" 0] Header0))
  ∧ ∃ r', readPlayers sample_scan_reader = (Ok tt, r')
          ∧ fst (readPlayers_loop 10 [] sample_scan_reader) =
            Ok [("bob", repeat xaa 30); ("carol", repeat xaa 30)]
          ∧ avail (compressed r') = [].
Proof.
  destruct readPlayers_turns_and_failures as (_ & _ & _ & _ & _ & Hstream & _ & _ & H).
  split.
  - pose (r0 := reader_of sample_cut_block).
    pose (r1 := snd (Seek indicator r0)).
    pose (r2 := snd (ReadInt r1)).
    pose (r3 := snd (Read 12 r2)).
    pose (r4 := snd (ReadString r3)).
    pose (r5 := snd (Seek profileIDIndicator r4)).
    pose (r6 := snd (ReadString r5)).
    pose (r7 := snd (reconcile_players "dave" "prof-d" 1 r6)).
    pose (r8 := snd (Seek unknownIndicator r7)).
    destruct (H 9%nat [] r0) as [_ H1].
    destruct (H1 r1) as [_ H2]; [vm_compute; reflexivity|].
    destruct (H2 2 r2) as [_ H3]; [vm_compute; reflexivity|].
    destruct (H3 (repeat xff 12) r3) as [_ H4]; [vm_compute; reflexivity|].
    destruct (H4 "dave" r4) as [_ H5]; [vm_compute; reflexivity|].
    destruct (H5 r5) as [_ H6]; [vm_compute; reflexivity|].
    destruct (H6 "prof-d" r6) as [_ H7]; [vm_compute; reflexivity|].
    destruct (H7 r8) as [H8 _]; [vm_compute; reflexivity|].
    apply (H8 ErrUnexpectedEOF). vm_compute. reflexivity.
  - apply (Hstream sample_scanned [] sample_scan_reader).
    + unfold sample_scanned. well_laid_sample.
    + reflexivity.
    + intros _. split; [apply absent_nil; discriminate|reflexivity].
Defined.
